(** * issync: the synchronisation engine, embedded and verified

    A shallow embedding of the TypeScript sources of issync (storage.ts,
    gh.ts, project.ts, sync.ts) together with the properties of the pull
    engine ([syncDown]), the push engine ([syncUp]), the conflict detector
    ([detectConflicts]), the batched custom-field fetch
    ([getProjectItemsForIssues]) and the local store ([saveIssue],
    [loadIssue]).

    Conventions of the embedding.
    - A JavaScript string is a [string]; [a > b] on strings is the
      lexicographic comparison of code units, [String.compare].
    - An issue number is an [N]; [Record<number, _>] and [Map<number, _>]
      are [gmap N _]; objects whose key order is observable
      ([project_fields], a project item) are association lists.
    - An [async] function is a computation in the monad [M]: it reads and
      writes a [World] (the files under [.issync], the log of console
      output and of remote calls) and may throw.  Everything the program
      cannot decide itself (the wall clock, the answers of GitHub, whether
      a file system call succeeds) is read from an [Env], a script of
      answers indexed by the number of interactions made so far. *)

From Stdlib Require Import String Ascii ZArith List Lia Bool.
From stdpp Require Import base option gmap strings list fin_maps sorting.
From Equations Require Import Equations.

Local Open Scope string_scope.
Local Open Scope N_scope.
Local Open Scope list_scope.

(** ** JavaScript values *)

Module Js.

(** [a > b] and [a <= b] on strings. *)
Definition gt (a b : string) : bool :=
  match String.compare a b with Gt => true | _ => false end.

Definition le (a b : string) : bool := negb (gt a b).

(** Truthiness of a string: every string but the empty one. *)
Definition truthy (s : string) : bool :=
  match s with EmptyString => false | String _ _ => true end.

(** Truthiness of [string | null | undefined]. *)
Definition truthy_opt (o : option string) : bool :=
  match o with Some s => truthy s | None => false end.

(** [x || null] for [x : string | null | undefined]. *)
Definition or_null (o : option string) : option string :=
  match o with
  | Some s => if truthy s then Some s else None
  | None => None
  end.

(** White space and line terminators among the code units below 256:
    TAB, LF, VT, FF, CR, SP and NBSP. *)
Definition is_ws (c : ascii) : bool :=
  match N_of_ascii c with
  | 9 | 10 | 11 | 12 | 13 | 32 | 160 => true
  | _ => false
  end.

Fixpoint trimStart (s : string) : string :=
  match s with
  | EmptyString => EmptyString
  | String c s' => if is_ws c then trimStart s' else s
  end.

Fixpoint trimEnd (s : string) : string :=
  match s with
  | EmptyString => EmptyString
  | String c s' =>
      match trimEnd s' with
      | EmptyString => if is_ws c then EmptyString else String c EmptyString
      | t => String c t
      end
  end.

(** [String.prototype.trim]. *)
Definition trim (s : string) : string := trimEnd (trimStart s).

(** [Array.prototype.sort] without a comparator, on an array of strings:
    ascending in code-unit order.  Insertion sort is stable, as the
    language requires. *)
Fixpoint insert (x : string) (l : list string) : list string :=
  match l with
  | [] => [x]
  | y :: l' => if gt y x then x :: y :: l' else y :: insert x l'
  end.

Definition sort (l : list string) : list string := foldr insert [] l.

(** [Array.prototype.pop]: the last element, [undefined] when empty. *)
Definition pop (l : list string) : option string := last l.

(** An object used as an ordered dictionary: assignment [o[k] = v]
    replaces the value of an existing key in place and appends a new key
    at the end. *)
Fixpoint set {V} (k : string) (v : V) (o : list (string * V)) : list (string * V) :=
  match o with
  | [] => [(k, v)]
  | (k', v') :: o' =>
      if bool_decide (k' = k) then (k, v) :: o' else (k', v') :: set k v o'
  end.

Fixpoint get {V} (k : string) (o : list (string * V)) : option V :=
  match o with
  | [] => None
  | (k', v') :: o' => if bool_decide (k' = k) then Some v' else get k o'
  end.

End Js.

(** ** types.ts *)

Inductive IssueState := open | closed.

Inductive ProjectFieldValue :=
| PFString (s : string)
| PFNumber (z : Z)
| PFNull.

Record Issue := {
  number : N;
  title : string;
  body : string;
  state : IssueState;
  labels : list string;
  assignees : list string;
  milestone : option string;
  created_at : string;
  updated_at : string;
  closed_at : option string;
  project_fields : option (list (string * ProjectFieldValue));
}.

Inductive DataType :=
| TEXT | NUMBER | DATE | SINGLE_SELECT | ITERATION
| OTHER (s : string).

Record ProjectFieldOption := { option_id : string; option_name : string }.

Record ProjectField := {
  field_id : string;
  field_name : string;
  dataType : DataType;
  options : option (list ProjectFieldOption);
}.

(** A project item as [getProjectItemsForIssues] builds it: the item id
    and the custom-field values, keyed by field name, in insertion order.
    (A custom field named "id" or "content" would overwrite the fixed keys
    of the JavaScript object; such names are outside the model.) *)
Record ProjectItem := {
  item_id : string;
  item_number : N;
  item_fields : list (string * ProjectFieldValue);
}.

Record ProjectConfig := {
  project_number : option N;
  owner : option string;
  enabled : bool;
  cached_fields : option (list ProjectField);
  fields_cached_at : option string;
}.

Record SyncRecord := {
  github_updated_at : string;
  local_updated_at : string;
  last_synced_at : string;
  project_item_id : option string;
  project_fields_updated_at : option string;
}.

Record SyncState := { issues : gmap N SyncRecord }.

Record ConflictInfo := {
  conflict_number : N;
  conflict_title : string;
  github_updated : string;
  local_updated : string;
  last_synced : string;
}.

#[global] Instance IssueState_eq_dec : EqDecision IssueState.
Proof. solve_decision. Defined.
#[global] Instance ProjectFieldValue_eq_dec : EqDecision ProjectFieldValue.
Proof. solve_decision. Defined.
#[global] Instance Issue_eq_dec : EqDecision Issue.
Proof. solve_decision. Defined.
#[global] Instance SyncRecord_eq_dec : EqDecision SyncRecord.
Proof. solve_decision. Defined.

(** ** The world outside the program *)

(** The repository string "owner/name", kept as its two components
    ([repo.split('/')]). *)
Record Repo := { repo_owner : string; repo_name : string }.

(** Parameters of [octokit.rest.issues.listForRepo]. *)
Record ListParams := {
  lp_owner : string;
  lp_repo : string;
  lp_state : string;
  lp_per_page : nat;
  lp_page : nat;
  lp_sort : string;
  lp_direction : string;
  lp_since : option string;
}.

(** One element of the answer of [listForRepo]. *)
Record RawIssue := {
  raw_number : N;
  raw_title : string;
  raw_body : option string;
  raw_state : IssueState;
  raw_labels : list (string + string);   (* a string, or an object with a name *)
  raw_assignees : option (list string);  (* the logins *)
  raw_milestone : option string;         (* the title *)
  raw_created_at : string;
  raw_updated_at : string;
  raw_closed_at : option string;
  raw_pull_request : bool;
}.

(** The partial update [syncUp] hands to [updateIssue]: a key is present
    when its [option] is [Some]. *)
Record Updates := {
  u_title : option string;
  u_body : option string;
  u_state : option IssueState;
  u_labels : option (list string);
  u_assignees : option (list string);
  u_milestone : option (option string);
}.

(** Parameters of [octokit.rest.issues.update]. *)
Record UpdateParams := {
  up_repo : Repo;
  up_issue_number : N;
  up_title : option string;
  up_body : option string;
  up_state : option IssueState;
  up_labels : option (list string);
  up_assignees : option (list string);
  up_milestone : option (option N);
}.

(** The GraphQL answer for one issue of a batch. *)
Record RawFieldValue := {
  fv_field_name : option string;
  fv_name : option string;
  fv_text : option string;
  fv_date : option string;
  fv_number : option Z;
  fv_title : option string;
}.

Record RawProjectItem := {
  rpi_id : string;
  rpi_project_number : option N;
  rpi_fieldValues : option (list RawFieldValue);
}.

Record RawIssueData := { rid_projectItems : option (list RawProjectItem) }.

(** The GraphQL mutations of [updateProjectField]. *)
Inductive FieldChange :=
| ClearValue
| SetText (v : ProjectFieldValue)       (* String(value) *)
| SetNumber (v : ProjectFieldValue)     (* Number(value) *)
| SetDate (v : ProjectFieldValue)       (* String(value) *)
| SetSingleSelectOption (optionId : string)
| SetIteration (iterationId : string).

Record Mutation := {
  m_projectId : string;
  m_itemId : string;
  m_fieldId : string;
  m_change : FieldChange;
}.

Record Config := { project : option ProjectConfig }.

Inductive Error :=
| Rejected (msg : string)
| FailedToUpdateIssue (n : N) (cause : Error)
| ProjectNotFound (n : N) (o : string)
| FailedToFetchProjectFields (cause : Error)
| UnknownOption (v : ProjectFieldValue) (field : string)
| UnknownIteration (v : ProjectFieldValue) (field : string)
| UnsupportedFieldType (dt : DataType)
| FailedToUpdateProjectField (cause : Error).

(** [console.log] and [console.warn], one constructor per statement. *)
Inductive Log :=
| LSyncingDown
| LRepository (r : Repo)
| LFetchingSince (s : string)
| LFetched (n : nat)
| LFetchingProjectData (p : N)
| LFetchedProjectData (n : nat)
| WFailedToFetchProjectData (e : Error)
| LSyncComplete
| LCheckingForLocalChanges
| LSyncingUp
| WFailedToLoadProjectData (e : Error)
| LNotFoundOnGithub (n : N)
| LNoSyncHistory (n : N)
| LConflictDetected (n : N)
| LWouldUpdate (n : N) (t : string) (changes : list string)
| LUpdating (n : N) (t : string)
| LWouldUpdateField (n : N) (f : string) (remoteValue : option ProjectFieldValue)
    (localValue : ProjectFieldValue)
| LUpdatedField (n : N) (f : string)
| WFailedToUpdateField (n : N) (f : string) (e : Error)
| LFoundWithLocalChanges (updated : nat)
| LSyncCompleteUpdated (updated : nat)
| LUsingCachedFields
| LAutoDetected (p : option N) (t : option string)
| LSavedConfig
| WFailedToSaveConfig (e : Error)
| WFailedBatch (e : Error).

(** The answer of an awaited promise. *)
Inductive Answer (A : Type) := Resolve (a : A) | Reject (msg : string).
Arguments Resolve {A} a.
Arguments Reject {A} msg.

(** The script of the environment; the first argument of every field is
    the number of interactions the program has made before this one. *)
Record Env := {
  now : nat -> string;                       (* new Date().toISOString() *)
  fs_ok : nat -> bool;                       (* a file-system write succeeds *)
  git_remote : nat -> Answer Repo;
  rest_listForRepo : nat -> ListParams -> Answer (list RawIssue);
  rest_listMilestones : nat -> Answer (list (string * N));
  rest_update : nat -> UpdateParams -> Answer unit;
  gql_projectItems : nat -> Repo -> list N -> Answer (list (option RawIssueData));
  gql_projectFields : nat -> N -> string -> Answer (list ProjectField);
  gql_projectId : nat -> N -> string -> Answer (option string);
  gql_projectTitle : nat -> option N -> option string -> Answer (option string);
  gql_detectProject : nat -> string -> Repo -> option ProjectConfig;
  gql_mutate : nat -> Mutation -> Answer unit;
  cache_is_fresh : nat -> string -> bool;    (* Date.now() - Date(cacheAge) < 24h *)
}.

(** ** gray-matter *)

(** The front matter of an issue file, as [matter] returns it: a key that
    is missing or null is [None]. *)
Record FrontMatter := {
  fm_number : N;
  fm_title : string;
  fm_state : IssueState;
  fm_labels : option (list string);
  fm_assignees : option (list string);
  fm_milestone : option string;
  fm_created_at : string;
  fm_updated_at : string;
  fm_closed_at : option string;
  fm_project_fields : option (list (string * ProjectFieldValue));
}.

(** The two entry points of the gray-matter library the program uses:
    [matter.stringify(body, data)] and [matter(text)], which throws on text
    it cannot parse ([None]).  [Text] is what an issue file holds. *)
Class GrayMatter := {
  Text : Type;
  matter_stringify : string -> FrontMatter -> Text;
  matter : Text -> option (FrontMatter * string);
}.

(** What the program relies on: parsing a stringified file gives back the
    data and the body up to surrounding white space. *)
Class GrayMatterRoundTrip `{GrayMatter} := {
  matter_of_stringify : forall b fm,
    exists b', matter (matter_stringify b fm) = Some (fm, b')
               /\ Js.trim b' = Js.trim b;
}.

(** How an asynchronous function ends. *)
Inductive Outcome (A : Type) :=
| Ok (a : A)
| Throw (e : Error)
| Diverge.                                   (* a loop that ran out of fuel *)
Arguments Ok {A} a.
Arguments Throw {A} e.
Arguments Diverge {A}.

Section Issync.

Context `{GrayMatter}.

(** What the program does to the outside, in the order it does it. *)
Inductive Event :=
| Console (l : Log)
| Mkdir
| WriteIssueFile (n : N) (text : Text)
| WriteStateFile (s : SyncState)
| WriteConfigFile (c : Config)
| CallListForRepo (p : ListParams)
| CallListMilestones (r : Repo)
| CallIssuesUpdate (p : UpdateParams)
| QueryProjectItems (r : Repo) (batch : list N)
| QueryProjectFields (p : N) (o : string)
| QueryProjectId (p : N) (o : string)
| QueryProjectTitle (p : option N) (o : option string)
| QueryDetectProject (o : string) (r : Repo)
| MutateProjectField (m : Mutation).

Record LocalFile := { text : Text; mtime : string }.

Record World := {
  tick : nat;                                (* interactions made so far *)
  issue_files : gmap N LocalFile;            (* .issync/issues/<n>.md *)
  state_file : option SyncState;             (* .issync/state.json *)
  config_file : option Config;               (* .issync/config.json *)
}.

(** ** The monad of asynchronous functions *)

(** A run: how it ended, the world it left, the events it caused. *)
Record Run (A : Type) := mkRun {
  outcome : Outcome A;
  world : World;
  events : list Event;
}.
#[global] Arguments mkRun {A}.
#[global] Arguments outcome {A}.
#[global] Arguments world {A}.
#[global] Arguments events {A}.

Definition M (A : Type) : Type := World -> Run A.

#[global] Instance M_ret : MRet M := fun A a w => mkRun (Ok a) w [].

#[global] Instance M_bind : MBind M := fun A B k m w =>
  let r := m w in
  match outcome r with
  | Ok a =>
      let r' := k a (world r) in
      mkRun (outcome r') (world r') (events r ++ events r')
  | Throw e => mkRun (Throw e) (world r) (events r)
  | Diverge => mkRun Diverge (world r) (events r)
  end.

Definition throw {A} (e : Error) : M A := fun w => mkRun (Throw e) w [].

Definition diverge {A} : M A := fun w => mkRun Diverge w [].

(** [try { m } catch (e) { h e }]. *)
Definition try_catch {A} (m : M A) (h : Error -> M A) : M A := fun w =>
  let r := m w in
  match outcome r with
  | Throw e =>
      let r' := h e (world r) in
      mkRun (outcome r') (world r') (events r ++ events r')
  | _ => r
  end.

Definition emit (e : Event) : M unit := fun w => mkRun (Ok tt) w [e].

Definition log (l : Log) : M unit := emit (Console l).

(** One interaction with the environment: the answer scripted for the
    current instant. *)
Definition interact {A} (f : nat -> A) : M A := fun w =>
  mkRun (Ok (f (tick w)))
        {| tick := S (tick w); issue_files := issue_files w;
           state_file := state_file w; config_file := config_file w |} [].

Definition await {A} (f : nat -> Answer A) : M A :=
  r ← interact f;
  match r with
  | Resolve a => mret a
  | Reject msg => throw (Rejected msg)
  end.

Definition get_world : M World := fun w => mkRun (Ok w) w [].

Definition set_issue_files (fs : gmap N LocalFile) : M unit := fun w =>
  mkRun (Ok tt)
        {| tick := tick w; issue_files := fs; state_file := state_file w;
           config_file := config_file w |} [].

Definition set_state_file (s : option SyncState) : M unit := fun w =>
  mkRun (Ok tt)
        {| tick := tick w; issue_files := issue_files w; state_file := s;
           config_file := config_file w |} [].

Definition set_config_file (c : option Config) : M unit := fun w =>
  mkRun (Ok tt)
        {| tick := tick w; issue_files := issue_files w;
           state_file := state_file w; config_file := c |} [].

(** [for (const x of l) { ... }] over a loop state. *)
Fixpoint for_of {A S} (l : list A) (f : S -> A -> M S) (s : S) : M S :=
  match l with
  | [] => mret s
  | x :: l' => s' ← f s x; for_of l' f s'
  end.

(** [new Map(entries)]: a later entry replaces an earlier one. *)
Definition js_Map `{Countable K} {V} (entries : list (K * V)) : gmap K V :=
  foldl (fun m kv => <[kv.1 := kv.2]> m) ∅ entries.

Context (env : Env).

(** ** storage.ts *)

(** A write to the file system: the call is logged, then it succeeds at
    the current instant or throws. *)
Definition fs_call (e : Event) : M nat :=
  emit e;;
  '(t, ok) ← interact (fun t => (t, fs_ok env t));
  if ok : bool then mret t else throw (Rejected "file system").

Definition ensureStorageDir : M unit := fs_call Mkdir;; mret tt.

Definition saveIssue (issue : Issue) : M unit :=
  let frontmatter := {|
    fm_number := number issue;
    fm_title := title issue;
    fm_state := state issue;
    fm_labels := Some (labels issue);
    fm_assignees := Some (assignees issue);
    fm_milestone := milestone issue;
    fm_created_at := created_at issue;
    fm_updated_at := updated_at issue;
    fm_closed_at := closed_at issue;
    fm_project_fields :=
      match project_fields issue with
      | Some fields => if Nat.ltb 0 (length fields) then Some fields else None
      | None => None
      end |} in
  let content := matter_stringify (body issue) frontmatter in
  t ← fs_call (WriteIssueFile (number issue) content);
  w ← get_world;
  set_issue_files (<[number issue := {| text := content; mtime := now env t |}]> (issue_files w)).

(** The issue [loadIssue] builds from the parsed front matter and body. *)
Definition issue_of_matter (data : FrontMatter) (body : string) : Issue := {|
  number := fm_number data;
  title := fm_title data;
  body := Js.trim body;
  state := fm_state data;
  labels := default [] (fm_labels data);
  assignees := default [] (fm_assignees data);
  milestone := Js.or_null (fm_milestone data);
  created_at := fm_created_at data;
  updated_at := fm_updated_at data;
  closed_at := Js.or_null (fm_closed_at data);
  project_fields := fm_project_fields data |}.

Definition loadIssue (n : N) : M (option Issue) :=
  w ← get_world;
  match issue_files w !! n with
  | None => mret None
  | Some file =>
      match matter (text file) with
      | None => mret None
      | Some (data, body) => mret (Some (issue_of_matter data body))
      end
  end.

(** [readdir] lists one file [<n>.md] per key of [issue_files]. *)
Definition loadAllLocalIssues : M (list Issue) :=
  w ← get_world;
  let issueNumbers := (map_to_list (issue_files w)).*1 in
  found ← for_of issueNumbers
             (fun acc n => i ← loadIssue n; mret (acc ++ [i])) [];
  mret (omap (fun i : option Issue => i) found).

Definition loadSyncState : M SyncState :=
  w ← get_world;
  mret (default {| issues := ∅ |} (state_file w)).

Definition saveSyncState (s : SyncState) : M unit :=
  fs_call (WriteStateFile s);;
  set_state_file (Some s).

Definition getLocalFileModTime (n : N) : M (option string) :=
  w ← get_world;
  mret (mtime <$> issue_files w !! n).

Definition saveConfig (c : Config) : M unit :=
  fs_call (WriteConfigFile c);;
  set_config_file (Some c).

(** ** gh.ts *)

Definition getCurrentRepo : M Repo := await (git_remote env).

Definition issue_of_raw (issue : RawIssue) : Issue := {|
  number := raw_number issue;
  title := raw_title issue;
  body := Js.trim (default "" (Js.or_null (raw_body issue)));
  state := raw_state issue;
  labels := map (fun l => match l with inl s => s | inr name => name end)
                (raw_labels issue);
  assignees := default [] (raw_assignees issue);
  milestone := Js.or_null (raw_milestone issue);
  created_at := raw_created_at issue;
  updated_at := raw_updated_at issue;
  closed_at := Js.or_null (raw_closed_at issue);
  project_fields := None |}.

Definition list_params (repo : Repo) (includeClosed : bool)
    (updatedSince : option string) (page : nat) : ListParams := {|
  lp_owner := repo_owner repo;
  lp_repo := repo_name repo;
  lp_state := if includeClosed then "all" else "open";
  lp_per_page := 100;
  lp_page := page;
  lp_sort := "updated";
  lp_direction := "desc";
  lp_since := if Js.truthy_opt updatedSince then updatedSince else None |}.

(** The [while (true)] loop of [fetchIssues]; [fuel] bounds the number
    of pages requested. *)
Fixpoint fetchIssues_from (fuel : nat) (repo : Repo) (includeClosed : bool)
    (updatedSince : option string) (page : nat) (allIssues : list Issue)
    : M (list Issue) :=
  match fuel with
  | O => diverge
  | S fuel' =>
      let params := list_params repo includeClosed updatedSince page in
      emit (CallListForRepo params);;
      data ← await (fun t => rest_listForRepo env t params);
      if Nat.eqb (length data) 0 then mret allIssues
      else
        let allIssues' :=
          allIssues ++
          map issue_of_raw (filter (fun i => raw_pull_request i = false) data) in
        if Nat.ltb (length data) 100 then mret allIssues'
        else fetchIssues_from fuel' repo includeClosed updatedSince (S page) allIssues'
  end.

Definition fetchIssues (fuel : nat) (repo : Repo) (includeClosed : bool)
    (updatedSince : option string) : M (list Issue) :=
  fetchIssues_from fuel repo includeClosed updatedSince 1 [].

Definition updateIssue (repo : Repo) (n : N) (updates : Updates) : M unit :=
  ms ← match u_milestone updates with
       | None => mret None
       | Some None => mret (Some None)
       | Some (Some t) =>
           emit (CallListMilestones repo);;
           milestones ← await (rest_listMilestones env);
           match List.find (fun m : string * N => bool_decide (m.1 = t)) milestones with
           | Some m => mret (Some (Some m.2))
           | None => mret None
           end
       end;
  let params := {|
    up_repo := repo;
    up_issue_number := n;
    up_title := u_title updates;
    up_body := u_body updates;
    up_state := u_state updates;
    up_labels := u_labels updates;
    up_assignees := u_assignees updates;
    up_milestone := ms |} in
  try_catch
    (emit (CallIssuesUpdate params);;
     await (fun t => rest_update env t params))
    (fun e => throw (FailedToUpdateIssue n e)).

(** ** project.ts *)

Definition getOrCreateProjectConfig (o : string) (repo : Repo)
    : M (option ProjectConfig) :=
  w ← get_world;
  match config_file w ≫= project with
  | Some p => mret (Some p)
  | None =>
      emit (QueryDetectProject o repo);;
      detected ← interact (fun t => gql_detectProject env t o repo);
      match detected with
      | Some d =>
          try_catch
            (emit (QueryProjectTitle (project_number d) (owner d));;
             projectTitle ← await (fun t =>
               gql_projectTitle env t (project_number d) (owner d));
             log (LAutoDetected (project_number d) (Js.or_null projectTitle)))
            (fun _ => log (LAutoDetected (project_number d) None));;
          try_catch
            (saveConfig {| project := Some d |};; log LSavedConfig)
            (fun e => log (WFailedToSaveConfig e));;
          mret (Some d)
      | None => mret None
      end
  end.

Definition getProjectId (projectNumber : N) (o : string) : M string :=
  emit (QueryProjectId projectNumber o);;
  projectId ← await (fun t => gql_projectId env t projectNumber o);
  match Js.or_null projectId with
  | Some i => mret i
  | None => throw (ProjectNotFound projectNumber o)
  end.

(** Returns the fields and whether they are the cached array itself
    (what [projectFields !== projectConfig.cached_fields] tests). *)
Definition getProjectFields (projectNumber : N) (o : string)
    (cachedFields : option (list ProjectField)) (cacheAge : option string)
    : M (list ProjectField * bool) :=
  let fetch : M (list ProjectField * bool) :=
    try_catch
      (emit (QueryProjectFields projectNumber o);;
       fields ← await (fun t => gql_projectFields env t projectNumber o);
       mret (fields, false))
      (fun e => throw (FailedToFetchProjectFields e)) in
  match cachedFields, cacheAge with
  | Some cached, Some age =>
      if Js.truthy age then
        fresh ← interact (fun t => cache_is_fresh env t age);
        if fresh : bool then log LUsingCachedFields;; mret (cached, true)
        else fetch
      else fetch
  | _, _ => fetch
  end.

(** [name || text || date || number || title || null]. *)
Definition field_value (fv : RawFieldValue) : ProjectFieldValue :=
  match Js.or_null (fv_name fv) with
  | Some s => PFString s
  | None =>
  match Js.or_null (fv_text fv) with
  | Some s => PFString s
  | None =>
  match Js.or_null (fv_date fv) with
  | Some s => PFString s
  | None =>
  match fv_number fv with
  | Some (Zpos p) => PFNumber (Zpos p)
  | Some (Zneg p) => PFNumber (Zneg p)
  | _ =>
  match Js.or_null (fv_title fv) with
  | Some s => PFString s
  | None => PFNull
  end end end end end.

Definition convert_item (issueNum : N) (projectItem : RawProjectItem) : ProjectItem := {|
  item_id := rpi_id projectItem;
  item_number := issueNum;
  item_fields :=
    foldl (fun converted fv =>
             match Js.or_null (fv_field_name fv) with
             | Some fieldName => Js.set fieldName (field_value fv) converted
             | None => converted
             end)
          [] (default [] (rpi_fieldValues projectItem)) |}.

(** The [batch.forEach] that stores the items of one answer. *)
Definition store_batch (projectNumber : N) (batch : list N)
    (result : list (option RawIssueData)) (itemsMap : gmap N ProjectItem)
    : gmap N ProjectItem :=
  foldl (fun m '(idx, issueNum) =>
           match mjoin (result !! idx) with
           | None => m
           | Some issueData =>
               match List.find
                       (fun item => bool_decide (rpi_project_number item = Some projectNumber))
                       (default [] (rid_projectItems issueData)) with
               | Some projectItem => <[issueNum := convert_item issueNum projectItem]> m
               | None => m
               end
           end)
        itemsMap (imap (fun idx issueNum => (idx, issueNum)) batch).

Definition batchSize : nat := 50.

(** [issueNumbers.slice(i, i + batchSize)]. *)
Definition slice {A} (l : list A) (i j : nat) : list A := take (j - i) (drop i l).

(** The body of the batch loop: one GraphQL request for the issues of
    [batch]; a request that fails is logged and leaves the map as it is. *)
Definition fetch_batch (projectNumber : N) (repo : Repo) (batch : list N)
    (itemsMap : gmap N ProjectItem) : M (gmap N ProjectItem) :=
  try_catch
    (emit (QueryProjectItems repo batch);;
     result ← await (fun t => gql_projectItems env t repo batch);
     mret (store_batch projectNumber batch result itemsMap))
    (fun e => log (WFailedBatch e);; mret itemsMap).

(** The [for (let i = 0; i < issueNumbers.length; i += batchSize)] loop,
    entered at index [i]. *)
Equations? getProjectItemsForIssues_from (projectNumber : N) (repo : Repo)
    (issueNumbers : list N) (i : nat) (itemsMap : gmap N ProjectItem)
    : M (gmap N ProjectItem) by wf (length issueNumbers - i)%nat lt :=
  getProjectItemsForIssues_from projectNumber repo issueNumbers i itemsMap with
      decide (i < length issueNumbers)%nat := {
    | left _ =>
        let batch := slice issueNumbers i (i + batchSize) in
        itemsMap' ← fetch_batch projectNumber repo batch itemsMap;
        getProjectItemsForIssues_from projectNumber repo issueNumbers
          (i + batchSize) itemsMap'
    | right _ => mret itemsMap }.
Proof. unfold batchSize. lia. Qed.

Definition getProjectItemsForIssues (projectNumber : N) (o : string)
    (repo : Repo) (issueNumbers : list N) : M (gmap N ProjectItem) :=
  getProjectItemsForIssues_from projectNumber repo issueNumbers 0 ∅.

Definition getProjectItemForIssue (projectNumber : N) (o : string)
    (repo : Repo) (issueNumber : N) : M (option ProjectItem) :=
  itemsMap ← getProjectItemsForIssues projectNumber o repo [issueNumber];
  mret (itemsMap !! issueNumber).

Definition updateProjectField (projectId itemId fieldId : string)
    (field : ProjectField) (value : ProjectFieldValue) : M unit :=
  let mutate (c : FieldChange) : M unit :=
    let m := {| m_projectId := projectId; m_itemId := itemId;
                m_fieldId := fieldId; m_change := c |} in
    emit (MutateProjectField m);;
    await (fun t => gql_mutate env t m) in
  let by_name :=
    List.find (fun opt => bool_decide (PFString (option_name opt) = value))
              (default [] (options field)) in
  match value with
  | PFNull => mutate ClearValue
  | _ =>
      try_catch
        match dataType field with
        | TEXT => mutate (SetText value)
        | NUMBER => mutate (SetNumber value)
        | DATE => mutate (SetDate value)
        | SINGLE_SELECT =>
            match by_name with
            | Some opt => mutate (SetSingleSelectOption (option_id opt))
            | None => throw (UnknownOption value (field_name field))
            end
        | ITERATION =>
            match by_name with
            | Some iteration => mutate (SetIteration (option_id iteration))
            | None => throw (UnknownIteration value (field_name field))
            end
        | OTHER s => throw (UnsupportedFieldType (OTHER s))
        end
        (fun e => throw (FailedToUpdateProjectField e))
  end.

Definition skipKeys : list string :=
  ["id"; "content"; "title"; "assignees"; "labels"; "repository";
   "number"; "url"; "type"; "body";
   "Title"; "Assignees"; "Labels"; "Milestone"].

Definition extractProjectFieldValues (item : ProjectItem)
    (fields : list ProjectField) : list (string * ProjectFieldValue) :=
  let fieldMap := js_Map (map (fun f => (field_name f, f)) fields) in
  foldl (fun values '(key, value) =>
           if bool_decide (key ∈ skipKeys) then values
           else
             match fieldMap !! key with
             | None => Js.set key value values
             | Some field =>
                 match value with
                 | PFNull => Js.set key PFNull values
                 | PFString _ | PFNumber _ => Js.set key value values
                 end
             end)
        [] (item_fields item).

(** ** sync.ts *)

(** [syncProjects && projectConfig?.enabled && projectConfig.project_number
    && projectConfig.owner], with the number and the owner it tests. *)
Definition configured (syncProjects : bool) (projectConfig : option ProjectConfig)
    : option (ProjectConfig * N * string) :=
  if syncProjects then
    c ← projectConfig;
    if enabled c then
      pn ← project_number c;
      if pn =? 0 then None else o ← Js.or_null (owner c); Some (c, pn, o)
    else None
  else None.

Definition set_cached_fields (fields : list ProjectField) (t : string)
    (c : ProjectConfig) : ProjectConfig := {|
  project_number := project_number c;
  owner := owner c;
  enabled := enabled c;
  cached_fields := Some fields;
  fields_cached_at := Some t |}.

Definition set_project_item_id (i : string) (r : SyncRecord) : SyncRecord := {|
  github_updated_at := github_updated_at r;
  local_updated_at := local_updated_at r;
  last_synced_at := last_synced_at r;
  project_item_id := Some i;
  project_fields_updated_at := project_fields_updated_at r |}.

Definition set_project_fields_updated_at (t : string) (r : SyncRecord) : SyncRecord := {|
  github_updated_at := github_updated_at r;
  local_updated_at := local_updated_at r;
  last_synced_at := last_synced_at r;
  project_item_id := project_item_id r;
  project_fields_updated_at := Some t |}.

Definition set_project_fields (fields : list (string * ProjectFieldValue))
    (issue : Issue) : Issue := {|
  number := number issue; title := title issue; body := body issue;
  state := state issue; labels := labels issue; assignees := assignees issue;
  milestone := milestone issue; created_at := created_at issue;
  updated_at := updated_at issue; closed_at := closed_at issue;
  project_fields := Some fields |}.

(** The incremental cutoff of [syncDown]. *)
Definition lastSync_of (fullSync : bool) (s : SyncState) : option string :=
  if negb fullSync then
    let syncTimes :=
      filter (fun t => Js.truthy t = true)
             (map last_synced_at (map_to_list (issues s)).*2) in
    if Nat.ltb 0 (length syncTimes) then Js.pop (Js.sort syncTimes) else None
  else None.

(** The body of the [for (const issue of remoteIssues)] loop. *)
Definition syncDown_issue
    (projectData : option (list ProjectField * gmap N ProjectItem))
    (s : SyncState) (issue : Issue) : M SyncState :=
  '(issue, s) ←
    match projectData with
    | Some (projectFields, projectItemsMap) =>
        match projectItemsMap !! number issue with
        | Some projectItem =>
            let issue' :=
              set_project_fields (extractProjectFieldValues projectItem projectFields) issue in
            s1 ← match issues s !! number issue with
                 | Some _ => mret s
                 | None =>
                     t ← interact (now env);
                     mret {| issues := <[number issue := {|
                       github_updated_at := updated_at issue;
                       local_updated_at := updated_at issue;
                       last_synced_at := t;
                       project_item_id := None;
                       project_fields_updated_at := None |}]> (issues s) |}
                 end;
            let s2 := {| issues :=
              alter (set_project_item_id (item_id projectItem)) (number issue) (issues s1) |} in
            t ← interact (now env);
            mret (issue', {| issues :=
              alter (set_project_fields_updated_at t) (number issue) (issues s2) |})
        | None => mret (issue, s)
        end
    | None => mret (issue, s)
    end;
  saveIssue issue;;
  t ← interact (now env);
  let old := issues s !! number issue in
  mret {| issues := <[number issue := {|
    github_updated_at := updated_at issue;
    local_updated_at := updated_at issue;
    last_synced_at := t;
    project_item_id := old ≫= project_item_id;
    project_fields_updated_at := old ≫= project_fields_updated_at |}]> (issues s) |}.

(** The project part of [syncDown]: the fields of the project and the
    items of the fetched issues, when the project is configured and
    answers. *)
Definition syncDown_projects (syncProjects : bool) (repo : Repo)
    (remoteIssues : list Issue)
    : M (option (list ProjectField * gmap N ProjectItem)) :=
  projectConfig ←
    (if syncProjects then getOrCreateProjectConfig (repo_owner repo) repo
     else mret None);
  match configured syncProjects projectConfig with
  | Some (c, pn, o) =>
      try_catch
        (log (LFetchingProjectData pn);;
         '(projectFields, cached) ←
           getProjectFields pn o (cached_fields c) (fields_cached_at c);
         (if negb (bool_decide (is_Some (cached_fields c))) || negb cached then
            t ← interact (now env);
            saveConfig {| project := Some (set_cached_fields projectFields t c) |}
          else mret tt);;
         let issueNumbers := map number remoteIssues in
         projectItemsMap ← getProjectItemsForIssues pn o repo issueNumbers;
         log (LFetchedProjectData (size projectItemsMap));;
         mret (Some (projectFields, projectItemsMap)))
        (fun e => log (WFailedToFetchProjectData e);; mret None)
  | None => mret None
  end.

(** [syncDown] up to its loop: the sync state, the fetched issues and the
    project data. *)
Definition syncDown_fetch (fuel : nat) (includeClosed fullSync syncProjects : bool)
    : M (SyncState * list Issue * option (list ProjectField * gmap N ProjectItem)) :=
  log LSyncingDown;;
  repo ← getCurrentRepo;
  log (LRepository repo);;
  ensureStorageDir;;
  s ← loadSyncState;
  let lastSync := lastSync_of fullSync s in
  match lastSync with Some t => log (LFetchingSince t) | None => mret tt end;;
  remoteIssues ← fetchIssues fuel repo includeClosed lastSync;
  log (LFetched (length remoteIssues));;
  projectData ← syncDown_projects syncProjects repo remoteIssues;
  mret (s, remoteIssues, projectData).

Definition syncDown (fuel : nat) (includeClosed fullSync syncProjects : bool) : M unit :=
  '(s, remoteIssues, projectData) ←
    syncDown_fetch fuel includeClosed fullSync syncProjects;
  s' ← for_of remoteIssues (syncDown_issue projectData) s;
  saveSyncState s';;
  log LSyncComplete.

(** The update payload of [syncUp]: the fields on which the local issue
    differs from the remote one.  ([JSON.stringify] is injective on
    arrays of strings.) *)
Definition updates_of (l remote : Issue) : Updates := {|
  u_title := if bool_decide (title l ≠ title remote) then Some (title l) else None;
  u_body := if bool_decide (body l ≠ body remote) then Some (body l) else None;
  u_state := if bool_decide (state l ≠ state remote) then Some (state l) else None;
  u_labels := if bool_decide (labels l ≠ labels remote) then Some (labels l) else None;
  u_assignees :=
    if bool_decide (assignees l ≠ assignees remote) then Some (assignees l) else None;
  u_milestone := None |}.

Definition Object_keys (u : Updates) : list string :=
  let key {A} (k : string) (o : option A) : list string :=
    match o with Some _ => [k] | None => [] end in
  key "title" (u_title u) ++ key "body" (u_body u) ++ key "state" (u_state u) ++
  key "labels" (u_labels u) ++ key "assignees" (u_assignees u) ++
  key "milestone" (u_milestone u).

(** [fileModTime ? fileModTime > syncInfo.last_synced_at : false]. *)
Definition localModified_of (fileModTime : option string) (syncInfo : SyncRecord) : bool :=
  match Js.or_null fileModTime with
  | Some t => Js.gt t (last_synced_at syncInfo)
  | None => false
  end.

Definition remoteModified_of (remote : Issue) (syncInfo : SyncRecord) : bool :=
  Js.gt (updated_at remote) (github_updated_at syncInfo).

(** What [syncUp] has resolved of the project before its loop: the
    fields, the project id, and the number and owner of the project. *)
Definition Project : Type := list ProjectField * string * N * string.

(** The body of the loop over [Object.entries(local.project_fields)]. *)
Definition syncUp_field (dryRun : bool) (projectId itemId : string)
    (fieldMap : gmap string ProjectField)
    (remoteFields : list (string * ProjectFieldValue)) (l : Issue)
    (_ : unit) (entry : string * ProjectFieldValue) : M unit :=
  let '(fieldName, localValue) := entry in
  let remoteValue := Js.get fieldName remoteFields in
  match fieldMap !! fieldName with
  | None => mret tt
  | Some field =>
      if bool_decide (Some localValue ≠ remoteValue) then
        if dryRun then
          log (LWouldUpdateField (number l) fieldName remoteValue localValue)
        else
          try_catch
            (updateProjectField projectId itemId (field_id field) field localValue;;
             log (LUpdatedField (number l) fieldName))
            (fun e => log (WFailedToUpdateField (number l) fieldName e))
      else mret tt
  end.

(** The custom-field step at the end of the loop body of [syncUp]. *)
Definition syncUp_fields (dryRun : bool) (repo : Repo) (proj : option Project)
    (syncInfo : SyncRecord) (l : Issue) (s : SyncState) : M SyncState :=
  match proj, Js.or_null (project_item_id syncInfo), project_fields l with
  | Some (projectFields, projectId, pn, o), Some itemId, Some localFields =>
      remoteProjectItem ← getProjectItemForIssue pn o repo (number l);
      match remoteProjectItem with
      | Some item =>
          let remoteFields := extractProjectFieldValues item projectFields in
          let fieldMap := js_Map (map (fun f => (field_name f, f)) projectFields) in
          for_of localFields
            (syncUp_field dryRun projectId itemId fieldMap remoteFields l) tt;;
          if dryRun then mret s
          else
            t ← interact (now env);
            mret {| issues :=
              alter (set_project_fields_updated_at t) (number l) (issues s) |}
      | None => mret s
      end
  | _, _, _ => mret s
  end.

(** The loop body of [syncUp] from the computation of [updates] on: what
    is done for an issue that is modified locally and not held back as a
    conflict.  The loop state is the in-memory sync state and the counter
    [updated]. *)
Definition syncUp_push (dryRun : bool) (repo : Repo) (proj : option Project)
    (remote : Issue) (syncInfo : SyncRecord) (st : SyncState * nat) (l : Issue)
    : M (SyncState * nat) :=
  let updates := updates_of l remote in
  st' ←
    (if Nat.ltb 0 (length (Object_keys updates)) then
       s' ←
         (if dryRun then
            log (LWouldUpdate (number l) (title l) (Object_keys updates));;
            mret st.1
          else
            log (LUpdating (number l) (title l));;
            updateIssue repo (number l) updates;;
            t1 ← interact (now env);
            t2 ← interact (now env);
            mret {| issues := <[number l := {|
              github_updated_at := t1;
              local_updated_at := updated_at l;
              last_synced_at := t2;
              project_item_id := None;
              project_fields_updated_at := None |}]> (issues st.1) |});
       mret (s', S st.2)
     else mret st);
  s'' ← syncUp_fields dryRun repo proj syncInfo l st'.1;
  mret (s'', st'.2).

(** The body of the [for (const local of localIssues)] loop. *)
Definition syncUp_issue (force dryRun : bool) (repo : Repo) (proj : option Project)
    (remoteMap : gmap N Issue) (st : SyncState * nat) (l : Issue)
    : M (SyncState * nat) :=
  match remoteMap !! number l with
  | None => log (LNotFoundOnGithub (number l));; mret st
  | Some remote =>
  match issues st.1 !! number l with
  | None => log (LNoSyncHistory (number l));; mret st
  | Some syncInfo =>
      fileModTime ← getLocalFileModTime (number l);
      let localModified := localModified_of fileModTime syncInfo in
      let remoteModified := remoteModified_of remote syncInfo in
      if remoteModified && localModified && negb force then
        log (LConflictDetected (number l));; mret st
      else if negb localModified then mret st
      else syncUp_push dryRun repo proj remote syncInfo st l
  end end.

(** [syncUp] up to its loop: the repository, the local issues, the map
    of the remote issues, the sync state and the resolved project. *)
Definition syncUp_load (fuel : nat) (dryRun syncProjects : bool)
    : M (Repo * list Issue * gmap N Issue * SyncState * option Project) :=
  log (if dryRun then LCheckingForLocalChanges else LSyncingUp);;
  repo ← getCurrentRepo;
  log (LRepository repo);;
  localIssues ← loadAllLocalIssues;
  remoteIssues ← fetchIssues fuel repo true None;
  s ← loadSyncState;
  projectConfig ←
    (if syncProjects then getOrCreateProjectConfig (repo_owner repo) repo
     else mret None);
  proj ←
    match configured syncProjects projectConfig with
    | Some (c, pn, o) =>
        try_catch
          ('(projectFields, _) ←
             getProjectFields pn o (cached_fields c) (fields_cached_at c);
           projectId ← getProjectId pn o;
           mret (Some (projectFields, projectId, pn, o)))
          (fun e => log (WFailedToLoadProjectData e);; mret None)
    | None => mret None
    end;
  let remoteMap := js_Map (map (fun i => (number i, i)) remoteIssues) in
  mret (repo, localIssues, remoteMap, s, proj).

(** [syncUp] after its loop. *)
Definition syncUp_finish (dryRun : bool) (st : SyncState * nat) : M unit :=
  (if dryRun then mret tt else saveSyncState st.1);;
  log (if dryRun then LFoundWithLocalChanges st.2 else LSyncCompleteUpdated st.2).

Definition syncUp (fuel : nat) (force dryRun syncProjects : bool) : M unit :=
  '(repo, localIssues, remoteMap, s, proj) ← syncUp_load fuel dryRun syncProjects;
  st ← for_of localIssues (syncUp_issue force dryRun repo proj remoteMap) (s, 0%nat);
  syncUp_finish dryRun st.

Definition detectConflicts (fuel : nat) : M (list ConflictInfo) :=
  repo ← getCurrentRepo;
  localIssues ← loadAllLocalIssues;
  remoteIssues ← fetchIssues fuel repo true None;
  s ← loadSyncState;
  let remoteMap := js_Map (map (fun i => (number i, i)) remoteIssues) in
  mret (foldl
    (fun conflicts l =>
       match remoteMap !! number l, issues s !! number l with
       | Some remote, Some syncInfo =>
           let localModified := Js.gt (updated_at l) (last_synced_at syncInfo) in
           let remoteModified := Js.gt (updated_at remote) (github_updated_at syncInfo) in
           if localModified && remoteModified then
             conflicts ++ [{|
               conflict_number := number l;
               conflict_title := title l;
               github_updated := updated_at remote;
               local_updated := updated_at l;
               last_synced := last_synced_at syncInfo |}]
           else conflicts
       | _, _ => conflicts
       end)
    [] localIssues).

(** * Properties *)

#[local] Arguments saveIssue : simpl never.
#[local] Arguments loadIssue : simpl never.
#[local] Arguments loadAllLocalIssues : simpl never.
#[local] Arguments saveSyncState : simpl never.
#[local] Arguments fetchIssues : simpl never.
#[local] Arguments updateIssue : simpl never.
#[local] Arguments getOrCreateProjectConfig : simpl never.
#[local] Arguments getProjectFields : simpl never.
#[local] Arguments getProjectId : simpl never.
#[local] Arguments getProjectItemsForIssues : simpl never.
#[local] Arguments getProjectItemForIssue : simpl never.
#[local] Arguments updateProjectField : simpl never.
#[local] Arguments syncUp_field : simpl never.
#[local] Arguments syncUp_fields : simpl never.
#[local] Arguments syncUp_push : simpl never.
#[local] Arguments syncUp_issue : simpl never.
#[local] Arguments syncUp_load : simpl never.
#[local] Arguments syncDown_issue : simpl never.
#[local] Arguments syncDown_fetch : simpl never.

(** ** Strings as timestamps *)

Lemma gt_not_le a b : Js.gt a b = true <-> ¬ String.le a b.
Proof.
  unfold Js.gt, String.le, String.leb.
  destruct (String.compare a b); simpl; naive_solver.
Qed.

Lemma gt_false_le a b : Js.gt a b = false <-> String.le a b.
Proof.
  unfold Js.gt, String.le, String.leb.
  destruct (String.compare a b); simpl; naive_solver.
Qed.

Lemma gt_irrefl a : Js.gt a a = false.
Proof. by apply gt_false_le. Qed.

(** Nothing is below the empty string. *)
Lemma gt_empty b : Js.gt "" b = false.
Proof. by destruct b. Qed.

(** ** Footprints

    [footprint Q w w' evs] bounds what a run from [w] to [w'] with the
    events [evs] has done: time has not gone back, every event is of a
    kind [Q] allows, and a file no allowed event writes is unchanged. *)

Definition footprint (Q : Event -> bool) (w w' : World) (evs : list Event) : Prop :=
  (tick w <= tick w')%nat
  /\ Forall (fun e => Q e = true) evs
  /\ ((forall n t, Q (WriteIssueFile n t) = false) -> issue_files w' = issue_files w)
  /\ ((forall s, Q (WriteStateFile s) = false) -> state_file w' = state_file w)
  /\ ((forall c, Q (WriteConfigFile c) = false) -> config_file w' = config_file w).

Definition within {A} (Q : Event -> bool) (m : M A) : Prop :=
  forall w, footprint Q w (world (m w)) (events (m w)).

Lemma footprint_refl Q w : footprint Q w w [].
Proof. by repeat split. Qed.

Lemma footprint_trans Q w1 w2 w3 e1 e2 :
  footprint Q w1 w2 e1 -> footprint Q w2 w3 e2 -> footprint Q w1 w3 (e1 ++ e2).
Proof.
  intros (Ht1 & He1 & Hi1 & Hs1 & Hc1) (Ht2 & He2 & Hi2 & Hs2 & Hc2).
  repeat split.
  - lia.
  - by apply Forall_app.
  - intros HQ. by rewrite Hi2, Hi1.
  - intros HQ. by rewrite Hs2, Hs1.
  - intros HQ. by rewrite Hc2, Hc1.
Qed.

Lemma footprint_weaken (Q Q' : Event -> bool) w w' evs :
  (forall e, Q e = true -> Q' e = true) ->
  footprint Q w w' evs -> footprint Q' w w' evs.
Proof.
  intros HQ (Ht & He & Hi & Hs & Hc). repeat split; [done|..].
  - eapply Forall_impl; [exact He|]. auto.
  - intros HQ'. apply Hi. intros n t.
    destruct (Q (WriteIssueFile n t)) eqn:E; [|done].
    apply HQ in E. by rewrite HQ' in E.
  - intros HQ'. apply Hs. intros st.
    destruct (Q (WriteStateFile st)) eqn:E; [|done].
    apply HQ in E. by rewrite HQ' in E.
  - intros HQ'. apply Hc. intros c.
    destruct (Q (WriteConfigFile c)) eqn:E; [|done].
    apply HQ in E. by rewrite HQ' in E.
Qed.

Section Within.

Context (Q : Event -> bool).

Lemma within_weaken {A} (Q0 : Event -> bool) (m : M A) :
  within Q0 m -> (forall e, Q0 e = true -> Q e = true) -> within Q m.
Proof. intros Hm HQ w. eapply footprint_weaken; [exact HQ|apply Hm]. Qed.

Lemma within_ret {A} (a : A) : within Q (mret a).
Proof. intros w. apply footprint_refl. Qed.

Lemma within_throw {A} e : within Q (@throw A e).
Proof. intros w. apply footprint_refl. Qed.

Lemma within_diverge {A} : within Q (@diverge A).
Proof. intros w. apply footprint_refl. Qed.

Lemma within_get_world : within Q get_world.
Proof. intros w. apply footprint_refl. Qed.

Lemma within_bind {A B} (m : M A) (k : A -> M B) :
  within Q m -> (forall a, within Q (k a)) -> within Q (m ≫= k).
Proof.
  intros Hm Hk w. specialize (Hm w).
  unfold mbind, M_bind. cbv zeta.
  destruct (outcome (m w)) as [a| |]; [|done..].
  simpl. eapply footprint_trans; [exact Hm|apply Hk].
Qed.

Lemma within_try_catch {A} (m : M A) (h : Error -> M A) :
  within Q m -> (forall e, within Q (h e)) -> within Q (try_catch m h).
Proof.
  intros Hm Hh w. specialize (Hm w).
  unfold try_catch. cbv zeta.
  destruct (outcome (m w)) as [|e|]; [done| |done].
  simpl. eapply footprint_trans; [exact Hm|apply Hh].
Qed.

Lemma within_emit e : Q e = true -> within Q (emit e).
Proof. intros HQ w. repeat split; simpl; auto. Qed.

Lemma within_log l : Q (Console l) = true -> within Q (log l).
Proof. apply within_emit. Qed.

Lemma within_interact {A} (f : nat -> A) : within Q (interact f).
Proof. intros w. repeat split; simpl; auto. Qed.

Lemma within_await {A} (f : nat -> Answer A) : within Q (await f).
Proof.
  apply within_bind; [apply within_interact|].
  intros [a|msg]; [apply within_ret|apply within_throw].
Qed.

Lemma within_for_of {A S} (l : list A) (f : S -> A -> M S) s :
  (forall s x, within Q (f s x)) -> within Q (for_of l f s).
Proof.
  intros Hf. revert s.
  induction l as [|x l IH]; intros s; simpl; [apply within_ret|].
  apply within_bind; [apply Hf|apply IH].
Qed.

Lemma within_fs_call e : Q e = true -> within Q (fs_call e).
Proof.
  intros HQ. unfold fs_call.
  apply within_bind; [by apply within_emit|intros _].
  apply within_bind; [apply within_interact|intros [t [|]]];
    [apply within_ret|apply within_throw].
Qed.

End Within.

(** The kinds of event each function may cause. *)

Definition all_ev (e : Event) : bool := true.

Definition no_ev (e : Event) : bool := false.

Definition saveIssue_ev (e : Event) : bool :=
  match e with WriteIssueFile _ _ => true | _ => false end.

Definition saveSyncState_ev (e : Event) : bool :=
  match e with WriteStateFile _ => true | _ => false end.

Definition saveConfig_ev (e : Event) : bool :=
  match e with WriteConfigFile _ => true | _ => false end.

Definition fetchIssues_ev (e : Event) : bool :=
  match e with CallListForRepo _ => true | _ => false end.

Definition updateIssue_ev (e : Event) : bool :=
  match e with CallListMilestones _ | CallIssuesUpdate _ => true | _ => false end.

Definition getOrCreateProjectConfig_ev (e : Event) : bool :=
  match e with
  | QueryDetectProject _ _ | QueryProjectTitle _ _ | WriteConfigFile _
  | Console (LAutoDetected _ _) | Console LSavedConfig
  | Console (WFailedToSaveConfig _) => true
  | _ => false
  end.

Definition getProjectId_ev (e : Event) : bool :=
  match e with QueryProjectId _ _ => true | _ => false end.

Definition getProjectFields_ev (e : Event) : bool :=
  match e with QueryProjectFields _ _ | Console LUsingCachedFields => true | _ => false end.

Definition getProjectItemsForIssues_ev (e : Event) : bool :=
  match e with QueryProjectItems _ _ | Console (WFailedBatch _) => true | _ => false end.

Definition updateProjectField_ev (e : Event) : bool :=
  match e with MutateProjectField _ => true | _ => false end.

Definition syncUp_fields_ev (dryRun : bool) (e : Event) : bool :=
  match e with
  | Console (LWouldUpdateField _ _ _ _) => dryRun
  | Console (LUpdatedField _ _) | Console (WFailedToUpdateField _ _ _)
  | MutateProjectField _ => negb dryRun
  | _ => getProjectItemsForIssues_ev e
  end.

Definition syncUp_push_ev (dryRun : bool) (e : Event) : bool :=
  match e with
  | Console (LWouldUpdate _ _ _) => dryRun
  | Console (LUpdating _ _) | CallListMilestones _ | CallIssuesUpdate _ => negb dryRun
  | _ => syncUp_fields_ev dryRun e
  end.

Definition syncUp_issue_ev (dryRun : bool) (e : Event) : bool :=
  match e with
  | Console (LNotFoundOnGithub _) | Console (LNoSyncHistory _)
  | Console (LConflictDetected _) => true
  | _ => syncUp_push_ev dryRun e
  end.

Definition syncUp_load_ev (e : Event) : bool :=
  match e with
  | Console LCheckingForLocalChanges | Console LSyncingUp | Console (LRepository _)
  | Console (WFailedToLoadProjectData _) | CallListForRepo _ => true
  | _ => getOrCreateProjectConfig_ev e || getProjectFields_ev e || getProjectId_ev e
  end.

Definition syncUp_ev (dryRun : bool) (e : Event) : bool :=
  match e with
  | WriteStateFile _ | Console (LSyncCompleteUpdated _) => negb dryRun
  | Console (LFoundWithLocalChanges _) => dryRun
  | _ => syncUp_load_ev e || syncUp_issue_ev dryRun e
  end.

(** Inclusion of one kind of events in another, by cases. *)
Ltac incl :=
  let e := fresh "e" in
  intros e; destruct e as [[]| | | | | | | | | | | | |]; simpl;
  try done; repeat match goal with b : bool |- _ => destruct b end; simpl;
  try done; auto.

(** One step through the program text of a footprint goal; [allow_event]
    shows that an event the program emits is allowed. *)
Ltac within_step_by allow_event :=
  lazymatch goal with
  | |- within _ (mret _) => apply within_ret
  | |- within _ (throw _) => apply within_throw
  | |- within _ diverge => apply within_diverge
  | |- within _ get_world => apply within_get_world
  | |- within _ (interact _) => apply within_interact
  | |- within _ (await _) => apply within_await
  | |- within _ (log _) => apply within_log; allow_event
  | |- within _ (emit _) => apply within_emit; allow_event
  | |- within _ (fs_call _) => apply within_fs_call; allow_event
  | |- within _ (try_catch _ _) => apply within_try_catch; [|intros ?]
  | |- within _ (mbind _ _) => apply within_bind; [|intros ?]
  | |- within _ (for_of _ _ _) => apply within_for_of; intros ? ?
  | |- within _ (match ?x with _ => _ end) => destruct x
  | |- within _ (if ?x then _ else _) => destruct x
  end.

(** [HQ] tells that the events of the function at hand are allowed. *)
Ltac within_step HQ := within_step_by ltac:(apply HQ; reflexivity).

Ltac within_go HQ := repeat within_step HQ.

Section Footprints.

Context (Q : Event -> bool).

Lemma saveIssue_within issue :
  (forall e, saveIssue_ev e = true -> Q e = true) -> within Q (saveIssue issue).
Proof.
  intros HQ w. unfold saveIssue. cbv zeta.
  set (content := matter_stringify _ _).
  assert (HW : Q (WriteIssueFile (number issue) content) = true) by by apply HQ.
  unfold fs_call, mbind, M_bind, emit, interact. simpl.
  destruct (fs_ok env (tick w)); simpl; repeat split; simpl; auto;
    intros HF; by rewrite HF in HW.
Qed.

Lemma saveSyncState_within st :
  (forall e, saveSyncState_ev e = true -> Q e = true) -> within Q (saveSyncState st).
Proof.
  intros HQ w. unfold saveSyncState.
  assert (HW : Q (WriteStateFile st) = true) by by apply HQ.
  unfold fs_call, mbind, M_bind, emit, interact. simpl.
  destruct (fs_ok env (tick w)); simpl; repeat split; simpl; auto;
    intros HF; by rewrite HF in HW.
Qed.

Lemma saveConfig_within c :
  (forall e, saveConfig_ev e = true -> Q e = true) -> within Q (saveConfig c).
Proof.
  intros HQ w. unfold saveConfig.
  assert (HW : Q (WriteConfigFile c) = true) by by apply HQ.
  unfold fs_call, mbind, M_bind, emit, interact. simpl.
  destruct (fs_ok env (tick w)); simpl; repeat split; simpl; auto;
    intros HF; by rewrite HF in HW.
Qed.

Lemma loadIssue_within n : within Q (loadIssue n).
Proof. unfold loadIssue. within_go I. Qed.

Lemma loadAllLocalIssues_within : within Q loadAllLocalIssues.
Proof.
  unfold loadAllLocalIssues. within_go I.
  apply loadIssue_within.
Qed.

Lemma loadSyncState_within : within Q loadSyncState.
Proof. unfold loadSyncState. within_go I. Qed.

Lemma getLocalFileModTime_within n : within Q (getLocalFileModTime n).
Proof. unfold getLocalFileModTime. within_go I. Qed.

Lemma fetchIssues_within fuel repo includeClosed updatedSince :
  (forall e, fetchIssues_ev e = true -> Q e = true) ->
  within Q (fetchIssues fuel repo includeClosed updatedSince).
Proof.
  intros HQ. unfold fetchIssues. generalize 1%nat (@nil Issue).
  induction fuel as [|fuel IH]; intros page allIssues; simpl;
    [apply within_diverge|].
  within_go HQ. apply IH.
Qed.

Lemma updateIssue_within repo n updates :
  (forall e, updateIssue_ev e = true -> Q e = true) ->
  within Q (updateIssue repo n updates).
Proof. intros HQ. unfold updateIssue. within_go HQ. Qed.

Lemma getOrCreateProjectConfig_within o repo :
  (forall e, getOrCreateProjectConfig_ev e = true -> Q e = true) ->
  within Q (getOrCreateProjectConfig o repo).
Proof.
  intros HQ. unfold getOrCreateProjectConfig. within_go HQ.
  apply saveConfig_within. intros e He. apply HQ. revert e He. incl.
Qed.

Lemma getProjectId_within pn o :
  (forall e, getProjectId_ev e = true -> Q e = true) -> within Q (getProjectId pn o).
Proof. intros HQ. unfold getProjectId. within_go HQ. Qed.

Lemma getProjectFields_within pn o cachedFields cacheAge :
  (forall e, getProjectFields_ev e = true -> Q e = true) ->
  within Q (getProjectFields pn o cachedFields cacheAge).
Proof. intros HQ. unfold getProjectFields. cbv zeta. within_go HQ. Qed.

Lemma getProjectItemsForIssues_from_within pn repo issueNumbers i itemsMap :
  (forall e, getProjectItemsForIssues_ev e = true -> Q e = true) ->
  within Q (getProjectItemsForIssues_from pn repo issueNumbers i itemsMap).
Proof.
  intros HQ.
  funelim (getProjectItemsForIssues_from pn repo issueNumbers i itemsMap).
  - apply within_bind; [unfold fetch_batch; within_go HQ|].
    intros itemsMap'. apply H0; [|done].
    exact {| tick := 0; issue_files := ∅; state_file := None; config_file := None |}.
  - apply within_ret.
Qed.

Lemma getProjectItemForIssue_within pn o repo n :
  (forall e, getProjectItemsForIssues_ev e = true -> Q e = true) ->
  within Q (getProjectItemForIssue pn o repo n).
Proof.
  intros HQ. unfold getProjectItemForIssue, getProjectItemsForIssues.
  apply within_bind; [by apply getProjectItemsForIssues_from_within|].
  intros ?. apply within_ret.
Qed.

Lemma updateProjectField_within projectId itemId fieldId field value :
  (forall e, updateProjectField_ev e = true -> Q e = true) ->
  within Q (updateProjectField projectId itemId fieldId field value).
Proof. intros HQ. unfold updateProjectField. cbv zeta. within_go HQ. Qed.

End Footprints.

Lemma syncUp_field_within dryRun projectId itemId fieldMap remoteFields l u entry :
  within (syncUp_fields_ev dryRun)
         (syncUp_field dryRun projectId itemId fieldMap remoteFields l u entry).
Proof.
  unfold syncUp_field. destruct entry as [fieldName localValue]. cbv zeta.
  destruct (_ !! fieldName) as [field|]; [|apply within_ret].
  case_bool_decide; [|apply within_ret].
  destruct dryRun; [by apply within_log|].
  apply within_try_catch; [|intros e; by apply within_log].
  apply within_bind; [|intros _; by apply within_log].
  apply updateProjectField_within. incl.
Qed.

Lemma syncUp_fields_within dryRun repo proj syncInfo l s :
  within (syncUp_fields_ev dryRun) (syncUp_fields dryRun repo proj syncInfo l s).
Proof.
  unfold syncUp_fields.
  destruct proj as [[[[projectFields projectId] pn] o]|]; [|apply within_ret].
  destruct (Js.or_null _) as [itemId|]; [|apply within_ret].
  destruct (project_fields l) as [localFields|]; [|apply within_ret].
  apply within_bind; [apply getProjectItemForIssue_within; incl|].
  intros [item|]; [|apply within_ret].
  cbv zeta. apply within_bind.
  - apply within_for_of. intros u entry. apply syncUp_field_within.
  - intros _. destruct dryRun; [apply within_ret|].
    apply within_bind; [apply within_interact|intros t; apply within_ret].
Qed.

Lemma syncUp_push_within dryRun repo proj remote syncInfo st l :
  within (syncUp_push_ev dryRun) (syncUp_push dryRun repo proj remote syncInfo st l).
Proof.
  unfold syncUp_push. cbv zeta.
  apply within_bind.
  - destruct (Nat.ltb _ _); [|apply within_ret].
    apply within_bind; [|intros ?; apply within_ret].
    destruct dryRun.
    + apply within_bind; [by apply within_log|intros _; apply within_ret].
    + apply within_bind; [by apply within_log|intros _].
      apply within_bind; [apply updateIssue_within; incl|intros _].
      within_go I.
  - intros st'. apply within_bind; [|intros ?; apply within_ret].
    eapply within_weaken; [apply syncUp_fields_within|]. incl.
Qed.

Lemma syncUp_issue_within force dryRun repo proj remoteMap st l :
  within (syncUp_issue_ev dryRun) (syncUp_issue force dryRun repo proj remoteMap st l).
Proof.
  unfold syncUp_issue.
  destruct (remoteMap !! number l) as [remote|];
    [|apply within_bind; [by apply within_log|intros _; apply within_ret]].
  destruct (issues st.1 !! number l) as [syncInfo|];
    [|apply within_bind; [by apply within_log|intros _; apply within_ret]].
  apply within_bind; [apply getLocalFileModTime_within|intros fileModTime].
  cbv zeta.
  destruct (_ && _ && _);
    [apply within_bind; [by apply within_log|intros _; apply within_ret]|].
  destruct (negb _); [apply within_ret|].
  eapply within_weaken; [apply syncUp_push_within|]. incl.
Qed.

Lemma syncUp_load_within fuel dryRun syncProjects :
  within syncUp_load_ev (syncUp_load fuel dryRun syncProjects).
Proof.
  unfold syncUp_load.
  apply within_bind; [destruct dryRun; by apply within_log|intros _].
  apply within_bind; [apply within_await|intros repo].
  apply within_bind; [by apply within_log|intros _].
  apply within_bind; [apply loadAllLocalIssues_within|intros localIssues].
  apply within_bind; [apply fetchIssues_within; incl|intros remoteIssues].
  apply within_bind; [apply loadSyncState_within|intros s].
  apply within_bind.
  { destruct syncProjects; [|apply within_ret].
    apply getOrCreateProjectConfig_within. incl. }
  intros projectConfig.
  apply within_bind; [|intros proj; apply within_ret].
  destruct (configured _ _) as [[[c pn] o]|]; [|apply within_ret].
  apply within_try_catch.
  - apply within_bind; [apply getProjectFields_within; incl|intros [projectFields cached]].
    apply within_bind; [apply getProjectId_within; incl|intros ?; apply within_ret].
  - intros e. apply within_bind; [by apply within_log|intros _; apply within_ret].
Qed.

Lemma syncUp_within fuel force dryRun syncProjects :
  within (syncUp_ev dryRun) (syncUp fuel force dryRun syncProjects).
Proof.
  unfold syncUp.
  apply within_bind.
  { eapply within_weaken; [apply syncUp_load_within|]. incl. }
  intros [[[[repo localIssues] remoteMap] s] proj].
  apply within_bind.
  { apply within_for_of. intros st l.
    eapply within_weaken; [apply syncUp_issue_within|]. incl. }
  intros st. unfold syncUp_finish. apply within_bind.
  - destruct dryRun; [apply within_ret|]. apply saveSyncState_within. incl.
  - intros _. destruct dryRun; by apply within_log.
Qed.

(** ** Running a computation *)

Lemma run_eta {A} (r : Run A) : mkRun (outcome r) (world r) (events r) = r.
Proof. by destruct r. Qed.

(** A step that only reads: it cannot fail, changes nothing and causes
    no event. *)
Lemma bind_read {A B} (m : M A) (k : A -> M B) a w :
  m w = mkRun (Ok a) w [] -> (m ≫= k) w = k a w.
Proof.
  intros Hm. unfold mbind, M_bind. cbv zeta. rewrite Hm. simpl. apply run_eta.
Qed.

Lemma bind_ok {A B} (m : M A) (k : A -> M B) a w :
  outcome (m w) = Ok a ->
  (m ≫= k) w =
    mkRun (outcome (k a (world (m w)))) (world (k a (world (m w))))
          (events (m w) ++ events (k a (world (m w)))).
Proof. intros Hm. unfold mbind, M_bind. cbv zeta. by rewrite Hm. Qed.

(** Whatever follows, the events of the first step are the first events
    of the whole. *)
Lemma events_bind {A B} (m : M A) (k : A -> M B) w :
  exists rest, events ((m ≫= k) w) = events (m w) ++ rest.
Proof.
  unfold mbind, M_bind. cbv zeta.
  destruct (outcome (m w)); simpl; eauto using app_nil_r.
Qed.

Lemma events_bind_l {A B} (m : M A) (k : A -> M B) w e :
  e ∈ events (m w) -> e ∈ events ((m ≫= k) w).
Proof.
  intros He. destruct (events_bind m k w) as [rest ->]. set_solver.
Qed.

Lemma events_bind_r {A B} (m : M A) (k : A -> M B) w a e :
  outcome (m w) = Ok a -> e ∈ events (k a (world (m w))) ->
  e ∈ events ((m ≫= k) w).
Proof. intros Hm He. rewrite (bind_ok _ _ _ _ Hm). set_solver. Qed.

Lemma events_bind_inv {A B} (m : M A) (k : A -> M B) w e :
  e ∈ events ((m ≫= k) w) ->
  e ∈ events (m w)
  \/ exists a, outcome (m w) = Ok a /\ e ∈ events (k a (world (m w))).
Proof.
  unfold mbind, M_bind. cbv zeta.
  destruct (outcome (m w)) as [a| |]; simpl; auto.
  rewrite elem_of_app. intros [?|?]; eauto.
Qed.

Lemma outcome_bind_ok {A B} (m : M A) (k : A -> M B) w b :
  outcome ((m ≫= k) w) = Ok b ->
  exists a, outcome (m w) = Ok a /\ outcome (k a (world (m w))) = Ok b.
Proof.
  unfold mbind, M_bind. cbv zeta.
  destruct (outcome (m w)) as [a| |]; simpl; [eauto|done..].
Qed.

Lemma within_events {A} Q (m : M A) w e :
  within Q m -> e ∈ events (m w) -> Q e = true.
Proof.
  intros Hm He. destruct (Hm w) as (_ & HQ & _).
  rewrite Forall_forall in HQ. by apply HQ.
Qed.

(** ** The push engine, one issue at a time *)

(** The test on the modification time says: the time exists and is later
    than the last synchronisation. *)
Lemma localModified_of_spec fileModTime syncInfo :
  localModified_of fileModTime syncInfo =
  match fileModTime with
  | Some t => Js.gt t (last_synced_at syncInfo)
  | None => false
  end.
Proof.
  unfold localModified_of. destruct fileModTime as [[|c t]|]; simpl; [|done..].
  by rewrite gt_empty.
Qed.

Lemma getLocalFileModTime_run n w :
  getLocalFileModTime n w = mkRun (Ok (mtime <$> issue_files w !! n)) w [].
Proof. done. Qed.

(** What the loop body does, by the class of the issue. *)
Lemma syncUp_issue_run force dryRun repo proj remoteMap st l remote syncInfo w :
  remoteMap !! number l = Some remote ->
  issues st.1 !! number l = Some syncInfo ->
  syncUp_issue force dryRun repo proj remoteMap st l w =
    let localModified :=
      localModified_of (mtime <$> issue_files w !! number l) syncInfo in
    let remoteModified := remoteModified_of remote syncInfo in
    if remoteModified && localModified && negb force then
      mkRun (Ok st) w [Console (LConflictDetected (number l))]
    else if negb localModified then mkRun (Ok st) w []
    else syncUp_push dryRun repo proj remote syncInfo st l w.
Proof.
  intros Hr Hs. unfold syncUp_issue. rewrite Hr, Hs.
  rewrite (bind_read _ _ _ _ (getLocalFileModTime_run _ _)). cbv zeta.
  destruct (_ && _ && _); [done|]. by destruct (negb _).
Qed.


(** The parameters of the update request that carries a payload. *)
Definition params_of (repo : Repo) (n : N) (u : Updates) : UpdateParams := {|
  up_repo := repo;
  up_issue_number := n;
  up_title := u_title u;
  up_body := u_body u;
  up_state := u_state u;
  up_labels := u_labels u;
  up_assignees := u_assignees u;
  up_milestone := None |}.

Lemma updateIssue_calls repo n u w :
  u_milestone u = None ->
  CallIssuesUpdate (params_of repo n u) ∈ events (updateIssue repo n u w).
Proof.
  intros Hm. unfold updateIssue. rewrite Hm.
  unfold try_catch, mbind, M_bind, await, interact, emit, mret, M_ret, throw.
  simpl. fold (params_of repo n u).
  destruct (rest_update env (tick w) (params_of repo n u)); simpl; set_solver.
Qed.

(** With a payload, the push applies it: a dry run reports the changed
    keys, a real run sends the update request. *)
Lemma syncUp_push_payload (dryRun : bool) repo proj remote syncInfo st l w :
  Object_keys (updates_of l remote) <> [] ->
  (if dryRun
   then Console (LWouldUpdate (number l) (title l) (Object_keys (updates_of l remote)))
   else CallIssuesUpdate (params_of repo (number l) (updates_of l remote)) : Event)
  ∈ events (syncUp_push dryRun repo proj remote syncInfo st l w).
Proof.
  intros Hk. unfold syncUp_push. cbv zeta.
  apply events_bind_l.
  destruct (Object_keys (updates_of l remote)) as [|k ks] eqn:E; [done|].
  simpl length. change (Nat.ltb 0 (S (length ks))) with true. cbv iota.
  apply events_bind_l.
  destruct dryRun.
  - apply events_bind_l. set_solver.
  - eapply events_bind_r; [done|]. simpl.
    apply events_bind_l. by apply updateIssue_calls.
Qed.

Lemma within_tick {A} Q (m : M A) w : within Q m -> (tick w <= tick (world (m w)))%nat.
Proof. intros Hm. by destruct (Hm w) as (? & _). Qed.

Lemma events_ok_bind {A B} (m : M A) (k : A -> M B) w a :
  outcome (m w) = Ok a ->
  events ((m ≫= k) w) = events (m w) ++ events (k a (world (m w))).
Proof. intros Hm. by rewrite (bind_ok _ _ _ _ Hm). Qed.

Lemma world_ok_bind {A B} (m : M A) (k : A -> M B) w a :
  outcome (m w) = Ok a ->
  world ((m ≫= k) w) = world (k a (world (m w))).
Proof. intros Hm. by rewrite (bind_ok _ _ _ _ Hm). Qed.

(** The sync state with the field stamp of issue [n] set to [t]:
    [state.issues[n].project_fields_updated_at = t]. *)
Definition stamp (t : string) (n : N) (s : SyncState) : SyncState :=
  {| issues := alter (set_project_fields_updated_at t) n (issues s) |}.

(** The record [syncUp] stores after a successful update. *)
Definition pushed_record (t1 t2 : string) (l : Issue) : SyncRecord := {|
  github_updated_at := t1;
  local_updated_at := updated_at l;
  last_synced_at := t2;
  project_item_id := None;
  project_fields_updated_at := None |}.

(** The custom-field step leaves the sync state alone or, in a real run
    that found the remote item, stamps the record of the issue. *)
Lemma syncUp_fields_state dryRun repo proj syncInfo l s w s' :
  outcome (syncUp_fields dryRun repo proj syncInfo l s w) = Ok s' ->
  s' = s
  \/ dryRun = false
     /\ exists t, (tick w <= t)%nat /\ s' = stamp (now env t) (number l) s.
Proof.
  unfold syncUp_fields.
  destruct proj as [[[[projectFields projectId] pn] o]|]; [|intros [= <-]; by left].
  destruct (Js.or_null _) as [itemId|]; [|intros [= <-]; by left].
  destruct (project_fields l) as [localFields|]; [|intros [= <-]; by left].
  intros Hok. apply outcome_bind_ok in Hok as (item & Hitem & Hok).
  pose proof (within_tick all_ev _ w
    (getProjectItemForIssue_within all_ev pn o repo (number l) (fun _ _ => eq_refl)))
    as Ht1.
  destruct item as [item|]; [|injection Hok as <-; by left].
  cbv zeta in Hok. apply outcome_bind_ok in Hok as ([] & Hfor & Hok).
  match type of Hfor with outcome (?m ?w1) = _ =>
    assert (tick w1 <= tick (world (m w1)))%nat as Ht2
  end.
  { apply (within_tick (syncUp_fields_ev dryRun)), within_for_of.
    intros u entry. apply syncUp_field_within. }
  destruct dryRun; [injection Hok as <-; by left|].
  right. split; [done|]. simpl in Hok. injection Hok as <-.
  eexists. split; [|reflexivity]. lia.
Qed.

(** The state [syncUp_push] returns: the counter goes up exactly when
    there is a payload; a real run with a payload replaces the record of
    the issue; the custom-field step may then stamp it. *)
Lemma syncUp_push_state dryRun repo proj remote syncInfo st l w st' :
  outcome (syncUp_push dryRun repo proj remote syncInfo st l w) = Ok st' ->
  exists s1,
    (if decide (Object_keys (updates_of l remote) = [])
     then s1 = st.1 /\ st'.2 = st.2
     else st'.2 = S st.2
          /\ if dryRun then s1 = st.1
             else exists t1 t2, (tick w <= t1)%nat /\ (tick w <= t2)%nat
               /\ s1 = {| issues :=
                    <[number l := pushed_record (now env t1) (now env t2) l]>
                      (issues st.1) |})
    /\ (st'.1 = s1
        \/ dryRun = false
           /\ exists t, (tick w <= t)%nat /\ st'.1 = stamp (now env t) (number l) s1).
Proof.
  unfold syncUp_push. cbv zeta. intros Hok.
  apply outcome_bind_ok in Hok as (st1 & Hst1 & Hok).
  apply outcome_bind_ok in Hok as (s'' & Hs'' & Hok).
  injection Hok as <-. simpl.
  match type of Hst1 with outcome (?m w) = _ =>
    assert (tick w <= tick (world (m w)))%nat as Ht
  end.
  { apply (within_tick (syncUp_push_ev dryRun)).
    destruct (Nat.ltb _ _); [|apply within_ret].
    apply within_bind; [|intros ?; apply within_ret].
    destruct dryRun.
    - apply within_bind; [by apply within_log|intros _; apply within_ret].
    - apply within_bind; [by apply within_log|intros _].
      apply within_bind; [apply updateIssue_within; incl|intros _].
      within_go I. }
  apply syncUp_fields_state in Hs''.
  exists st1.1. split.
  - clear Hs'' Ht. destruct (Object_keys (updates_of l remote)) as [|k ks] eqn:E.
    + simpl in Hst1. injection Hst1 as <-. by rewrite decide_True.
    + rewrite decide_False by done.
      change (Nat.ltb 0 (length (k :: ks))) with true in Hst1. cbv iota in Hst1.
      apply outcome_bind_ok in Hst1 as (s1 & Hs1 & Hst1). injection Hst1 as <-.
      simpl. split; [done|].
      destruct dryRun.
      * apply outcome_bind_ok in Hs1 as ([] & _ & Hs1). by injection Hs1 as <-.
      * apply outcome_bind_ok in Hs1 as ([] & _ & Hs1). simpl in Hs1.
        apply outcome_bind_ok in Hs1 as ([] & Hup & Hs1).
        pose proof (within_tick all_ev _ w
          (updateIssue_within all_ev repo (number l) (updates_of l remote)
             (fun _ _ => eq_refl))) as Htu.
        remember (updateIssue repo (number l) (updates_of l remote) w) as U.
        simpl in Hs1. injection Hs1 as <-.
        exists (tick (world U)), (S (tick (world U))).
        split; [lia|split; [lia|done]].
  - destruct Hs'' as [->|(-> & t & Htt & ->)]; [by left|right].
    split; [done|]. exists t. split; [lia|done].
Qed.

(** ** Loops *)

Lemma bind_assoc {A B C} (m : M A) (k : A -> M B) (h : B -> M C) w :
  ((m ≫= k) ≫= h) w = (m ≫= fun a => k a ≫= h) w.
Proof.
  unfold mbind, M_bind. cbv zeta.
  destruct (outcome (m w)) as [a| |]; simpl; [|done..].
  destruct (outcome (k a (world (m w)))) as [b| |]; simpl; [|done..].
  by rewrite app_assoc.
Qed.

Lemma bind_ext {A B} (m : M A) (k k' : A -> M B) w :
  (forall a w', k a w' = k' a w') -> (m ≫= k) w = (m ≫= k') w.
Proof.
  intros Hk. unfold mbind, M_bind. cbv zeta.
  destruct (outcome (m w)) as [a| |]; simpl; [|done..]. by rewrite Hk.
Qed.

Lemma ret_bind {A B} (a : A) (k : A -> M B) w : (mret a ≫= k) w = k a w.
Proof. by apply bind_read. Qed.

Lemma for_of_app {A S} (l1 l2 : list A) (f : S -> A -> M S) s w :
  for_of (l1 ++ l2) f s w = (for_of l1 f s ≫= for_of l2 f) w.
Proof.
  revert s w. induction l1 as [|x l1 IH]; intros s w; simpl.
  - by rewrite ret_bind.
  - rewrite bind_assoc. apply bind_ext. intros s' w'. apply IH.
Qed.

(** A loop that ends normally has run the body on every element, each
    time ending normally. *)
Lemma for_of_elem {A S} (ls : list A) (f : S -> A -> M S) s w s' x :
  outcome (for_of ls f s w) = Ok s' -> x ∈ ls ->
  exists l1 l2 s1 s2,
    ls = l1 ++ x :: l2
    /\ outcome (for_of l1 f s w) = Ok s1
    /\ outcome (f s1 x (world (for_of l1 f s w))) = Ok s2
    /\ outcome (for_of l2 f s2 (world (f s1 x (world (for_of l1 f s w))))) = Ok s'
    /\ events (for_of ls f s w) =
         events (for_of l1 f s w)
         ++ events (f s1 x (world (for_of l1 f s w)))
         ++ events (for_of l2 f s2 (world (f s1 x (world (for_of l1 f s w))))).
Proof.
  intros Hok Hx. apply list_elem_of_split in Hx as (l1 & l2 & ->).
  exists l1, l2. rewrite for_of_app in Hok |- *.
  apply outcome_bind_ok in Hok as (s1 & Hs1 & Hok). simpl in Hok.
  apply outcome_bind_ok in Hok as (s2 & Hs2 & Hok).
  exists s1, s2. split_and!; [done..|].
  rewrite (events_ok_bind _ _ _ _ Hs1). simpl.
  by rewrite (events_ok_bind _ _ _ _ Hs2).
Qed.


(** An event of a loop is an event of one run of its body. *)
Lemma for_of_event {A S} (ls : list A) (f : S -> A -> M S) s w e :
  e ∈ events (for_of ls f s w) ->
  exists x s1 w1, x ∈ ls /\ e ∈ events (f s1 x w1).
Proof.
  revert s w. induction ls as [|x ls IH]; intros s w He; simpl in He.
  - by apply elem_of_nil in He.
  - apply events_bind_inv in He as [He|(s1 & _ & He)].
    + exists x, s, w. split; [left|done].
    + apply IH in He as (y & s2 & w2 & Hy & He).
      exists y, s2, w2. split; [by right|done].
Qed.

(** ** C4: a dry run of the push *)



(** What a dry run does do: console reports, read-only requests to the
    remote, and the saving of an auto-detected project configuration. *)
Lemma dry_run_events fuel force syncProjects w e :
  e ∈ events (syncUp fuel force true syncProjects w) ->
  match e with
  | Console _ | CallListForRepo _ | QueryProjectItems _ _ | QueryProjectFields _ _
  | QueryProjectId _ _ | QueryProjectTitle _ _ | QueryDetectProject _ _
  | WriteConfigFile _ => True
  | _ => False
  end.
Proof.
  intros Hin.
  destruct (syncUp_within fuel force true syncProjects w) as (_ & He & _).
  rewrite Forall_forall in He. apply He in Hin.
  destruct e as [[]| | | | | | | | | | | | |]; simpl in *; done.
Qed.

(** ** C1: conflicts reported by the push *)


(** The loop body touches no record but that of its own issue. *)
Lemma syncUp_issue_frame force dryRun repo proj remoteMap st l w st' n :
  outcome (syncUp_issue force dryRun repo proj remoteMap st l w) = Ok st' ->
  n ≠ number l -> issues st'.1 !! n = issues st.1 !! n.
Proof.
  intros Hok Hn.
  destruct (remoteMap !! number l) as [remote|] eqn:Hr;
    [destruct (issues st.1 !! number l) as [syncInfo|] eqn:Hs|].
  - rewrite (syncUp_issue_run _ _ _ _ _ _ _ _ _ _ Hr Hs) in Hok. cbv zeta in Hok.
    destruct (_ && _ && _); [by injection Hok as <-|].
    destruct (negb _); [by injection Hok as <-|].
    apply syncUp_push_state in Hok as (s1 & Hs1 & Hst').
    assert (issues s1 !! n = issues st.1 !! n) as <-.
    { destruct (decide _); [by destruct Hs1 as [-> _]|].
      destruct Hs1 as [_ Hs1]. destruct dryRun; [by subst|].
      destruct Hs1 as (t1 & t2 & _ & _ & ->). simpl. by rewrite lookup_insert_ne. }
    destruct Hst' as [->|(_ & t & _ & ->)]; [done|].
    simpl. by rewrite lookup_alter_ne.
  - unfold syncUp_issue in Hok. rewrite Hr, Hs in Hok. by injection Hok as <-.
  - unfold syncUp_issue in Hok. rewrite Hr in Hok. by injection Hok as <-.
Qed.

Section PushLoop.

Context (force dryRun : bool) (repo : Repo) (proj : option Project)
        (remoteMap : gmap N Issue).

#[local] Notation "'loop' ls" := (for_of ls (syncUp_issue force dryRun repo proj remoteMap)) (at level 10, ls at level 9, only parsing).

Lemma push_loop_within ls st : within (syncUp_issue_ev dryRun) (loop ls st).
Proof. apply within_for_of. intros ? ?. apply syncUp_issue_within. Qed.

Lemma push_loop_files ls st w :
  issue_files (world (loop ls st w)) = issue_files w.
Proof. destruct (push_loop_within ls st w) as (_ & _ & Hi & _). by apply Hi. Qed.

Lemma push_loop_frame ls st w st' n :
  outcome (loop ls st w) = Ok st' ->
  n ∉ number <$> ls -> issues st'.1 !! n = issues st.1 !! n.
Proof.
  revert st w. induction ls as [|x ls IH]; intros st w Hok Hn; simpl in Hok.
  - by injection Hok as <-.
  - apply outcome_bind_ok in Hok as (st1 & Hst1 & Hok).
    rewrite fmap_cons, not_elem_of_cons in Hn. destruct Hn as [Hx Hn].
    rewrite (IH _ _ Hok Hn). by eapply syncUp_issue_frame.
Qed.

(** Where the loop finds an issue: its files are those the push began
    with and, when no other issue bears its number, its record is the one
    the push began with and the one the step leaves is the final one; the
    other events of the loop belong to issues with other numbers. *)
Lemma push_loop_at ls st w st' l :
  outcome (loop ls st w) = Ok st' -> l ∈ ls ->
  NoDup (number <$> ls) ->
  exists st1 w1 st2 before after,
    issues st1.1 !! number l = issues st.1 !! number l
    /\ issue_files w1 = issue_files w
    /\ (tick w <= tick w1)%nat
    /\ outcome (syncUp_issue force dryRun repo proj remoteMap st1 l w1) = Ok st2
    /\ issues st'.1 !! number l = issues st2.1 !! number l
    /\ events (loop ls st w) =
         before ++ events (syncUp_issue force dryRun repo proj remoteMap st1 l w1) ++ after
    /\ (forall e, e ∈ before ++ after ->
          exists x s' w', number x ≠ number l
            /\ e ∈ events (syncUp_issue force dryRun repo proj remoteMap s' x w')).
Proof.
  intros Hok Hl Hnd.
  destruct (for_of_elem _ _ _ _ _ _ Hok Hl)
    as (l1 & l2 & s1 & s2 & -> & Hs1 & Hs2 & Hrest & Hev).
  rewrite fmap_app, fmap_cons in Hnd.
  apply NoDup_app in Hnd as (_ & Hnd1 & [Hnd2 _]%NoDup_cons).
  eexists s1, (world (loop l1 st w)), s2, _, _.
  split_and!; [| | |done| |exact Hev|].
  - eapply push_loop_frame; [done|]. intros Hin. apply (Hnd1 _ Hin). left.
  - apply push_loop_files.
  - eapply within_tick, push_loop_within.
  - by eapply push_loop_frame.
  - intros e [He|He]%elem_of_app;
      apply for_of_event in He as (x & s' & w' & Hx & He);
      exists x, s', w'; (split; [|done]); intros Heq.
    + apply (Hnd1 (number x)); [by apply list_elem_of_fmap_2|]. rewrite Heq. left.
    + apply Hnd2. rewrite <- Heq. by apply list_elem_of_fmap_2.
Qed.

End PushLoop.

(** The push as a whole: loading, then the loop and the end. *)
Lemma syncUp_run fuel force dryRun syncProjects w repo ls remoteMap s proj :
  outcome (syncUp_load fuel dryRun syncProjects w) = Ok (repo, ls, remoteMap, s, proj) ->
  let r := (for_of ls (syncUp_issue force dryRun repo proj remoteMap) (s, 0%nat)
            ≫= syncUp_finish dryRun)
             (world (syncUp_load fuel dryRun syncProjects w)) in
  outcome (syncUp fuel force dryRun syncProjects w) = outcome r
  /\ world (syncUp fuel force dryRun syncProjects w) = world r
  /\ events (syncUp fuel force dryRun syncProjects w) =
       events (syncUp_load fuel dryRun syncProjects w) ++ events r.
Proof. intros Hload. unfold syncUp. by rewrite (bind_ok _ _ _ _ Hload). Qed.

Lemma syncUp_load_files fuel dryRun syncProjects w :
  issue_files (world (syncUp_load fuel dryRun syncProjects w)) = issue_files w.
Proof.
  destruct (syncUp_load_within fuel dryRun syncProjects w) as (_ & _ & Hi & _).
  by apply Hi.
Qed.

Definition syncUp_finish_ev (dryRun : bool) (e : Event) : bool :=
  match e with
  | WriteStateFile _ | Console (LSyncCompleteUpdated _) => negb dryRun
  | Console (LFoundWithLocalChanges _) => dryRun
  | _ => false
  end.

Lemma syncUp_finish_within dryRun st :
  within (syncUp_finish_ev dryRun) (syncUp_finish dryRun st).
Proof.
  unfold syncUp_finish. apply within_bind.
  - destruct dryRun; [apply within_ret|]. apply saveSyncState_within. incl.
  - intros _. destruct dryRun; by apply within_log.
Qed.

(** An event that neither the loading nor the end of the push can cause is
    an event of the loop. *)
Lemma syncUp_loop_events fuel force dryRun syncProjects w repo ls remoteMap s proj e :
  outcome (syncUp_load fuel dryRun syncProjects w) = Ok (repo, ls, remoteMap, s, proj) ->
  syncUp_load_ev e = false -> syncUp_finish_ev dryRun e = false ->
  e ∈ events (syncUp fuel force dryRun syncProjects w)
  <-> e ∈ events (for_of ls (syncUp_issue force dryRun repo proj remoteMap) (s, 0%nat)
                    (world (syncUp_load fuel dryRun syncProjects w))).
Proof.
  intros Hload Hl Hf.
  destruct (syncUp_run _ force _ _ _ _ _ _ _ _ Hload) as (_ & _ & ->).
  rewrite elem_of_app. split.
  - intros [He|He].
    + eapply within_events in He; [|apply syncUp_load_within]. congruence.
    + apply events_bind_inv in He as [He|(st & _ & He)]; [done|].
      eapply within_events in He; [|apply syncUp_finish_within]. congruence.
  - intros He. right. by apply events_bind_l.
Qed.

Lemma syncUp_loop_ok fuel force dryRun syncProjects w repo ls remoteMap s proj :
  outcome (syncUp_load fuel dryRun syncProjects w) = Ok (repo, ls, remoteMap, s, proj) ->
  outcome (syncUp fuel force dryRun syncProjects w) = Ok tt ->
  exists st,
    outcome (for_of ls (syncUp_issue force dryRun repo proj remoteMap) (s, 0%nat)
               (world (syncUp_load fuel dryRun syncProjects w))) = Ok st.
Proof.
  intros Hload. destruct (syncUp_run _ force _ _ _ _ _ _ _ _ Hload) as (-> & _).
  intros (st & Hst & _)%outcome_bind_ok. eauto.
Qed.


(** ** C8: the batched fetch of custom-field values *)

#[local] Arguments fetch_batch : simpl never.

Lemma getProjectItemsForIssues_from_step pn repo nums i m w :
  getProjectItemsForIssues_from pn repo nums i m w =
  if decide (i < length nums)%nat then
    (fetch_batch pn repo (slice nums i (i + batchSize)) m
     ≫= getProjectItemsForIssues_from pn repo nums (i + batchSize)) w
  else (mret m : M _) w.
Proof.
  simp getProjectItemsForIssues_from.
  by destruct (decide (i < length nums)%nat).
Qed.

(** The batches of a list: its successive slices of [batchSize] elements;
    [fuel] bounds their number. *)
Fixpoint chunks {A} (fuel : nat) (l : list A) : list (list A) :=
  match fuel with
  | O => []
  | S fuel' =>
      match l with
      | [] => []
      | _ :: _ => take batchSize l :: chunks fuel' (drop batchSize l)
      end
  end.

(** What the loop does for the batches [bs] from the instant [t] on: one
    request per batch, each at its own instant, and a warning after each
    request that is rejected. *)
Fixpoint batch_events (t : nat) (repo : Repo) (bs : list (list N)) : list Event :=
  match bs with
  | [] => []
  | b :: bs' =>
      QueryProjectItems repo b
      :: match gql_projectItems env t repo b with
         | Resolve _ => []
         | Reject msg => [Console (WFailedBatch (Rejected msg))]
         end
      ++ batch_events (S t) repo bs'
  end.

Lemma fetch_batch_run pn repo batch m w :
  exists m',
    outcome (fetch_batch pn repo batch m w) = Ok m'
    /\ tick (world (fetch_batch pn repo batch m w)) = S (tick w)
    /\ events (fetch_batch pn repo batch m w) =
         QueryProjectItems repo batch
         :: match gql_projectItems env (tick w) repo batch with
            | Resolve _ => []
            | Reject msg => [Console (WFailedBatch (Rejected msg))]
            end.
Proof.
  unfold fetch_batch, try_catch, mbind, M_bind, await, interact, emit, log, emit,
    mret, M_ret, throw.
  simpl. destruct (gql_projectItems env (tick w) repo batch); simpl; eauto.
Qed.

Lemma chunks_bounds {A} fuel (l : list A) :
  Forall (fun b => 0 < length b <= batchSize)%nat (chunks fuel l).
Proof.
  revert l. induction fuel as [|fuel IH]; intros l; simpl; [constructor|].
  destruct l as [|x l]; constructor; [|apply IH].
  rewrite length_take. unfold batchSize. simpl length. lia.
Qed.

Lemma chunks_concat {A} fuel (l : list A) :
  (length l <= fuel)%nat -> concat (chunks fuel l) = l.
Proof.
  revert l. induction fuel as [|fuel IH]; intros l Hl; simpl.
  - destruct l; [done|simpl in Hl; lia].
  - destruct l as [|x l]; [done|].
    cbn [concat]. rewrite IH; [apply take_drop|].
    rewrite length_drop. unfold batchSize. simpl in *. lia.
Qed.

Lemma getProjectItemsForIssues_from_spec pn repo nums fuel i m w :
  (length nums - i <= fuel)%nat ->
  let r := getProjectItemsForIssues_from pn repo nums i m w in
  (exists m', outcome r = Ok m')
  /\ events r = batch_events (tick w) repo (chunks fuel (drop i nums)).
Proof.
  revert i m w. induction fuel as [|fuel IH]; intros i m w Hfuel; cbv zeta;
    rewrite getProjectItemsForIssues_from_step.
  - rewrite decide_False by lia. split; [by eexists|done].
  - destruct (decide (i < length nums)%nat) as [Hi|Hi].
    + destruct (fetch_batch_run pn repo (slice nums i (i + batchSize)) m w)
        as (m' & Hok & Htick & Hev).
      rewrite (bind_ok _ _ _ _ Hok). cbn [outcome events].
      destruct (IH (i + batchSize)%nat m'
                  (world (fetch_batch pn repo (slice nums i (i + batchSize)) m w)))
        as [Hok' Hev'];
        [unfold batchSize; lia|].
      split; [done|].
      rewrite Hev, Hev', Htick.
      destruct (drop i nums) as [|x rest] eqn:Hdrop.
      { apply (f_equal length) in Hdrop. rewrite length_drop in Hdrop.
        simpl in Hdrop. lia. }
      cbn [chunks batch_events]. rewrite <- Hdrop.
      unfold slice. replace (i + batchSize - i)%nat with batchSize by lia.
      rewrite <- app_comm_cons. do 3 f_equal.
      by rewrite drop_drop.
    + rewrite drop_ge by lia. split; [by eexists|done].
Qed.

(** C8. The fetch of the custom-field values asks for the issue numbers in
    batches of at most 50, which together are the list it was given; it
    makes one request per batch whether or not earlier requests failed,
    logs a warning for each request that fails, and always returns
    normally, so that whatever follows it in the pull is run. *)
Theorem batched_fetch pn o repo nums w :
  let r := getProjectItemsForIssues pn o repo nums w in
  let batches := chunks (length nums) nums in
  (exists itemsMap, outcome r = Ok itemsMap)
  /\ events r = batch_events (tick w) repo batches
  /\ Forall (fun batch => 0 < length batch <= 50)%nat batches
  /\ concat batches = nums.
Proof.
  cbv zeta. unfold getProjectItemsForIssues.
  destruct (getProjectItemsForIssues_from_spec pn repo nums (length nums) 0 ∅ w)
    as [Hok Hev]; [lia|].
  split_and!; [done|done|apply chunks_bounds|by apply chunks_concat].
Qed.

(** ** C7: the incremental cutoff of the pull *)

Lemma gt_le_total a b : Js.gt a b = true -> String.le b a.
Proof.
  intros Hgt%gt_not_le. by destruct (total String.le a b).
Qed.

Lemma insert_elem_of x y l : y ∈ Js.insert x l <-> y = x \/ y ∈ l.
Proof.
  induction l as [|z l IH]; simpl.
  - by rewrite list_elem_of_singleton, elem_of_nil; intuition.
  - destruct (Js.gt z x); rewrite !elem_of_cons; [done|].
    rewrite IH. tauto.
Qed.

Lemma sort_elem_of y l : y ∈ Js.sort l <-> y ∈ l.
Proof.
  induction l as [|x l IH]; simpl; [done|].
  by rewrite insert_elem_of, IH, elem_of_cons.
Qed.

Lemma insert_sorted x l :
  StronglySorted String.le l -> StronglySorted String.le (Js.insert x l).
Proof.
  induction 1 as [|z l Hl IH Hz]; simpl; [by repeat constructor|].
  destruct (Js.gt z x) eqn:E.
  - apply gt_le_total in E. constructor; [by constructor|].
    constructor; [done|]. eapply Forall_impl; [exact Hz|].
    intros y Hy. by etrans.
  - apply gt_false_le in E. constructor; [done|].
    apply Forall_forall. intros y [->|Hy]%insert_elem_of; [done|].
    rewrite Forall_forall in Hz. by apply Hz.
Qed.

Lemma sort_sorted l : StronglySorted String.le (Js.sort l).
Proof. induction l; simpl; [constructor|by apply insert_sorted]. Qed.

(** The last element of an ascending list is above all of them. *)
Lemma last_sorted l t :
  StronglySorted String.le l -> last l = Some t ->
  t ∈ l /\ forall x, x ∈ l -> String.le x t.
Proof.
  induction 1 as [|z l Hl IH Hz]; [done|].
  destruct l as [|z' l'].
  - intros [= ->]. split; [left|]. by intros x ->%list_elem_of_singleton.
  - intros Hlast. change (last (z' :: l') = Some t) in Hlast.
    destruct (IH Hlast) as [Hin Hup]. split; [by right|].
    intros x [->|Hx]%elem_of_cons; [|by apply Hup].
    rewrite Forall_forall in Hz. by apply Hz.
Qed.

(** [syncTimes.sort().pop()] is the greatest of the times. *)
Lemma pop_sort_max l t :
  Js.pop (Js.sort l) = Some t -> t ∈ l /\ forall x, x ∈ l -> String.le x t.
Proof.
  intros Hpop. destruct (last_sorted _ _ (sort_sorted l) Hpop) as [Hin Hup].
  split; [by apply sort_elem_of|]. intros x Hx. by apply Hup, sort_elem_of.
Qed.

Lemma pop_sort_nonempty l : l <> [] -> is_Some (Js.pop (Js.sort l)).
Proof.
  intros Hl. unfold Js.pop. destruct (Js.sort l) as [|x l'] eqn:E.
  - destruct l as [|y l]; [done|].
    assert (y ∈ Js.sort (y :: l)) as Hy by (apply sort_elem_of; left).
    rewrite E in Hy. by apply elem_of_nil in Hy.
  - rewrite last_cons. by destruct (last l').
Qed.

Lemma le_empty t : String.le t "" -> t = "".
Proof.
  intros Ht. apply (anti_symm String.le); [done|].
  apply gt_false_le, gt_empty.
Qed.

(** The cutoff the pull computes: none on a full sync or when no record
    bears a time; otherwise the greatest [last_synced_at] of the records. *)
Lemma lastSync_of_spec fullSync s :
  (fullSync = true \/ issues s = ∅ -> lastSync_of fullSync s = None)
  /\ (fullSync = false ->
      forall cutoff,
        (exists n r, issues s !! n = Some r /\ last_synced_at r = cutoff) ->
        (forall n r, issues s !! n = Some r -> String.le (last_synced_at r) cutoff) ->
        lastSync_of fullSync s = if Js.truthy cutoff then Some cutoff else None).
Proof.
  unfold lastSync_of. split.
  - intros [->| ->]; [done|]. destruct fullSync; [done|]. simpl.
    by rewrite map_to_list_empty.
  - intros -> cutoff (n & r & Hr & Hcut) Hup. simpl.
    set (times := map last_synced_at (map_to_list (issues s)).*2).
    assert (forall t, t ∈ times <-> exists n r, issues s !! n = Some r /\ last_synced_at r = t)
      as Htimes.
    { intros t. unfold times. rewrite list_elem_of_fmap. split.
      - intros (r' & -> & ([n' r''] & -> & Hin%elem_of_map_to_list)%list_elem_of_fmap).
        by exists n', r''.
      - intros (n' & r' & Hr' & <-). exists r'. split; [done|].
        apply list_elem_of_fmap. exists (n', r'). split; [done|].
        by apply elem_of_map_to_list. }
    destruct (Js.truthy cutoff) eqn:Etruthy.
    + assert (cutoff ∈ filter (fun t => Js.truthy t = true) times) as Hin.
      { apply list_elem_of_filter. split; [done|]. apply Htimes. eauto. }
      destruct (filter _ times) as [|x l] eqn:Ef; [by apply elem_of_nil in Hin|].
      change (Nat.ltb 0 (length (x :: l))) with true. cbv iota.
      destruct (pop_sort_nonempty (x :: l)) as [t Ht]; [done|].
      rewrite Ht. f_equal.
      apply pop_sort_max in Ht as [Ht_in Ht_up].
      apply (anti_symm String.le); [|by apply Ht_up].
      rewrite <- Ef in Ht_in. apply list_elem_of_filter in Ht_in as [_ Ht_in].
      apply Htimes in Ht_in as (n' & r' & Hr' & <-). by eapply Hup.
    + destruct (filter _ times) as [|t l] eqn:Ef; [done|].
      assert (t ∈ filter (fun t => Js.truthy t = true) times) as Ht
        by (rewrite Ef; left).
      apply list_elem_of_filter in Ht as [Htruthy Ht].
      apply Htimes in Ht as (n' & r' & Hr' & <-).
      assert (cutoff = "") as -> by by destruct cutoff.
      by rewrite (le_empty _ (Hup _ _ Hr')) in Htruthy.
Qed.

#[local] Instance ListParams_eq_dec : EqDecision ListParams.
Proof. solve_decision. Defined.

(** Every page request of [fetchIssues] carries the parameters built from
    its arguments. *)
Lemma fetchIssues_requests fuel repo includeClosed updatedSince w p :
  CallListForRepo p ∈ events (fetchIssues fuel repo includeClosed updatedSince w) ->
  exists page, p = list_params repo includeClosed updatedSince page.
Proof.
  set (Q := fun e : Event =>
    match e with
    | CallListForRepo p =>
        bool_decide (p = list_params repo includeClosed updatedSince (lp_page p))
    | _ => false
    end).
  assert (within Q (fetchIssues fuel repo includeClosed updatedSince)) as Hw.
  { unfold fetchIssues. generalize 1%nat (@nil Issue).
    induction fuel as [|fuel IH]; intros page allIssues; simpl;
      [apply within_diverge|].
    apply within_bind; [apply within_emit; by apply bool_decide_eq_true|intros _].
    apply within_bind; [apply within_await|intros data].
    destruct (Nat.eqb _ _); [apply within_ret|].
    destruct (Nat.ltb _ _); [apply within_ret|apply IH]. }
  intros He. eapply within_events in He; [|exact Hw].
  apply bool_decide_eq_true in He. eauto.
Qed.

Definition syncDown_projects_ev (e : Event) : bool :=
  match e with
  | Console (LFetchingProjectData _) | Console (LFetchedProjectData _)
  | Console (WFailedToFetchProjectData _) => true
  | _ => getOrCreateProjectConfig_ev e || getProjectFields_ev e
         || getProjectItemsForIssues_ev e
  end.

Lemma syncDown_projects_within syncProjects repo remoteIssues :
  within syncDown_projects_ev (syncDown_projects syncProjects repo remoteIssues).
Proof.
  unfold syncDown_projects.
  apply within_bind.
  { destruct syncProjects; [|apply within_ret].
    apply getOrCreateProjectConfig_within. incl. }
  intros projectConfig.
  destruct (configured _ _) as [[[c pn] o]|]; [|apply within_ret].
  apply within_try_catch.
  - apply within_bind; [by apply within_log|intros _].
    apply within_bind; [apply getProjectFields_within; incl|intros [projectFields cached]].
    apply within_bind.
    { destruct (_ || _); [|apply within_ret].
      apply within_bind; [apply within_interact|intros t].
      apply saveConfig_within. incl. }
    intros _. cbv zeta.
    apply within_bind; [apply getProjectItemsForIssues_from_within; incl|intros ?].
    apply within_bind; [by apply within_log|intros _; apply within_ret].
  - intros e. apply within_bind; [by apply within_log|intros _; apply within_ret].
Qed.

Lemma syncDown_issue_within projectData s issue :
  within saveIssue_ev (syncDown_issue projectData s issue).
Proof.
  unfold syncDown_issue.
  apply within_bind.
  - destruct projectData as [[projectFields projectItemsMap]|]; [|apply within_ret].
    destruct (_ !! number issue) as [projectItem|]; [|apply within_ret].
    cbv zeta. within_go I.
  - intros [issue' s']. apply within_bind; [by apply saveIssue_within|intros _].
    within_go I.
Qed.

Definition syncDown_fetch_ev (e : Event) : bool :=
  match e with
  | Console LSyncingDown | Console (LRepository _) | Console (LFetchingSince _)
  | Console (LFetched _) | Mkdir | CallListForRepo _ => true
  | _ => syncDown_projects_ev e
  end.

Lemma syncDown_fetch_within fuel includeClosed fullSync syncProjects :
  within syncDown_fetch_ev (syncDown_fetch fuel includeClosed fullSync syncProjects).
Proof.
  unfold syncDown_fetch.
  apply within_bind; [by apply within_log|intros _].
  apply within_bind; [apply within_await|intros repo].
  apply within_bind; [by apply within_log|intros _].
  apply within_bind.
  { unfold ensureStorageDir.
    apply within_bind; [by apply within_fs_call|intros ?; apply within_ret]. }
  intros _. apply within_bind; [apply loadSyncState_within|intros s].
  cbv zeta. apply within_bind.
  { destruct (lastSync_of _ _); [by apply within_log|apply within_ret]. }
  intros _. apply within_bind; [apply fetchIssues_within; incl|intros remoteIssues].
  apply within_bind; [by apply within_log|intros _].
  apply within_bind; [|intros ?; apply within_ret].
  eapply within_weaken; [apply syncDown_projects_within|]. incl.
Qed.

Lemma loadSyncState_run w :
  loadSyncState w = mkRun (Ok (default {| issues := ∅ |} (state_file w))) w [].
Proof. done. Qed.

(** The page requests of the pull carry the cutoff computed from the sync
    state the pull found. *)
Lemma syncDown_requests fuel includeClosed fullSync syncProjects w p :
  CallListForRepo p ∈ events (syncDown fuel includeClosed fullSync syncProjects w) ->
  exists repo page,
    p = list_params repo includeClosed
          (lastSync_of fullSync (default {| issues := ∅ |} (state_file w))) page.
Proof.
  unfold syncDown. intros [He|(r & _ & He)]%events_bind_inv.
  - unfold syncDown_fetch in He.
    apply events_bind_inv in He as [[=]%list_elem_of_singleton|([] & _ & He)].
    change (world (log LSyncingDown w)) with w in He.
    apply events_bind_inv in He as [He|(repo & Hrepo & He)].
    { eapply within_events in He; [|apply (within_await no_ev)]. done. }
    assert (state_file (world (getCurrentRepo w)) = state_file w) as Hs1.
    { destruct (within_await no_ev (git_remote env) w) as (_ & _ & _ & Hs & _).
      by apply Hs. }
    revert He Hs1. generalize (world (getCurrentRepo w)). intros w1 He Hs1.
    apply events_bind_inv in He as [[=]%list_elem_of_singleton|([] & _ & He)].
    change (world (log (LRepository repo) w1)) with w1 in He.
    apply events_bind_inv in He as [He|([] & _ & He)].
    { eapply (within_events (fun e => match e with Mkdir => true | _ => false end))
        in He; [done|].
      unfold ensureStorageDir.
      apply within_bind; [by apply within_fs_call|intros ?; apply within_ret]. }
    assert (state_file (world (ensureStorageDir w1)) = state_file w1) as Hs2.
    { assert (within (fun e => match e with Mkdir => true | _ => false end)
                     ensureStorageDir) as Hw.
      { unfold ensureStorageDir.
        apply within_bind; [by apply within_fs_call|intros ?; apply within_ret]. }
      destruct (Hw w1) as (_ & _ & _ & Hs & _). by apply Hs. }
    revert He Hs2. generalize (world (ensureStorageDir w1)). intros w2 He Hs2.
    rewrite (bind_read _ _ _ _ (loadSyncState_run w2)) in He. cbv zeta in He.
    rewrite Hs2, Hs1 in He.
    apply events_bind_inv in He as [He|([] & _ & He)].
    { destruct (lastSync_of _ _); [|by apply elem_of_nil in He].
      by apply list_elem_of_singleton in He. }
    apply events_bind_inv in He as [He|(remoteIssues & _ & He)].
    { apply fetchIssues_requests in He as [page ->]. eauto. }
    apply events_bind_inv in He as [[=]%list_elem_of_singleton|([] & _ & He)].
    apply events_bind_inv in He as [He|(pd & _ & He)]; [|by apply elem_of_nil in He].
    eapply within_events in He; [|apply syncDown_projects_within]. done.
  - destruct r as [[s remoteIssues] projectData].
    apply events_bind_inv in He as [He|(s' & _ & He)].
    + eapply within_events in He;
        [|apply within_for_of; intros ? ?; apply syncDown_issue_within]. done.
    + apply events_bind_inv in He as [He|([] & _ & He)].
      * eapply within_events in He; [|apply (saveSyncState_within saveSyncState_ev)]; done.
      * by apply list_elem_of_singleton in He.
Qed.

(** C7. Every request for remote issues a pull makes asks for the issues
    updated since the cutoff, which is the greatest [last_synced_at] of
    the records of the sync state the pull found; on a full sync, or when
    there is no record, the request has no [since] and asks for all
    issues.  (A greatest time that is the empty string is below every
    time: the request then has no [since] either.) *)
Theorem pull_requests_since_cutoff fuel includeClosed fullSync syncProjects w p :
  CallListForRepo p ∈ events (syncDown fuel includeClosed fullSync syncProjects w) ->
  let records := issues (default {| issues := ∅ |} (state_file w)) in
  (fullSync = true \/ records = ∅ -> lp_since p = None)
  /\ (fullSync = false ->
      forall cutoff,
        (exists n r, records !! n = Some r /\ last_synced_at r = cutoff) ->
        (forall n r, records !! n = Some r -> String.le (last_synced_at r) cutoff) ->
        lp_since p = if Js.truthy cutoff then Some cutoff else None).
Proof.
  intros (repo & page & ->)%syncDown_requests records.
  destruct (lastSync_of_spec fullSync (default {| issues := ∅ |} (state_file w)))
    as [Hnone Hmax].
  split.
  - intros Hcase. simpl. by rewrite (Hnone Hcase).
  - intros Hinc cutoff Hin Hup. simpl.
    rewrite (Hmax Hinc cutoff Hin Hup). by destruct cutoff.
Qed.

(** ** C2: the records a pull leaves *)

Lemma saveSyncState_ok s w :
  outcome (saveSyncState s w) = Ok tt ->
  events (saveSyncState s w) = [WriteStateFile s]
  /\ state_file (world (saveSyncState s w)) = Some s.
Proof.
  unfold saveSyncState, fs_call, mbind, M_bind, emit, interact, mret, M_ret, throw,
    set_state_file.
  simpl. by destruct (fs_ok env (tick w)).
Qed.

Lemma saveIssue_ok issue w :
  outcome (saveIssue issue w) = Ok tt ->
  exists content, events (saveIssue issue w) = [WriteIssueFile (number issue) content].
Proof.
  unfold saveIssue, fs_call, mbind, M_bind, emit, interact, mret, M_ret, throw,
    set_issue_files, get_world.
  simpl. destruct (fs_ok env (tick w)); [|done]. eauto.
Qed.

(** What the loop body of the pull leaves: the record of its issue bears
    the issue's [updated_at] twice and a time read during the step; the
    other records are untouched; the issue file has been written. *)
Lemma syncDown_issue_state projectData s issue w s' :
  outcome (syncDown_issue projectData s issue w) = Ok s' ->
  (exists t r,
     (tick w <= t)%nat
     /\ issues s' !! number issue = Some r
     /\ github_updated_at r = updated_at issue
     /\ local_updated_at r = updated_at issue
     /\ last_synced_at r = now env t)
  /\ (forall n, n ≠ number issue -> issues s' !! n = issues s !! n)
  /\ (exists content,
        WriteIssueFile (number issue) content
          ∈ events (syncDown_issue projectData s issue w)).
Proof.
  unfold syncDown_issue. intros Hok.
  pose proof Hok as Hok0.
  apply outcome_bind_ok in Hok as ([issue1 s1] & Hfirst & Hok).
  match type of Hfirst with outcome (?m w) = _ =>
    assert (within all_ev m) as Hw1; [|pose proof (within_tick _ _ w Hw1) as Ht1]
  end.
  { destruct projectData as [[projectFields projectItemsMap]|]; [|apply within_ret].
    destruct (_ !! number issue) as [projectItem|]; [|apply within_ret].
    cbv zeta. within_go I. }
  assert (number issue1 = number issue /\ updated_at issue1 = updated_at issue
          /\ forall n, n ≠ number issue -> issues s1 !! n = issues s !! n)
    as (Hnum & Hupd & Hframe).
  { clear Hok Hok0 Hw1 Ht1.
    destruct projectData as [[projectFields projectItemsMap]|];
      [|by injection Hfirst as <- <-].
    destruct (_ !! number issue) as [projectItem|]; [|by injection Hfirst as <- <-].
    cbv zeta in Hfirst.
    apply outcome_bind_ok in Hfirst as (s0 & Hs0 & Hfirst).
    simpl in Hfirst. injection Hfirst as <- <-. split_and!; [done..|].
    intros n Hn. simpl. rewrite !lookup_alter_ne by done.
    destruct (issues s !! number issue); simpl in Hs0; injection Hs0 as <-; [done|].
    simpl. by rewrite lookup_insert_ne. }
  rewrite (events_ok_bind _ _ _ _ Hfirst).
  match type of Ht1 with (_ <= tick ?w')%nat =>
    remember w' as w1 eqn:Ew1; clear Ew1
  end.
  cbn beta iota in Hok |- *.
  apply outcome_bind_ok in Hok as ([] & Hsave & Hok).
  pose proof (within_tick _ _ w1 (saveIssue_within all_ev issue1 (fun _ _ => eq_refl)))
    as Ht2.
  destruct (saveIssue_ok _ _ Hsave) as (content & Hev).
  rewrite (events_ok_bind _ _ _ _ Hsave), Hev.
  simpl in Hok. injection Hok as <-.
  split_and!.
  - eexists (tick (world (saveIssue issue1 w1))), _.
    split; [lia|]. simpl. rewrite Hnum, lookup_insert_eq. by rewrite Hupd.
  - intros n Hn. simpl. rewrite Hnum, lookup_insert_ne by done. by apply Hframe.
  - exists content. rewrite <- Hnum. set_solver.
Qed.

Lemma pull_loop_state projectData ls s w s' :
  outcome (for_of ls (syncDown_issue projectData) s w) = Ok s' ->
  NoDup (number <$> ls) ->
  (forall issue, issue ∈ ls ->
     (exists t r,
        (tick w <= t)%nat
        /\ issues s' !! number issue = Some r
        /\ github_updated_at r = updated_at issue
        /\ local_updated_at r = updated_at issue
        /\ last_synced_at r = now env t)
     /\ exists content,
          WriteIssueFile (number issue) content
            ∈ events (for_of ls (syncDown_issue projectData) s w))
  /\ (forall n, n ∉ number <$> ls -> issues s' !! n = issues s !! n).
Proof.
  revert s w. induction ls as [|x ls IH]; intros s w Hok Hnd.
  - injection Hok as <-. split; [by intros ? ?%elem_of_nil|done].
  - simpl in Hok. pose proof Hok as Hok0.
    apply outcome_bind_ok in Hok as (s1 & Hx & Hok).
    rewrite fmap_cons in Hnd. apply NoDup_cons in Hnd as [Hx_new Hnd].
    destruct (IH _ _ Hok Hnd) as [Hrecs Hframe].
    destruct (syncDown_issue_state _ _ _ _ _ Hx)
      as ((t & r & Ht & Hr & Hg & Hl & Hsync) & Hframe_x & (content & Hwrite)).
    pose proof (within_tick _ _ w (syncDown_issue_within projectData s x)) as Htick.
    simpl. rewrite (events_ok_bind _ _ _ _ Hx).
    split.
    + intros issue [->|Hin]%elem_of_cons.
      * split; [|exists content; apply elem_of_app; by left].
        exists t, r. split_and!; [done| |done..].
        by rewrite (Hframe _ Hx_new).
      * destruct (Hrecs _ Hin) as ((t' & r' & Ht' & Hrest) & (content' & Hwrite')).
        split; [|exists content'; apply elem_of_app; by right].
        exists t', r'. split; [lia|done].
    + intros n [Hn_x Hn]%not_elem_of_cons.
      rewrite (Hframe _ Hn). by apply Hframe_x.
Qed.

(** C2. After a pull that runs to its end, the persisted sync state holds
    for every fetched issue a record whose [github_updated_at] and
    [local_updated_at] are the issue's [updated_at] and whose
    [last_synced_at] is not before the time the pull started; the state is
    written once, after the files of all the issues.  (The clock is taken
    not to go back, and the remote to list an issue once.) *)
Theorem pull_records fuel includeClosed fullSync syncProjects w s remoteIssues projectData :
  outcome (syncDown_fetch fuel includeClosed fullSync syncProjects w)
    = Ok (s, remoteIssues, projectData) ->
  outcome (syncDown fuel includeClosed fullSync syncProjects w) = Ok tt ->
  NoDup (number <$> remoteIssues) ->
  (forall t t', (t <= t')%nat -> String.le (now env t) (now env t')) ->
  exists persisted before,
    state_file (world (syncDown fuel includeClosed fullSync syncProjects w))
      = Some persisted
    /\ (forall issue, issue ∈ remoteIssues ->
          exists r,
            issues persisted !! number issue = Some r
            /\ github_updated_at r = updated_at issue
            /\ local_updated_at r = updated_at issue
            /\ String.le (now env (tick w)) (last_synced_at r))
    /\ events (syncDown fuel includeClosed fullSync syncProjects w)
         = before ++ [WriteStateFile persisted; Console LSyncComplete]
    /\ (forall e, e ∈ before -> saveSyncState_ev e = false)
    /\ (forall issue, issue ∈ remoteIssues ->
          exists content, WriteIssueFile (number issue) content ∈ before).
Proof.
  intros Hfetch Hok Hnd Hclock. unfold syncDown in *.
  rewrite (bind_ok _ _ _ _ Hfetch) in Hok |- *. cbn [outcome world events] in Hok |- *.
  pose proof (within_tick _ _ w
    (syncDown_fetch_within fuel includeClosed fullSync syncProjects)) as Ht0.
  pose proof (fun e => within_events _ _ w e
    (syncDown_fetch_within fuel includeClosed fullSync syncProjects)) as Hev0.
  revert Hok Ht0. generalize (world (syncDown_fetch fuel includeClosed fullSync syncProjects w)).
  intros w1 Hok Ht0.
  apply outcome_bind_ok in Hok as (s' & Hloop & Hok).
  rewrite (bind_ok _ _ _ _ Hloop). cbn [outcome world events].
  destruct (pull_loop_state _ _ _ _ _ Hloop Hnd) as [Hrecs _].
  pose proof (fun e => within_events _ _ w1 e
    (within_for_of saveIssue_ev remoteIssues (syncDown_issue projectData) s
       (fun s x => syncDown_issue_within projectData s x))) as Hev1.
  revert Hok Hrecs Hev1. generalize (for_of remoteIssues (syncDown_issue projectData) s w1).
  intros r1 Hok Hrecs Hev1.
  apply outcome_bind_ok in Hok as ([] & Hsave & _).
  destruct (saveSyncState_ok _ _ Hsave) as [Hev Hfile].
  rewrite (bind_ok _ _ _ _ Hsave). cbn [outcome world events]. rewrite Hev.
  exists s', (events (syncDown_fetch fuel includeClosed fullSync syncProjects w)
               ++ events r1).
  split_and!.
  - done.
  - intros issue Hin. destruct (Hrecs _ Hin) as ((t & r & Ht & Hr & Hg & Hl & Hs) & _).
    exists r. split_and!; [done..|]. rewrite Hs. apply Hclock. lia.
  - simpl. by rewrite <- !app_assoc.
  - intros e [He|He]%elem_of_app.
    + apply Hev0 in He. by destruct e as [[]| | | | | | | | | | | | |].
    + apply Hev1 in He. by destruct e.
  - intros issue Hin. destruct (Hrecs _ Hin) as (_ & content & Hwrite).
    exists content. apply elem_of_app. by right.
Qed.

(** ** C10: the local store *)



Section RoundTrip.

Context `{!GrayMatterRoundTrip}.



End RoundTrip.

(** ** Whom an event is about *)

(** The issue an event names as its subject: the number in a report, in
    an update request, or in the request for the project item of one
    issue. *)
Definition about (e : Event) : option N :=
  match e with
  | Console (LNotFoundOnGithub n) | Console (LNoSyncHistory n)
  | Console (LConflictDetected n) | Console (LWouldUpdate n _ _)
  | Console (LUpdating n _) | Console (LWouldUpdateField n _ _ _)
  | Console (LUpdatedField n _) | Console (WFailedToUpdateField n _ _) => Some n
  | CallIssuesUpdate p => Some (up_issue_number p)
  | QueryProjectItems _ [n] => Some n
  | _ => None
  end.

Definition about_only (n : N) (e : Event) : bool :=
  match about e with
  | Some m => bool_decide (m = n)
  | None => true
  end.

Lemma within_ext {A} Q (m m' : M A) :
  (forall w, m w = m' w) -> within Q m' -> within Q m.
Proof. intros Heq Hm w. rewrite Heq. apply Hm. Qed.

Lemma getProjectItemForIssue_about pn o repo n :
  within (about_only n) (getProjectItemForIssue pn o repo n).
Proof.
  unfold getProjectItemForIssue, getProjectItemsForIssues.
  apply within_bind; [|intros ?; apply within_ret].
  apply (within_ext _ _ (fetch_batch pn repo [n] ∅ ≫= mret)).
  - intros w. rewrite getProjectItemsForIssues_from_step.
    rewrite decide_True by (simpl; lia).
    apply bind_ext. intros m' w'. rewrite getProjectItemsForIssues_from_step.
    by rewrite decide_False by (unfold batchSize; simpl; lia).
  - apply within_bind; [|intros ?; apply within_ret].
    unfold fetch_batch. apply within_try_catch.
    + apply within_bind; [apply within_emit; unfold about_only; simpl;
                          by apply bool_decide_eq_true|intros _].
      apply within_bind; [apply within_await|intros ?; apply within_ret].
    + intros e. apply within_bind; [by apply within_log|intros _; apply within_ret].
Qed.

(** The events of the loop body of the push are about its own issue. *)
Lemma syncUp_issue_about force dryRun repo proj remoteMap st l :
  within (about_only (number l)) (syncUp_issue force dryRun repo proj remoteMap st l).
Proof.
  assert (forall lg : Log, about (Console lg) = Some (number l) ->
            within (about_only (number l)) (log lg)) as Hlog.
  { intros lg Hlg. apply within_log. unfold about_only. rewrite Hlg.
    by apply bool_decide_eq_true. }
  unfold syncUp_issue.
  destruct (remoteMap !! number l) as [remote|];
    [|apply within_bind; [by apply Hlog|intros _; apply within_ret]].
  destruct (issues st.1 !! number l) as [syncInfo|];
    [|apply within_bind; [by apply Hlog|intros _; apply within_ret]].
  apply within_bind; [apply getLocalFileModTime_within|intros fileModTime].
  cbv zeta.
  destruct (_ && _ && _);
    [apply within_bind; [by apply Hlog|intros _; apply within_ret]|].
  destruct (negb _); [apply within_ret|].
  unfold syncUp_push. cbv zeta. apply within_bind.
  - destruct (Nat.ltb _ _); [|apply within_ret].
    apply within_bind; [|intros ?; apply within_ret].
    destruct dryRun.
    + apply within_bind; [by apply Hlog|intros _; apply within_ret].
    + apply within_bind; [by apply Hlog|intros _].
      apply within_bind; [|intros _; within_go I].
      unfold updateIssue. simpl.
      apply within_bind; [apply within_ret|intros ms].
      apply within_try_catch; [|intros e; apply within_throw].
      apply within_bind; [|intros _; apply within_await].
      apply within_emit. unfold about_only. simpl. by apply bool_decide_eq_true.
  - intros st'. apply within_bind; [|intros ?; apply within_ret].
    unfold syncUp_fields.
    destruct proj as [[[[projectFields projectId] pn] o]|]; [|apply within_ret].
    destruct (Js.or_null _) as [itemId|]; [|apply within_ret].
    destruct (project_fields l) as [localFields|]; [|apply within_ret].
    apply within_bind; [apply getProjectItemForIssue_about|].
    intros [item|]; [|apply within_ret].
    cbv zeta. apply within_bind.
    + apply within_for_of. intros u [fieldName localValue].
      unfold syncUp_field.
      destruct (_ !! fieldName) as [field|]; [|apply within_ret].
      case_bool_decide; [|apply within_ret].
      destruct dryRun; [by apply Hlog|].
      apply within_try_catch; [|intros e; by apply Hlog].
      apply within_bind; [|intros _; by apply Hlog].
      apply updateProjectField_within. by intros [].
    + intros _. destruct dryRun; [apply within_ret|].
      apply within_bind; [apply within_interact|intros t; apply within_ret].
Qed.

(** ** C3: an issue that is not modified locally *)

Lemma syncUp_load_about fuel dryRun syncProjects w e :
  e ∈ events (syncUp_load fuel dryRun syncProjects w) -> about e = None.
Proof.
  intros He. eapply within_events in He; [|apply syncUp_load_within].
  by destruct e as [[]| | | | | | | | | | | | |].
Qed.

Lemma syncUp_finish_about dryRun st w e :
  e ∈ events (syncUp_finish dryRun st w) -> about e = None.
Proof.
  intros He. eapply within_events in He; [|apply syncUp_finish_within].
  by destruct e as [[]| | | | | | | | | | | | |].
Qed.


(** ** C9: the record the push stores *)



Lemma syncUp_finish_ok st w :
  outcome (syncUp_finish false st w) = Ok tt ->
  state_file (world (syncUp_finish false st w)) = Some st.1.
Proof.
  unfold syncUp_finish. intros ([] & Hsave & _)%outcome_bind_ok.
  rewrite (world_ok_bind _ _ _ _ Hsave). simpl.
  by apply saveSyncState_ok.
Qed.

(** What a real push that runs to its end persists: the state its loop
    ended with. *)
Lemma syncUp_persists fuel force syncProjects w repo ls remoteMap s proj :
  outcome (syncUp_load fuel false syncProjects w) = Ok (repo, ls, remoteMap, s, proj) ->
  outcome (syncUp fuel force false syncProjects w) = Ok tt ->
  exists st,
    outcome (for_of ls (syncUp_issue force false repo proj remoteMap) (s, 0%nat)
               (world (syncUp_load fuel false syncProjects w))) = Ok st
    /\ state_file (world (syncUp fuel force false syncProjects w)) = Some st.1.
Proof.
  intros Hload Hok.
  destruct (syncUp_run _ force _ _ _ _ _ _ _ _ Hload) as (Hout & Hworld & _).
  rewrite Hout in Hok. rewrite Hworld.
  apply outcome_bind_ok in Hok as (st & Hloop & Hok).
  exists st. split; [done|].
  rewrite (world_ok_bind _ _ _ _ Hloop). by apply syncUp_finish_ok.
Qed.


(** ** C6: pushing twice *)

(** What the local store holds, as [loadIssue] and [loadAllLocalIssues]
    read it. *)
Definition read_issue (files : gmap N LocalFile) (n : N) : option Issue :=
  file ← files !! n;
  '(data, body) ← matter (text file);
  Some (issue_of_matter data body).

Definition read_issues (files : gmap N LocalFile) : list Issue :=
  omap (fun i : option Issue => i) (map (read_issue files) (map_to_list files).*1).

Lemma loadIssue_run n w :
  loadIssue n w = mkRun (Ok (read_issue (issue_files w) n)) w [].
Proof.
  unfold loadIssue, read_issue, mbind at 1, M_bind, get_world. simpl.
  destruct (issue_files w !! n) as [file|]; simpl; [|done].
  by destruct (matter (text file)) as [[data body]|].
Qed.

Lemma loadAllLocalIssues_run w :
  loadAllLocalIssues w = mkRun (Ok (read_issues (issue_files w))) w [].
Proof.
  unfold loadAllLocalIssues, read_issues.
  rewrite (bind_read _ _ w w) by done.
  generalize ((map_to_list (issue_files w)).*1). intros ns.
  assert (forall acc,
    for_of ns (fun acc n => i ← loadIssue n; mret (acc ++ [i])) acc w
    = mkRun (Ok (acc ++ map (read_issue (issue_files w)) ns)) w []) as Hloop.
  { induction ns as [|n ns IH]; intros acc; simpl.
    - by rewrite app_nil_r.
    - rewrite bind_assoc, (bind_read _ _ _ _ (loadIssue_run n w)), ret_bind, IH.
      by rewrite <- app_assoc. }
  by rewrite (bind_read _ _ _ _ (Hloop [])).
Qed.

(** The local issues and the sync state a push works on are those of the
    world it starts in. *)
Lemma syncUp_load_reads fuel dryRun syncProjects w repo ls remoteMap s proj :
  outcome (syncUp_load fuel dryRun syncProjects w) = Ok (repo, ls, remoteMap, s, proj) ->
  ls = read_issues (issue_files w)
  /\ s = default {| issues := ∅ |} (state_file w).
Proof.
  unfold syncUp_load. intros Hok.
  apply outcome_bind_ok in Hok as ([] & _ & Hok).
  change (world (log _ w)) with w in Hok.
  apply outcome_bind_ok in Hok as (repo0 & _ & Hok).
  destruct (within_await no_ev (git_remote env) w) as (_ & _ & Hi1 & Hs1 & _).
  fold getCurrentRepo in Hi1, Hs1.
  revert Hok Hi1 Hs1. generalize (world (getCurrentRepo w)). intros w1 Hok Hi1 Hs1.
  apply outcome_bind_ok in Hok as ([] & _ & Hok).
  change (world (log _ w1)) with w1 in Hok.
  rewrite (bind_read _ _ _ _ (loadAllLocalIssues_run w1)) in Hok.
  apply outcome_bind_ok in Hok as (remoteIssues & _ & Hok).
  destruct (fetchIssues_within fetchIssues_ev fuel repo0 true None (fun _ He => He) w1)
    as (_ & _ & _ & Hs2 & _).
  revert Hok Hs2. generalize (world (fetchIssues fuel repo0 true None w1)).
  intros w2 Hok Hs2.
  rewrite (bind_read _ _ _ _ (loadSyncState_run w2)) in Hok.
  apply outcome_bind_ok in Hok as (projectConfig & _ & Hok).
  apply outcome_bind_ok in Hok as (proj0 & _ & Hok).
  injection Hok as _ <- _ <- _.
  by rewrite Hi1, Hs2, Hs1.
Qed.

(** Two records, or their absence, that the change detection cannot tell
    apart: it reads [github_updated_at] and [last_synced_at] only. *)
Definition same_times (o o' : option SyncRecord) : Prop :=
  match o, o' with
  | Some r, Some r' =>
      github_updated_at r = github_updated_at r'
      /\ last_synced_at r = last_synced_at r'
  | None, None => True
  | _, _ => False
  end.

Lemma same_times_refl o : same_times o o.
Proof. by destruct o. Qed.

Lemma same_times_trans o1 o2 o3 :
  same_times o1 o2 -> same_times o2 o3 -> same_times o1 o3.
Proof.
  destruct o1, o2, o3; simpl; try done. intros [-> ->] [-> ->]. done.
Qed.

(** An issue for which a push without [force] sends no update: it has no
    remote counterpart or no record, or it is in conflict, or it is not
    modified locally, or it does not differ from the remote issue. *)
Definition quiet (files : gmap N LocalFile) (remoteMap : gmap N Issue)
    (o : option SyncRecord) (l : Issue) : bool :=
  match remoteMap !! number l, o with
  | Some remote, Some syncInfo =>
      let localModified := localModified_of (mtime <$> files !! number l) syncInfo in
      let remoteModified := remoteModified_of remote syncInfo in
      (remoteModified && localModified) || negb localModified
      || bool_decide (Object_keys (updates_of l remote) = [])
  | _, _ => true
  end.

Lemma quiet_same_times files remoteMap o o' l :
  same_times o o' -> quiet files remoteMap o l = quiet files remoteMap o' l.
Proof.
  unfold quiet, localModified_of, remoteModified_of.
  destruct o as [r|], o' as [r'|]; simpl; try done.
  intros [-> ->]. done.
Qed.

Lemma same_times_stamp t n (s : SyncState) m :
  same_times (issues (stamp t n s) !! m) (issues s !! m).
Proof.
  unfold stamp. simpl. destruct (decide (n = m)) as [->|Hne].
  - rewrite lookup_alter_eq. by destruct (issues s !! m).
  - rewrite lookup_alter_ne by done. apply same_times_refl.
Qed.

Lemma syncUp_push_quiet_events repo proj remote syncInfo st l w p :
  Object_keys (updates_of l remote) = [] ->
  CallIssuesUpdate p ∉ events (syncUp_push false repo proj remote syncInfo st l w).
Proof.
  intros Hkeys He.
  assert (within (syncUp_fields_ev false)
                 (syncUp_push false repo proj remote syncInfo st l)) as Hw.
  { unfold syncUp_push. cbv zeta. rewrite Hkeys. simpl.
    apply within_bind; [apply within_ret|intros st'].
    apply within_bind; [apply syncUp_fields_within|intros ?; apply within_ret]. }
  by apply (within_events _ _ _ _ Hw) in He.
Qed.

(** What one step of a real push without [force] does to the record of
    issue [n]: either it has just updated that issue, and the record bears
    a time read during the step; or it has sent no update for [n], the
    record tells the same times as before and, if the step was for [n],
    its issue is quiet. *)
Lemma syncUp_issue_summary repo proj remoteMap st x w st1 n :
  outcome (syncUp_issue false false repo proj remoteMap st x w) = Ok st1 ->
  (number x = n
   /\ exists r t, issues st1.1 !! n = Some r
                 /\ last_synced_at r = now env t /\ (tick w <= t)%nat)
  \/ (same_times (issues st1.1 !! n) (issues st.1 !! n)
      /\ (forall p, CallIssuesUpdate p
                      ∈ events (syncUp_issue false false repo proj remoteMap st x w) ->
                    up_issue_number p ≠ n)
      /\ (number x = n ->
          quiet (issue_files w) remoteMap (issues st.1 !! n) x = true)).
Proof.
  intros Hok. destruct (decide (number x = n)) as [<-|Hne].
  - unfold quiet.
    destruct (remoteMap !! number x) as [remote|] eqn:Hr;
      [destruct (issues st.1 !! number x) as [syncInfo|] eqn:Hs|].
    + rewrite (syncUp_issue_run _ _ _ _ _ _ _ _ _ _ Hr Hs) in Hok |- *.
      cbv zeta in Hok |- *. rewrite andb_true_r in Hok |- *.
      destruct (remoteModified_of remote syncInfo && localModified_of _ syncInfo) eqn:Ec.
      { injection Hok as <-. right. rewrite Hs. split_and!; [done| |done].
        by intros p [=]%list_elem_of_singleton. }
      destruct (localModified_of _ syncInfo) eqn:Elm; simpl in Hok |- *; cycle 1.
      { injection Hok as <-. right. rewrite Hs. split_and!; [done| |done].
        by intros p ?%elem_of_nil. }
      pose proof Hok as Hok'.
      apply syncUp_push_state in Hok as (s1 & Hs1 & Hst1).
      destruct (decide (Object_keys (updates_of x remote) = [])) as [Hkeys|Hkeys].
      * right. destruct Hs1 as [-> _]. split_and!.
        -- destruct Hst1 as [->|(_ & t & _ & ->)]; [by rewrite Hs|].
           rewrite <- Hs. apply same_times_stamp.
        -- intros p He. by apply syncUp_push_quiet_events in He.
        -- intros _. by apply bool_decide_eq_true.
      * left. split; [done|]. destruct Hs1 as (_ & t1 & t2 & _ & Ht2 & ->).
        destruct Hst1 as [->|(_ & t & _ & ->)]; simpl.
        -- rewrite lookup_insert_eq. by eexists _, t2.
        -- rewrite lookup_alter_eq, lookup_insert_eq. simpl. by eexists _, t2.
    + unfold syncUp_issue in Hok |- *. rewrite Hr, Hs in Hok |- *.
      injection Hok as <-. right. rewrite Hs. split_and!; [done| |done].
      by intros p [=]%list_elem_of_singleton.
    + unfold syncUp_issue in Hok |- *. rewrite Hr in Hok |- *.
      injection Hok as <-. right. split_and!; [apply same_times_refl| |done].
      by intros p [=]%list_elem_of_singleton.
  - right. split_and!; [| |done].
    + rewrite (syncUp_issue_frame _ _ _ _ _ _ _ _ _ n Hok) by done.
      apply same_times_refl.
    + intros p He Hp. eapply within_events in He; [|apply syncUp_issue_about].
      unfold about_only in He. simpl in He. apply bool_decide_eq_true in He. congruence.
Qed.

Section PushTwice.

Context (repo : Repo) (proj : option Project) (remoteMap : gmap N Issue).

#[local] Notation "'loop' ls" :=
  (for_of ls (syncUp_issue false false repo proj remoteMap))
  (at level 10, ls at level 9, only parsing).

(** The same, for the whole loop. *)
Lemma push_loop_summary ls st w st' n :
  outcome (loop ls st w) = Ok st' ->
  (exists r t, issues st'.1 !! n = Some r
               /\ last_synced_at r = now env t /\ (tick w <= t)%nat)
  \/ (same_times (issues st'.1 !! n) (issues st.1 !! n)
      /\ (forall p, CallIssuesUpdate p ∈ events (loop ls st w) -> up_issue_number p ≠ n)
      /\ (forall l, l ∈ ls -> number l = n ->
            quiet (issue_files w) remoteMap (issues st.1 !! n) l = true)).
Proof.
  revert st w. induction ls as [|x ls IH]; intros st w Hok.
  - injection Hok as <-. right. split_and!; [apply same_times_refl|..].
    + by intros p ?%elem_of_nil.
    + by intros l ?%elem_of_nil.
  - simpl in Hok |- *.
    apply outcome_bind_ok in Hok as (st1 & Hx & Hok).
    pose proof (within_tick _ _ w
      (syncUp_issue_within false false repo proj remoteMap st x)) as Htick.
    pose proof (push_loop_files false false repo proj remoteMap [x] st w) as Hfiles.
    simpl in Hfiles. rewrite (world_ok_bind _ _ _ _ Hx) in Hfiles. simpl in Hfiles.
    rewrite (events_ok_bind _ _ _ _ Hx).
    destruct (IH _ _ Hok) as [(r & t & Hr & Ht & Hle)|(Hsame & Hnone & Hquiet)].
    { left. exists r, t. split_and!; [done..|lia]. }
    destruct (syncUp_issue_summary _ _ _ _ _ _ _ n Hx)
      as [(Hn & r & t & Hr & Ht & Hle)|(Hsame_x & Hnone_x & Hquiet_x)].
    + left. rewrite Hr in Hsame.
      destruct (issues st'.1 !! n) as [r'|]; [|done].
      destruct Hsame as [_ Hsync]. exists r', t. by rewrite Hsync.
    + right. split_and!.
      * by eapply same_times_trans.
      * intros p [He|He]%elem_of_app; [by apply Hnone_x|by apply Hnone].
      * intros l [->|Hl]%elem_of_cons Hn; [by apply Hquiet_x|].
        rewrite <- (quiet_same_times _ _ _ _ _ Hsame_x), <- Hfiles. by apply Hquiet.
Qed.

(** For a quiet issue the loop body sends no update, counts none, and
    leaves records that tell the same times. *)
Lemma syncUp_issue_quiet st x w :
  quiet (issue_files w) remoteMap (issues st.1 !! number x) x = true ->
  (forall p, CallIssuesUpdate p
               ∉ events (syncUp_issue false false repo proj remoteMap st x w))
  /\ (forall st1,
        outcome (syncUp_issue false false repo proj remoteMap st x w) = Ok st1 ->
        st1.2 = st.2
        /\ forall n, same_times (issues st1.1 !! n) (issues st.1 !! n)).
Proof.
  unfold quiet. intros Hq.
  destruct (remoteMap !! number x) as [remote|] eqn:Hr;
    [destruct (issues st.1 !! number x) as [syncInfo|] eqn:Hs|].
  - rewrite (syncUp_issue_run _ _ _ _ _ _ _ _ _ _ Hr Hs).
    cbv zeta in Hq |- *. rewrite andb_true_r.
    destruct (remoteModified_of remote syncInfo && localModified_of _ syncInfo).
    { split; [by intros p [=]%list_elem_of_singleton|].
      intros st1 [= <-]. split; [done|]. intros n. apply same_times_refl. }
    destruct (localModified_of _ syncInfo); simpl in Hq |- *; cycle 1.
    { split; [by intros p ?%elem_of_nil|].
      intros st1 [= <-]. split; [done|]. intros n. apply same_times_refl. }
    apply bool_decide_eq_true in Hq. split.
    + intros p. by apply syncUp_push_quiet_events.
    + intros st1 Hx. apply syncUp_push_state in Hx as (s1 & Hs1 & Hst1).
      rewrite decide_True in Hs1 by done. destruct Hs1 as [-> Hcount].
      split; [done|]. intros n.
      destruct Hst1 as [->|(_ & t & _ & ->)]; [apply same_times_refl|].
      apply same_times_stamp.
  - unfold syncUp_issue. rewrite Hr, Hs. split.
    + by intros p [=]%list_elem_of_singleton.
    + intros st1 [= <-]. split; [done|]. intros n. apply same_times_refl.
  - unfold syncUp_issue. rewrite Hr. split.
    + by intros p [=]%list_elem_of_singleton.
    + intros st1 [= <-]. split; [done|]. intros n. apply same_times_refl.
Qed.

(** A loop over quiet issues sends no update and counts none. *)
Lemma push_loop_quiet ls st w :
  (forall l, l ∈ ls ->
     quiet (issue_files w) remoteMap (issues st.1 !! number l) l = true) ->
  (forall p, CallIssuesUpdate p ∉ events (loop ls st w))
  /\ (forall st', outcome (loop ls st w) = Ok st' -> st'.2 = st.2).
Proof.
  revert st w. induction ls as [|x ls IH]; intros st w Hquiet.
  - split; [by intros p ?%elem_of_nil|]. by intros st' [= <-].
  - destruct (syncUp_issue_quiet st x w (Hquiet x (list_elem_of_here _ _)))
      as [Hnone_x Hstate_x].
    assert (forall st1,
      outcome (syncUp_issue false false repo proj remoteMap st x w) = Ok st1 ->
      forall l, l ∈ ls ->
        quiet (issue_files (world (syncUp_issue false false repo proj remoteMap st x w)))
              remoteMap (issues st1.1 !! number l) l = true) as Hrest.
    { intros st1 Hx l Hl. destruct (Hstate_x _ Hx) as [_ Hsame].
      pose proof (push_loop_files false false repo proj remoteMap [x] st w) as Hfiles.
      simpl in Hfiles. rewrite (world_ok_bind _ _ _ _ Hx) in Hfiles. simpl in Hfiles.
      rewrite Hfiles, (quiet_same_times _ _ _ _ _ (Hsame (number l))).
      apply Hquiet. by right. }
    split.
    + intros p He. simpl in He.
      apply events_bind_inv in He as [He|(st1 & Hx & He)]; [by apply Hnone_x in He|].
      by apply (IH _ _ (Hrest _ Hx)) in He.
    + intros st' Hok. simpl in Hok.
      apply outcome_bind_ok in Hok as (st1 & Hx & Hok).
      destruct (IH _ _ (Hrest _ Hx)) as [_ Hcount].
      rewrite (Hcount _ Hok). by apply Hstate_x.
Qed.

End PushTwice.

Lemma quiet_remote files remoteMap remoteMap' o l :
  remoteMap' !! number l = remoteMap !! number l ->
  quiet files remoteMap' o l = quiet files remoteMap o l.
Proof. unfold quiet. by intros ->. Qed.

Lemma syncUp_files fuel force dryRun syncProjects w :
  issue_files (world (syncUp fuel force dryRun syncProjects w)) = issue_files w.
Proof.
  destruct (syncUp_within fuel force dryRun syncProjects w) as (_ & _ & Hi & _).
  apply Hi. intros n t. by destruct dryRun.
Qed.

(** C6. Let a push without [force] and not a dry run run to its end, and
    let a second such push start in the world the first one left: the same
    local files, the sync state the first push persisted, and remote
    issues that are as the first push found them except those it updated
    itself.  Then the second push sends no update request and reports 0
    updated issues.  (The modification times of the local files are taken
    not to be ahead of the clock.) *)
Theorem push_twice fuel fuel' syncProjects syncProjects' w
    repo ls remoteMap s proj repo' ls' remoteMap' s' proj' :
  outcome (syncUp_load fuel false syncProjects w) = Ok (repo, ls, remoteMap, s, proj) ->
  outcome (syncUp fuel false false syncProjects w) = Ok tt ->
  outcome (syncUp_load fuel' false syncProjects'
             (world (syncUp fuel false false syncProjects w)))
    = Ok (repo', ls', remoteMap', s', proj') ->
  (forall n,
     (forall p, CallIssuesUpdate p ∈ events (syncUp fuel false false syncProjects w) ->
                up_issue_number p ≠ n) ->
     remoteMap' !! n = remoteMap !! n) ->
  (forall n file t,
     issue_files w !! n = Some file -> (tick w <= t)%nat ->
     String.le (mtime file) (now env t)) ->
  let second :=
    syncUp fuel' false false syncProjects' (world (syncUp fuel false false syncProjects w)) in
  (forall p, CallIssuesUpdate p ∉ events second)
  /\ (forall k, Console (LSyncCompleteUpdated k) ∈ events second -> k = 0%nat).
Proof.
  intros Hload Hok Hload' Hremote Hclock second.
  destruct (syncUp_persists _ _ _ _ _ _ _ _ _ Hload Hok) as (st1 & Hloop & Hfile).
  destruct (syncUp_load_reads _ _ _ _ _ _ _ _ _ Hload) as [Hls _].
  destruct (syncUp_load_reads _ _ _ _ _ _ _ _ _ Hload') as [Hls' Hs'].
  rewrite syncUp_files in Hls'. rewrite <- Hls in Hls'. subst ls'.
  rewrite Hfile in Hs'. simpl in Hs'. subst s'.
  pose proof (within_tick _ _ w (syncUp_load_within fuel false syncProjects)) as Htick.
  set (w1 := world (syncUp_load fuel false syncProjects w)) in *.
  set (w' := world (syncUp fuel false false syncProjects w)) in *.
  set (w2 := world (syncUp_load fuel' false syncProjects' w')).
  assert (issue_files w2 = issue_files w) as Hfiles2.
  { unfold w2. rewrite syncUp_load_files. apply syncUp_files. }
  assert (issue_files w1 = issue_files w) as Hfiles1 by apply syncUp_load_files.
  assert (forall l, l ∈ ls ->
            quiet (issue_files w2) remoteMap' (issues st1.1 !! number l) l = true)
    as Hquiet.
  { intros l Hl. rewrite Hfiles2.
    destruct (push_loop_summary _ _ _ _ _ _ _ (number l) Hloop)
      as [(r & t & Hr & Ht & Hle)|(Hsame & Hnone & Hq)].
    - unfold quiet. destruct (remoteMap' !! number l) as [remote'|]; [|done].
      rewrite Hr. cbv zeta. rewrite localModified_of_spec.
      assert (match mtime <$> issue_files w !! number l with
              | Some t0 => Js.gt t0 (last_synced_at r)
              | None => false
              end = false) as ->; [|by rewrite andb_false_r].
      destruct (issue_files w !! number l) as [file|] eqn:Efile; [|done].
      simpl. rewrite Ht. apply gt_false_le. apply (Hclock _ _ _ Efile). lia.
    - rewrite (quiet_remote _ remoteMap).
      + rewrite (quiet_same_times _ _ _ _ _ Hsame), <- Hfiles1. by apply Hq.
      + apply Hremote. intros p He.
        rewrite (syncUp_loop_events _ _ _ _ _ _ _ _ _ _ _ Hload) in He by done.
        by apply Hnone. }
  destruct (push_loop_quiet repo' proj' remoteMap' ls (st1.1, 0%nat) w2 Hquiet)
    as [Hnone2 Hcount2].
  split.
  - intros p He. unfold second in He.
    rewrite (syncUp_loop_events _ _ _ _ _ _ _ _ _ _ _ Hload') in He by done.
    by apply Hnone2 in He.
  - intros k He. unfold second in He.
    destruct (syncUp_run _ false _ _ _ _ _ _ _ _ Hload') as (_ & _ & Hev).
    rewrite Hev in He. apply elem_of_app in He as [He|He].
    { eapply within_events in He; [|apply syncUp_load_within]. done. }
    apply events_bind_inv in He as [He|(st2 & Hst2 & He)].
    { eapply within_events in He; [|apply push_loop_within]. done. }
    apply Hcount2 in Hst2. simpl in Hst2.
    unfold syncUp_finish in He.
    apply events_bind_inv in He as [He|([] & _ & He)].
    { eapply within_events in He; [|apply (saveSyncState_within saveSyncState_ev)];
        done. }
    apply list_elem_of_singleton in He. injection He as ->. done.
Qed.


(** * Further properties *)

(** ** Objects as ordered dictionaries *)




Lemma get_None {V} k (o : list (string * V)) : Js.get k o = None <-> k ∉ o.*1.
Proof.
  induction o as [|[k' v'] o IH]; simpl.
  - split; [intros _; apply not_elem_of_nil|done].
  - rewrite not_elem_of_cons. case_bool_decide as E.
    + split; [done|]. intros [Hne _]. by subst.
    + split; [intros Hg; split; [congruence|by apply IH]|intros [_ Hk]; by apply IH].
Qed.











(** ** project.ts: the values of the custom fields *)







(** The value read from a field-value node is never a falsy one other
    than null: the number 0 and the empty string are read as null (or as
    the next component of the node that is truthy). *)
Theorem field_value_falsy fv :
  field_value fv ≠ PFNumber 0
  /\ field_value fv ≠ PFString ""
  /\ (field_value fv = PFNull <->
      Js.or_null (fv_name fv) = None /\ Js.or_null (fv_text fv) = None
      /\ Js.or_null (fv_date fv) = None
      /\ (fv_number fv = None \/ fv_number fv = Some 0%Z)
      /\ Js.or_null (fv_title fv) = None).
Proof.
  unfold field_value.
  destruct (fv_name fv) as [[|? ?]|], (fv_text fv) as [[|? ?]|],
    (fv_date fv) as [[|? ?]|], (fv_number fv) as [[| |]|],
    (fv_title fv) as [[|? ?]|]; simpl;
    (split_and!; [done|done|]); split;
      first [done | by intros (? & ? & ? & [?|?] & ?) | by auto 10].
Qed.

(** ** project.ts: the mutation of a custom field *)

(** The change a mutation may carry for a value and a field: a null value
    clears; otherwise the change is the one of the field's type, and a
    single-select option or an iteration is named by the id of an option
    of the field whose name is the value. *)
Definition change_of (field : ProjectField) (value : ProjectFieldValue)
    (c : FieldChange) : Prop :=
  match c with
  | ClearValue => value = PFNull
  | SetText v => value ≠ PFNull /\ dataType field = TEXT /\ v = value
  | SetNumber v => value ≠ PFNull /\ dataType field = NUMBER /\ v = value
  | SetDate v => value ≠ PFNull /\ dataType field = DATE /\ v = value
  | SetSingleSelectOption i =>
      dataType field = SINGLE_SELECT
      /\ exists opt, opt ∈ default [] (options field)
                     /\ option_id opt = i /\ PFString (option_name opt) = value
  | SetIteration i =>
      dataType field = ITERATION
      /\ exists opt, opt ∈ default [] (options field)
                     /\ option_id opt = i /\ PFString (option_name opt) = value
  end.

Lemma find_by_name (value : ProjectFieldValue) (opts : list ProjectFieldOption) opt :
  List.find (fun opt => bool_decide (PFString (option_name opt) = value)) opts = Some opt ->
  opt ∈ opts /\ PFString (option_name opt) = value.
Proof.
  intros [Hin Hv]%find_some. split; [by apply list_elem_of_In|].
  by apply bool_decide_eq_true in Hv.
Qed.

(** [updateProjectField] sends at most one mutation, for the project, the
    item and the field it was given, with the change that fits the value
    and the type of the field; it returns normally only after having sent
    it; when the value is not null, whatever fails (an option that is not
    one of the field's, a type without mutation, a rejected request) is
    thrown as a failure to update the field. *)
Theorem updateProjectField_spec projectId itemId fieldId field value w :
  let r := updateProjectField projectId itemId fieldId field value w in
  (events r = []
   \/ exists c,
        events r = [MutateProjectField {| m_projectId := projectId; m_itemId := itemId;
                                          m_fieldId := fieldId; m_change := c |}]
        /\ change_of field value c)
  /\ (outcome r = Ok tt -> events r <> [])
  /\ (forall e, outcome r = Throw e -> value ≠ PFNull ->
        exists cause, e = FailedToUpdateProjectField cause)
  /\ outcome r ≠ Diverge.
Proof.
  cbv zeta. unfold updateProjectField. cbv zeta.
  set (by_name := List.find _ _).
  assert (forall opt, by_name = Some opt ->
            opt ∈ default [] (options field) /\ PFString (option_name opt) = value)
    as Hfind by apply find_by_name.
  unfold try_catch, mbind, M_bind, await, interact, emit, mret, M_ret, throw.
  destruct value as [s|z|];
    [destruct (dataType field) eqn:Edt; [| | |destruct by_name as [opt|] eqn:Eo
                                             |destruct by_name as [opt|] eqn:Eo|]..|];
    simpl;
    try (destruct (Hfind _ eq_refl) as [Hin Hname]);
    lazymatch goal with
    | |- context [gql_mutate env (tick w) ?m] =>
        destruct (gql_mutate env (tick w) m); simpl
    | _ => idtac
    end;
    split_and!;
    first [done
          | by intros ? [= <-]; eauto
          | by intros ? [=]
          | right; eexists; split; [reflexivity|]; simpl; eauto 10
          | by left
          | idtac].
Qed.

Lemma bind_ret {A} (m : M A) w : (m ≫= mret) w = m w.
Proof.
  unfold mbind, M_bind. cbv zeta.
  destruct (m w) as [[a|e|] w' evs]; simpl; by rewrite ?app_nil_r.
Qed.

(** ** project.ts: the items of the issues *)

(** The item of the project among the project items GitHub lists for an
    issue: the first one whose project has the number asked for. *)
Definition item_of (projectNumber : N) (issueNum : N) (answer : option RawIssueData)
    : option ProjectItem :=
  issueData ← answer;
  projectItem ← List.find
    (fun item => bool_decide (rpi_project_number item = Some projectNumber))
    (default [] (rid_projectItems issueData));
  Some (convert_item issueNum projectItem).

Lemma store_batch_fold projectNumber batch result itemsMap :
  store_batch projectNumber batch result itemsMap =
  foldl (fun m '(idx, issueNum) =>
           match item_of projectNumber issueNum (mjoin (result !! idx)) with
           | Some item => <[issueNum := item]> m
           | None => m
           end)
        itemsMap (imap (fun idx issueNum => (idx, issueNum)) batch).
Proof.
  unfold store_batch.
  generalize (imap (fun idx issueNum => (idx, issueNum)) batch). intros l.
  revert itemsMap. induction l as [|[idx issueNum] l IH]; intros itemsMap; [done|].
  cbn [foldl]. rewrite IH. f_equal. unfold item_of.
  destruct (mjoin (result !! idx)) as [issueData|]; simpl; [|done].
  by destruct (List.find _ _).
Qed.






(** [getProjectItemForIssue] always returns normally, after one request
    for the issue alone: with the item of the project among the project
    items of the issue, or with null when there is none or when the
    request is rejected, which it reports by a warning. *)
Theorem getProjectItemForIssue_spec pn o repo n w :
  let r := getProjectItemForIssue pn o repo n w in
  match gql_projectItems env (tick w) repo [n] with
  | Resolve result =>
      outcome r = Ok (item_of pn n (mjoin (result !! 0%nat)))
      /\ events r = [QueryProjectItems repo [n]]
  | Reject msg =>
      outcome r = Ok None
      /\ events r = [QueryProjectItems repo [n]; Console (WFailedBatch (Rejected msg))]
  end.
Proof.
  intros r.
  assert (forall w, getProjectItemsForIssues_from pn repo [n] 0 ∅ w
                    = fetch_batch pn repo [n] ∅ w) as Hstep.
  { intros w'. rewrite getProjectItemsForIssues_from_step.
    rewrite decide_True by (simpl; lia).
    rewrite <- (bind_ret (fetch_batch pn repo [n] ∅) w').
    apply bind_ext. intros m' w''. rewrite getProjectItemsForIssues_from_step.
    by rewrite decide_False by (unfold batchSize; simpl; lia). }
  assert (r = (fetch_batch pn repo [n] ∅ ≫= fun itemsMap => mret (itemsMap !! n)) w)
    as ->.
  { unfold r, getProjectItemForIssue, getProjectItemsForIssues.
    unfold mbind, M_bind. cbv zeta. by rewrite !Hstep. }
  unfold fetch_batch, try_catch, mbind, M_bind, await, interact, emit, log, emit,
    mret, M_ret, throw.
  simpl. destruct (gql_projectItems env (tick w) repo [n]) as [result|msg]; simpl.
  - split; [|done]. f_equal. rewrite store_batch_fold. simpl.
    destruct (item_of pn n (mjoin (result !! 0%nat))); [apply lookup_insert_eq|done].
  - done.
Qed.

(** ** project.ts: the project configuration *)

(** The world one interaction later. *)
Definition next (w : World) : World :=
  {| tick := S (tick w); issue_files := issue_files w;
     state_file := state_file w; config_file := config_file w |}.

Lemma emit_bind {B} e (k : unit -> M B) w :
  (emit e ≫= k) w = mkRun (outcome (k tt w)) (world (k tt w)) (e :: events (k tt w)).
Proof. done. Qed.

Lemma interact_bind {A B} (f : nat -> A) (k : A -> M B) w :
  (interact f ≫= k) w = k (f (tick w)) (next w).
Proof. unfold mbind, M_bind. simpl. apply run_eta. Qed.

Lemma await_bind {A B} (f : nat -> Answer A) (k : A -> M B) w :
  (await f ≫= k) w =
  match f (tick w) with
  | Resolve a => k a (next w)
  | Reject msg => mkRun (Throw (Rejected msg)) (next w) []
  end.
Proof.
  unfold await. rewrite bind_assoc, interact_bind.
  destruct (f (tick w)); [apply ret_bind|done].
Qed.

(** The two guarded blocks of [getOrCreateProjectConfig]: the display of
    the detected project and the write of the configuration. *)
Lemma show_detected_run (d : ProjectConfig) w :
  let r := try_catch
    (emit (QueryProjectTitle (project_number d) (owner d));;
     projectTitle ← await (fun t => gql_projectTitle env t (project_number d) (owner d));
     log (LAutoDetected (project_number d) (Js.or_null projectTitle)))
    (fun _ => log (LAutoDetected (project_number d) None)) w in
  outcome r = Ok tt /\ world r = next w
  /\ exists t, events r = [QueryProjectTitle (project_number d) (owner d);
                           Console (LAutoDetected (project_number d) t)].
Proof.
  cbv zeta. unfold try_catch. rewrite emit_bind, await_bind.
  destruct (gql_projectTitle env (tick w) _ _) as [t|msg]; simpl; eauto.
Qed.

Lemma fs_call_run e w :
  fs_call e w =
  if fs_ok env (tick w) then mkRun (Ok (tick w)) (next w) [e]
  else mkRun (Throw (Rejected "file system")) (next w) [e].
Proof.
  unfold fs_call. rewrite emit_bind, interact_bind.
  by destruct (fs_ok env (tick w)).
Qed.

Lemma saveConfig_run c w :
  saveConfig c w =
  if fs_ok env (tick w)
  then mkRun (Ok tt)
             {| tick := S (tick w); issue_files := issue_files w;
                state_file := state_file w; config_file := Some c |}
             [WriteConfigFile c]
  else mkRun (Throw (Rejected "file system")) (next w) [WriteConfigFile c].
Proof.
  unfold saveConfig, mbind, M_bind. cbv zeta. rewrite fs_call_run.
  by destruct (fs_ok env (tick w)).
Qed.

Lemma save_detected_run (c : Config) w :
  let r := try_catch (saveConfig c;; log LSavedConfig)
                     (fun e => log (WFailedToSaveConfig e)) w in
  outcome r = Ok tt
  /\ (if fs_ok env (tick w)
      then config_file (world r) = Some c
           /\ events r = [WriteConfigFile c; Console LSavedConfig]
      else config_file (world r) = config_file w
           /\ events r = [WriteConfigFile c;
                          Console (WFailedToSaveConfig (Rejected "file system"))]).
Proof.
  cbv zeta. unfold try_catch, mbind, M_bind. cbv zeta. rewrite saveConfig_run.
  by destruct (fs_ok env (tick w)).
Qed.

(** The run of [getOrCreateProjectConfig], by cases. *)
Lemma getOrCreateProjectConfig_run o repo w :
  let r := getOrCreateProjectConfig o repo w in
  match config_file w ≫= project with
  | Some p => r = mkRun (Ok (Some p)) w []
  | None =>
      match gql_detectProject env (tick w) o repo with
      | None =>
          outcome r = Ok None /\ events r = [QueryDetectProject o repo]
          /\ config_file (world r) = config_file w
      | Some d =>
          outcome r = Ok (Some d)
          /\ exists t,
               if fs_ok env (S (S (tick w)))
               then config_file (world r) = Some {| project := Some d |}
                    /\ events r =
                         [QueryDetectProject o repo;
                          QueryProjectTitle (project_number d) (owner d);
                          Console (LAutoDetected (project_number d) t);
                          WriteConfigFile {| project := Some d |};
                          Console LSavedConfig]
               else config_file (world r) = config_file w
                    /\ events r =
                         [QueryDetectProject o repo;
                          QueryProjectTitle (project_number d) (owner d);
                          Console (LAutoDetected (project_number d) t);
                          WriteConfigFile {| project := Some d |};
                          Console (WFailedToSaveConfig (Rejected "file system"))]
      end
  end.
Proof.
  cbv zeta. unfold getOrCreateProjectConfig.
  rewrite (bind_read get_world _ w w) by done.
  destruct (config_file w ≫= project) as [p|]; [done|].
  rewrite emit_bind, interact_bind.
  destruct (gql_detectProject env (tick w) o repo) as [d|]; [|done].
  destruct (show_detected_run d (next w)) as (Hok1 & Hw1 & t & Hev1).
  cbv zeta in Hok1, Hw1, Hev1.
  rewrite (bind_ok _ _ _ _ Hok1), Hw1, Hev1. cbn [outcome world events].
  destruct (save_detected_run {| project := Some d |} (next (next w))) as (Hok2 & Hrest).
  cbv zeta in Hok2, Hrest.
  rewrite (bind_ok _ _ _ _ Hok2). cbn [mret M_ret outcome world events].
  split; [done|]. exists t. change (tick (next (next w))) with (S (S (tick w))) in Hrest.
  destruct (fs_ok env (S (S (tick w)))); destruct Hrest as [Hc ->];
    (split; [done|]); simpl; by rewrite ?app_nil_r.
Qed.

(** [getOrCreateProjectConfig] always returns normally.  A project found
    in the configuration file is returned as it is, enabled or not,
    without any request, message or write.  The configuration file is
    written only when it names no project and one is detected, and then
    with the detected project, which is also what is returned. *)
Theorem getOrCreateProjectConfig_spec o repo w :
  let r := getOrCreateProjectConfig o repo w in
  (exists c, outcome r = Ok c)
  /\ (forall p, config_file w ≫= project = Some p -> r = mkRun (Ok (Some p)) w [])
  /\ (forall c, WriteConfigFile c ∈ events r ->
        config_file w ≫= project = None
        /\ exists d, gql_detectProject env (tick w) o repo = Some d
                     /\ c = {| project := Some d |}
                     /\ outcome r = Ok (Some d)).
Proof.
  intros r. pose proof (getOrCreateProjectConfig_run o repo w) as Hrun.
  cbv zeta in Hrun. fold r in Hrun.
  destruct (config_file w ≫= project) as [p|].
  { rewrite Hrun. split_and!; [by eexists|by intros ? [= <-]|by intros c ?%elem_of_nil]. }
  destruct (gql_detectProject env (tick w) o repo) as [d|].
  - destruct Hrun as (Hok & t & Hrest). split_and!; [by eexists|done|].
    intros c Hc. split; [done|]. exists d. split_and!; [done| |done].
    destruct (fs_ok env _); destruct Hrest as [_ Hev]; rewrite Hev in Hc;
      repeat (apply elem_of_cons in Hc as [Hc|Hc];
              [first [discriminate Hc|by injection Hc as <-]|]);
      by apply elem_of_nil in Hc.
  - destruct Hrun as (Hok & Hev & _). split_and!; [by eexists|done|].
    intros c Hc. rewrite Hev in Hc. by apply list_elem_of_singleton in Hc.
Qed.

(** Once [getOrCreateProjectConfig] has reported that it saved the
    configuration, a later call, for whatever repository, returns the
    same project without detecting it again. *)
Theorem getOrCreateProjectConfig_saved o repo w o' repo' :
  Console LSavedConfig ∈ events (getOrCreateProjectConfig o repo w) ->
  exists d,
    outcome (getOrCreateProjectConfig o repo w) = Ok (Some d)
    /\ getOrCreateProjectConfig o' repo' (world (getOrCreateProjectConfig o repo w))
       = mkRun (Ok (Some d)) (world (getOrCreateProjectConfig o repo w)) [].
Proof.
  pose proof (getOrCreateProjectConfig_run o repo w) as Hrun.
  cbv zeta in Hrun.
  destruct (config_file w ≫= project) as [p|].
  { rewrite Hrun. by intros ?%elem_of_nil. }
  destruct (gql_detectProject env (tick w) o repo) as [d|].
  - destruct Hrun as (Hok & t & Hrest). intros Hc. exists d. split; [done|].
    destruct (fs_ok env _); destruct Hrest as [Hfile Hev]; rewrite Hev in Hc.
    + pose proof (getOrCreateProjectConfig_run o' repo'
                    (world (getOrCreateProjectConfig o repo w))) as Hrun'.
      cbv zeta in Hrun'. by rewrite Hfile in Hrun'.
    + repeat (apply elem_of_cons in Hc as [Hc|Hc]; [discriminate Hc|]).
      by apply elem_of_nil in Hc.
  - destruct Hrun as (_ & Hev & _). intros Hc. rewrite Hev in Hc.
    by apply list_elem_of_singleton in Hc.
Qed.

(** ** gh.ts: the issues fetched *)

Lemma trimEnd_idem s : Js.trimEnd (Js.trimEnd s) = Js.trimEnd s.
Proof.
  induction s as [|c s IH]; [done|].
  cbn [Js.trimEnd]. destruct (Js.trimEnd s) as [|d t] eqn:E.
  - destruct (Js.is_ws c) eqn:Ec; [done|]. simpl. by rewrite Ec.
  - change (Js.trimEnd (String c (String d t)))
      with (match Js.trimEnd (String d t) with
            | EmptyString => if Js.is_ws c then EmptyString else String c EmptyString
            | t' => String c t'
            end).
    by rewrite IH.
Qed.

Lemma trimStart_head s :
  Js.trimStart s = EmptyString
  \/ exists c t, Js.trimStart s = String c t /\ Js.is_ws c = false.
Proof.
  induction s as [|c s IH]; [by left|].
  simpl. destruct (Js.is_ws c) eqn:Ec; [done|]. right. by exists c, s.
Qed.

Lemma trimEnd_head c s :
  Js.is_ws c = false -> exists t, Js.trimEnd (String c s) = String c t.
Proof.
  intros Hc. cbn [Js.trimEnd]. destruct (Js.trimEnd s); [|by eexists].
  rewrite Hc. by eexists.
Qed.

Lemma trim_idem s : Js.trim (Js.trim s) = Js.trim s.
Proof.
  unfold Js.trim. destruct (trimStart_head s) as [->|(c & t & -> & Hc)]; [done|].
  destruct (trimEnd_head c t Hc) as [u Hu]. rewrite Hu at 1.
  cbn [Js.trimStart]. rewrite Hc, <- Hu. apply trimEnd_idem.
Qed.

Lemma or_null_not_empty (o : option string) : Js.or_null o ≠ Some "".
Proof. by destruct o as [[|c s]|]. Qed.

(** What [issue_of_raw] keeps: an issue fit for the local store. *)
Lemma issue_of_raw_normal raw :
  let issue := issue_of_raw raw in
  body issue = Js.trim (body issue)
  /\ milestone issue ≠ Some "" /\ closed_at issue ≠ Some ""
  /\ project_fields issue = None.
Proof.
  cbv zeta. unfold issue_of_raw. simpl.
  split_and!; [by rewrite trim_idem|apply or_null_not_empty..|done].
Qed.

Lemma fetchIssues_from_Forall (P : Issue -> Prop) fuel repo includeClosed updatedSince
    page allIssues w l :
  (forall t page data raw,
     rest_listForRepo env t (list_params repo includeClosed updatedSince page)
       = Resolve data ->
     raw ∈ data -> raw_pull_request raw = false -> P (issue_of_raw raw)) ->
  Forall P allIssues ->
  outcome (fetchIssues_from fuel repo includeClosed updatedSince page allIssues w) = Ok l ->
  Forall P l.
Proof.
  intros HP. revert page allIssues w.
  induction fuel as [|fuel IH]; intros page allIssues w Hacc; [done|].
  cbn [fetchIssues_from]. cbv zeta. rewrite emit_bind, await_bind.
  destruct (rest_listForRepo env (tick w) _) as [data|msg] eqn:Ed; [|done].
  cbn [outcome world events].
  destruct (Nat.eqb _ _); [by intros [= <-]|].
  assert (Forall P (allIssues ++
            map issue_of_raw (filter (fun i => raw_pull_request i = false) data)))
    as Hacc'.
  { apply Forall_app. split; [done|]. apply Forall_forall.
    intros issue (raw & -> & [Hpr Hin]%list_elem_of_filter)%list_elem_of_fmap.
    by eapply HP. }
  destruct (Nat.ltb _ _); [by intros [= <-]|].
  by apply IH.
Qed.

(** Every issue [fetchIssues] returns is the conversion of an item that
    is not a pull request, listed in the answer to one of its requests;
    its body is trimmed, its milestone and its closing time are null or
    not empty, and it has no project fields yet. *)
Theorem fetchIssues_issues fuel repo includeClosed updatedSince w l :
  outcome (fetchIssues fuel repo includeClosed updatedSince w) = Ok l ->
  forall issue, issue ∈ l ->
    (exists t page data raw,
       rest_listForRepo env t (list_params repo includeClosed updatedSince page)
         = Resolve data
       /\ raw ∈ data /\ raw_pull_request raw = false /\ issue = issue_of_raw raw)
    /\ body issue = Js.trim (body issue)
    /\ milestone issue ≠ Some "" /\ closed_at issue ≠ Some ""
    /\ project_fields issue = None.
Proof.
  intros Hok. apply Forall_forall.
  eapply (fetchIssues_from_Forall _ fuel repo includeClosed updatedSince 1 [] w);
    [|done|exact Hok].
  intros t page data raw Hd Hin Hpr.
  split; [by exists t, page, data, raw|apply issue_of_raw_normal].
Qed.

(** One page of [fetchIssues]: the request, and its answer when it is
    resolved. *)
Lemma fetchIssues_from_step fuel repo includeClosed updatedSince page allIssues w data :
  rest_listForRepo env (tick w) (list_params repo includeClosed updatedSince page)
    = Resolve data ->
  let w' := next w in
  let allIssues' :=
    allIssues ++ map issue_of_raw (filter (fun i => raw_pull_request i = false) data) in
  let ev := CallListForRepo (list_params repo includeClosed updatedSince page) in
  fetchIssues_from (S fuel) repo includeClosed updatedSince page allIssues w =
    if Nat.ltb (length data) 100 then mkRun (Ok allIssues') w' [ev]
    else
      let r := fetchIssues_from fuel repo includeClosed updatedSince (S page) allIssues' w' in
      mkRun (outcome r) (world r) (ev :: events r).
Proof.
  intros Hd. cbv zeta. cbn [fetchIssues_from]. cbv zeta.
  rewrite emit_bind, await_bind, Hd.
  destruct data as [|raw data]; [by rewrite app_nil_r|].
  cbn [length Nat.eqb]. by destruct (Nat.ltb _ _).
Qed.

Lemma fetchIssues_from_pages fuel repo includeClosed updatedSince page allIssues w
    full final :
  (forall i data,
     (full ++ [final]) !! i = Some data ->
     rest_listForRepo env (tick w + i)
       (list_params repo includeClosed updatedSince (page + i)) = Resolve data) ->
  Forall (fun data => 100 <= length data)%nat full ->
  (length final < 100)%nat ->
  (length full < fuel)%nat ->
  let r := fetchIssues_from fuel repo includeClosed updatedSince page allIssues w in
  outcome r
    = Ok (allIssues ++
          map issue_of_raw
              (filter (fun i => raw_pull_request i = false) (concat (full ++ [final]))))
  /\ events r
     = imap (fun i _ =>
               CallListForRepo (list_params repo includeClosed updatedSince (page + i)))
            (full ++ [final])
  /\ tick (world r) = (tick w + S (length full))%nat.
Proof.
  revert fuel page allIssues w.
  induction full as [|data full IH]; intros fuel page allIssues w Hans Hfull Hfinal Hfuel;
    (destruct fuel as [|fuel]; [simpl in Hfuel; lia|]); cbv zeta.
  - rewrite (fetchIssues_from_step _ _ _ _ _ _ _ final).
    + cbv zeta. apply Nat.ltb_lt in Hfinal. rewrite Hfinal. simpl.
      rewrite app_nil_r, Nat.add_0_r. split_and!; [done..|lia].
    + specialize (Hans 0%nat final eq_refl). by rewrite !Nat.add_0_r in Hans.
  - apply Forall_cons in Hfull as [Hdata Hfull].
    rewrite (fetchIssues_from_step _ _ _ _ _ _ _ data).
    + cbv zeta. apply Nat.ltb_ge in Hdata. rewrite Hdata.
      cbn [outcome world events].
      destruct (IH fuel (S page)
                  (allIssues ++ map issue_of_raw
                     (filter (fun i => raw_pull_request i = false) data))
                  (next w))
        as (Hout & Hev & Htick); [|done|done|simpl in Hfuel; lia|].
      { intros i d Hi. specialize (Hans (S i) d Hi). simpl.
        by rewrite <- !Nat.add_succ_r, <- plus_n_Sm in *. }
      cbv zeta in Hout, Hev, Htick. rewrite Hout, Hev, Htick.
      split_and!.
      * simpl. by rewrite filter_app, map_app, app_assoc.
      * simpl. rewrite Nat.add_0_r. f_equal. apply imap_ext.
        intros i d _. simpl. by rewrite Nat.add_succ_r.
      * simpl. lia.
    + specialize (Hans 0%nat data eq_refl). by rewrite !Nat.add_0_r in Hans.
Qed.

(** [fetchIssues] asks for the pages 1, 2, ... in turn, with the same
    parameters, until a page has fewer than 100 items; it returns the
    conversions of the items of all those pages that are not pull
    requests, in the order of the answers. *)
Theorem fetchIssues_pages fuel repo includeClosed updatedSince w full final :
  (forall i data,
     (full ++ [final]) !! i = Some data ->
     rest_listForRepo env (tick w + i)
       (list_params repo includeClosed updatedSince (S i)) = Resolve data) ->
  Forall (fun data => 100 <= length data)%nat full ->
  (length final < 100)%nat ->
  (length full < fuel)%nat ->
  let r := fetchIssues fuel repo includeClosed updatedSince w in
  outcome r
    = Ok (map issue_of_raw
              (filter (fun i => raw_pull_request i = false) (concat (full ++ [final]))))
  /\ events r
     = imap (fun i _ => CallListForRepo (list_params repo includeClosed updatedSince (S i)))
            (full ++ [final])
  /\ tick (world r) = (tick w + S (length full))%nat.
Proof.
  intros Hans Hfull Hfinal Hfuel.
  exact (fetchIssues_from_pages fuel repo includeClosed updatedSince 1 [] w full final
           Hans Hfull Hfinal Hfuel).
Qed.

(** The pages before a rejected request, from any page on. *)
Lemma fetchIssues_from_rejected fuel repo includeClosed updatedSince page allIssues w
    full msg :
  (forall i data,
     full !! i = Some data ->
     rest_listForRepo env (tick w + i)
       (list_params repo includeClosed updatedSince (page + i)) = Resolve data) ->
  Forall (fun data => 100 <= length data)%nat full ->
  rest_listForRepo env (tick w + length full)
    (list_params repo includeClosed updatedSince (page + length full)) = Reject msg ->
  (length full < fuel)%nat ->
  outcome (fetchIssues_from fuel repo includeClosed updatedSince page allIssues w)
    = Throw (Rejected msg).
Proof.
  revert fuel page allIssues w.
  induction full as [|data full IH]; intros fuel page allIssues w Hans Hfull Hrej Hfuel;
    (destruct fuel as [|fuel]; [simpl in Hfuel; lia|]).
  - simpl in Hrej. rewrite !Nat.add_0_r in Hrej.
    cbn [fetchIssues_from]. cbv zeta. rewrite emit_bind, await_bind.
    by rewrite Hrej.
  - apply Forall_cons in Hfull as [Hdata Hfull].
    rewrite (fetchIssues_from_step _ _ _ _ _ _ _ data).
    + cbv zeta. apply Nat.ltb_ge in Hdata. rewrite Hdata.
      cbn [outcome world events].
      apply IH; [|done| |simpl in Hfuel; lia].
      * intros i d Hi. specialize (Hans (S i) d Hi). simpl.
        by rewrite <- !Nat.add_succ_r, <- plus_n_Sm in *.
      * simpl in Hrej |- *. by rewrite <- !Nat.add_succ_r, <- plus_n_Sm in *.
    + specialize (Hans 0%nat data eq_refl). by rewrite !Nat.add_0_r in Hans.
Qed.

(** A request of [fetchIssues] that is rejected ends it: when the pages
    before it were full and the next request is rejected, the rejection
    is thrown as it is, and the issues of the earlier pages are not
    returned. *)
Theorem fetchIssues_rejected fuel repo includeClosed updatedSince w full msg :
  (forall i data,
     full !! i = Some data ->
     rest_listForRepo env (tick w + i)
       (list_params repo includeClosed updatedSince (S i)) = Resolve data) ->
  Forall (fun data => 100 <= length data)%nat full ->
  rest_listForRepo env (tick w + length full)
    (list_params repo includeClosed updatedSince (S (length full))) = Reject msg ->
  (length full < fuel)%nat ->
  outcome (fetchIssues fuel repo includeClosed updatedSince w) = Throw (Rejected msg).
Proof.
  intros Hans Hfull Hrej Hfuel.
  exact (fetchIssues_from_rejected fuel repo includeClosed updatedSince 1 [] w full msg
           Hans Hfull Hrej Hfuel).
Qed.

(** ** gh.ts: the update of an issue *)

Definition with_milestone (p : UpdateParams) (ms : option (option N)) : UpdateParams := {|
  up_repo := up_repo p;
  up_issue_number := up_issue_number p;
  up_title := up_title p;
  up_body := up_body p;
  up_state := up_state p;
  up_labels := up_labels p;
  up_assignees := up_assignees p;
  up_milestone := ms |}.

(** The update request itself: sent once, its rejection rethrown as a
    failure to update the issue. *)
Definition update_call (n : N) (params : UpdateParams) (w : World) : Run unit :=
  mkRun match rest_update env (tick w) params with
        | Resolve _ => Ok tt
        | Reject msg => Throw (FailedToUpdateIssue n (Rejected msg))
        end
        (next w) [CallIssuesUpdate params].

Lemma update_call_run n params w :
  try_catch
    (emit (CallIssuesUpdate params);; await (fun t => rest_update env t params))
    (fun e => throw (FailedToUpdateIssue n e)) w
  = update_call n params w.
Proof.
  assert ((emit (CallIssuesUpdate params);; await (fun t => rest_update env t params)) w
          = mkRun match rest_update env (tick w) params with
                  | Resolve a => Ok a
                  | Reject msg => Throw (Rejected msg)
                  end (next w) [CallIssuesUpdate params]) as Hrun.
  { rewrite emit_bind. unfold await. rewrite interact_bind.
    by destruct (rest_update env (tick w) params). }
  unfold try_catch. cbv zeta. rewrite Hrun. unfold update_call.
  by destruct (rest_update env (tick w) params) as [[]|].
Qed.

(** The run of [updateIssue], by the milestone of the update. *)
Lemma updateIssue_run repo n updates w :
  updateIssue repo n updates w =
  match u_milestone updates with
  | None => update_call n (params_of repo n updates) w
  | Some None =>
      update_call n (with_milestone (params_of repo n updates) (Some None)) w
  | Some (Some t) =>
      match rest_listMilestones env (tick w) with
      | Resolve milestones =>
          let ms :=
            m ← List.find (fun m : string * N => bool_decide (m.1 = t)) milestones;
            Some (Some m.2) in
          let r := update_call n (with_milestone (params_of repo n updates) ms) (next w) in
          mkRun (outcome r) (world r) (CallListMilestones repo :: events r)
      | Reject msg => mkRun (Throw (Rejected msg)) (next w) [CallListMilestones repo]
      end
  end.
Proof.
  unfold updateIssue. destruct (u_milestone updates) as [[t|]|].
  - rewrite bind_assoc, emit_bind, bind_assoc, await_bind.
    destruct (rest_listMilestones env (tick w)) as [milestones|msg]; [|done].
    cbv zeta. destruct (List.find _ milestones) as [m|]; rewrite ret_bind;
      cbv zeta; by rewrite update_call_run.
  - rewrite ret_bind. cbv zeta. by rewrite update_call_run.
  - rewrite ret_bind. cbv zeta. by rewrite update_call_run.
Qed.

(** [updateIssue] sends at most one update request, for the issue and
    with the fields it was given.  A milestone is sent by its number: the
    number of the first milestone of the repository that bears the title;
    when none does, the request is sent without milestone.  A failure to
    list the milestones is thrown as it is, before any update request; a
    rejected update request is thrown as a failure to update the issue. *)
Theorem updateIssue_spec repo n updates w :
  let r := updateIssue repo n updates w in
  (forall p, CallIssuesUpdate p ∈ events r ->
     with_milestone p None = params_of repo n updates
     /\ match u_milestone updates with
        | None => up_milestone p = None
        | Some None => up_milestone p = Some None
        | Some (Some t) =>
            exists milestones,
              rest_listMilestones env (tick w) = Resolve milestones
              /\ up_milestone p =
                   (m ← List.find (fun m : string * N => bool_decide (m.1 = t)) milestones;
                    Some (Some m.2))
        end)
  /\ (outcome r = Ok tt -> exists p, CallIssuesUpdate p ∈ events r)
  /\ (forall e, outcome r = Throw e ->
        (exists msg, e = Rejected msg
                     /\ rest_listMilestones env (tick w) = Reject msg
                     /\ forall p, CallIssuesUpdate p ∉ events r)
        \/ (exists msg p, e = FailedToUpdateIssue n (Rejected msg)
                          /\ CallIssuesUpdate p ∈ events r))
  /\ outcome r ≠ Diverge.
Proof.
  intros r. unfold r. rewrite updateIssue_run. unfold update_call.
  destruct (u_milestone updates) as [[t|]|].
  - destruct (rest_listMilestones env (tick w)) as [milestones|msg]; cbv zeta.
    + cbn [outcome events]. split_and!.
      * intros p Hp. apply elem_of_cons in Hp as [[=]|Hp].
        apply list_elem_of_singleton in Hp as [= ->]. split; [done|]. by exists milestones.
      * intros _. eexists. right. left.
      * intros e He. right.
        destruct (rest_update _ _ _) as [|msg]; [done|]. injection He as <-.
        eexists _, _. split; [done|]. right. left.
      * by destruct (rest_update _ _ _).
    + cbn [outcome events]. split_and!; [|done| |done].
      * intros p Hp. by apply list_elem_of_singleton in Hp.
      * intros e [= <-]. left. exists msg. split_and!; [done..|].
        intros p Hp. by apply list_elem_of_singleton in Hp.
  - cbn [outcome events]. split_and!.
    + by intros p [= ->]%list_elem_of_singleton.
    + intros _. eexists. left.
    + intros e He. right.
      destruct (rest_update _ _ _) as [|msg]; [done|]. injection He as <-.
      eexists _, _. split; [done|]. left.
    + by destruct (rest_update _ _ _).
  - cbn [outcome events]. split_and!.
    + by intros p [= ->]%list_elem_of_singleton.
    + intros _. eexists. left.
    + intros e He. right.
      destruct (rest_update _ _ _) as [|msg]; [done|]. injection He as <-.
      eexists _, _. split; [done|]. left.
    + by destruct (rest_update _ _ _).
Qed.

(** ** sync.ts: what the two engines never do *)

Lemma bind_not_ok {A B} (m : M A) (k : A -> M B) w :
  (forall a, outcome (m w) ≠ Ok a) ->
  world ((m ≫= k) w) = world (m w)
  /\ events ((m ≫= k) w) = events (m w)
  /\ forall b, outcome ((m ≫= k) w) ≠ Ok b.
Proof.
  intros Hm. unfold mbind, M_bind. cbv zeta.
  destruct (outcome (m w)) as [a| |]; [by destruct (Hm a)|done..].
Qed.

(** The events of a pull. *)
Definition syncDown_ev (e : Event) : bool :=
  match e with
  | WriteIssueFile _ _ | WriteStateFile _ | Console LSyncComplete => true
  | _ => syncDown_fetch_ev e
  end.

Lemma syncDown_within fuel includeClosed fullSync syncProjects :
  within syncDown_ev (syncDown fuel includeClosed fullSync syncProjects).
Proof.
  unfold syncDown.
  apply within_bind.
  { eapply within_weaken; [apply syncDown_fetch_within|]. incl. }
  intros [[s remoteIssues] projectData].
  apply within_bind.
  { apply within_for_of. intros s' issue.
    eapply within_weaken; [apply syncDown_issue_within|]. incl. }
  intros s'. apply within_bind; [apply saveSyncState_within; incl|].
  intros _. by apply within_log.
Qed.

(** The requests that change the remote store. *)
Definition remote_write (e : Event) : bool :=
  match e with
  | CallIssuesUpdate _ | MutateProjectField _ => true
  | _ => false
  end.

(** Each engine works in one direction.  A pull sends no request that
    changes an issue or a project field on GitHub; a push, dry run or
    not, writes no local issue file: the file of an issue it has updated
    remotely is left as it was. *)
Theorem engines_one_way fuel includeClosed fullSync force dryRun syncProjects w :
  Forall (fun e => remote_write e = false)
         (events (syncDown fuel includeClosed fullSync syncProjects w))
  /\ issue_files (world (syncUp fuel force dryRun syncProjects w)) = issue_files w
  /\ Forall (fun e => forall n content, e ≠ WriteIssueFile n content)
            (events (syncUp fuel force dryRun syncProjects w)).
Proof.
  split_and!.
  - destruct (syncDown_within fuel includeClosed fullSync syncProjects w) as (_ & He & _).
    eapply Forall_impl; [exact He|].
    by intros [[]| | | | | | | | | | | | |].
  - apply syncUp_files.
  - destruct (syncUp_within fuel force dryRun syncProjects w) as (_ & He & _).
    eapply Forall_impl; [exact He|].
    intros e He' n content ->. by destruct dryRun.
Qed.

Lemma saveSyncState_run s w :
  saveSyncState s w =
  if fs_ok env (tick w)
  then mkRun (Ok tt)
             {| tick := S (tick w); issue_files := issue_files w;
                state_file := Some s; config_file := config_file w |}
             [WriteStateFile s]
  else mkRun (Throw (Rejected "file system")) (next w) [WriteStateFile s].
Proof.
  unfold saveSyncState, mbind, M_bind. cbv zeta. rewrite fs_call_run.
  by destruct (fs_ok env (tick w)).
Qed.

(** Writing the sync state is the last thing that can fail. *)
Lemma save_last (s : SyncState) (l : Log) w :
  let r := (saveSyncState s;; log l) w in
  outcome r = Ok tt \/ state_file (world r) = state_file w.
Proof.
  cbv zeta. unfold mbind, M_bind. cbv zeta. rewrite saveSyncState_run.
  destruct (fs_ok env (tick w)); [by left|by right].
Qed.

Lemma bind_or_frame {A B} (m : M A) (k : A -> M B) w (b : B) :
  state_file (world (m w)) = state_file w ->
  (forall a, outcome (m w) = Ok a ->
     outcome (k a (world (m w))) = Ok b
     \/ state_file (world (k a (world (m w)))) = state_file (world (m w))) ->
  outcome ((m ≫= k) w) = Ok b \/ state_file (world ((m ≫= k) w)) = state_file w.
Proof.
  intros Hm Hk. unfold mbind, M_bind. cbv zeta.
  destruct (outcome (m w)) as [a| |]; simpl; [|by right..].
  destruct (Hk a eq_refl) as [?|Hs]; [by left|right]. by rewrite Hs.
Qed.

(** The sync state is persisted only by a run that completes: a pull or
    a push that fails, at whatever point, leaves the state file as it
    found it, although issue files may have been written and update
    requests sent by then. *)
Theorem state_persisted_on_completion fuel includeClosed fullSync force dryRun
    syncProjects w :
  (outcome (syncDown fuel includeClosed fullSync syncProjects w) = Ok tt
   \/ state_file (world (syncDown fuel includeClosed fullSync syncProjects w))
      = state_file w)
  /\ (outcome (syncUp fuel force dryRun syncProjects w) = Ok tt
      \/ state_file (world (syncUp fuel force dryRun syncProjects w)) = state_file w).
Proof.
  split.
  - unfold syncDown. apply bind_or_frame.
    { destruct (syncDown_fetch_within fuel includeClosed fullSync syncProjects w)
        as (_ & _ & _ & Hs & _). by apply Hs. }
    intros [[s remoteIssues] projectData] _. apply bind_or_frame.
    { match goal with |- state_file (world (_ ?w1)) = _ =>
        destruct (within_for_of saveIssue_ev remoteIssues (syncDown_issue projectData) s
                    (fun s x => syncDown_issue_within projectData s x) w1)
          as (_ & _ & _ & Hs & _)
      end. by apply Hs. }
    intros s' _. apply save_last.
  - destruct dryRun.
    { right. destruct (syncUp_within fuel force true syncProjects w) as (_ & _ & _ & Hs & _).
      by apply Hs. }
    unfold syncUp. apply bind_or_frame.
    { destruct (syncUp_load_within fuel false syncProjects w) as (_ & _ & _ & Hs & _).
      by apply Hs. }
    intros [[[[repo ls] remoteMap] s] proj] _. apply bind_or_frame.
    { match goal with |- state_file (world (_ ?w1)) = _ =>
        destruct (push_loop_within force false repo proj remoteMap ls (s, 0%nat) w1)
          as (_ & _ & _ & Hs & _)
      end. by apply Hs. }
    intros st _. unfold syncUp_finish. apply save_last.
Qed.

(** ** sync.ts: the requests of a push *)

(** The update requests of the loop body of the push: none in a dry run,
    and otherwise at most the one that carries the fields on which the
    local issue differs from the remote one, when there is such a field.
    The milestones of the repository are never listed. *)
Lemma syncUp_push_requests dryRun repo proj remote syncInfo st l w e :
  e ∈ events (syncUp_push dryRun repo proj remote syncInfo st l w) ->
  match e with
  | CallListMilestones _ => False
  | CallIssuesUpdate p =>
      dryRun = false
      /\ p = params_of repo (number l) (updates_of l remote)
      /\ Object_keys (updates_of l remote) <> []
  | _ => True
  end.
Proof.
  unfold syncUp_push. cbv zeta. intros He.
  apply events_bind_inv in He as [He|(st' & _ & He)]; cycle 1.
  { apply events_bind_inv in He as [He|(s'' & _ & He)]; [|by apply elem_of_nil in He].
    eapply within_events in He; [|apply syncUp_fields_within].
    destruct e as [[]| | | | | | | | | | | | |]; try done; by destruct dryRun. }
  destruct (Object_keys (updates_of l remote)) as [|k ks] eqn:Ek;
    [by apply elem_of_nil in He|].
  change (Nat.ltb 0 (length (k :: ks))) with true in He. cbv iota in He.
  apply events_bind_inv in He as [He|(s' & _ & He)]; [|by apply elem_of_nil in He].
  destruct dryRun.
  - apply events_bind_inv in He as [He|(? & _ & He)]; [|by apply elem_of_nil in He].
    by apply list_elem_of_singleton in He as ->.
  - apply events_bind_inv in He as [He|(? & _ & He)];
      [by apply list_elem_of_singleton in He as ->|].
    apply events_bind_inv in He as [He|(? & _ & He)].
    + rewrite updateIssue_run in He. simpl in He.
      by apply list_elem_of_singleton in He as ->.
    + apply events_bind_inv in He as [He|(? & _ & He)]; [by apply elem_of_nil in He|].
      apply events_bind_inv in He as [He|(? & _ & He)]; by apply elem_of_nil in He.
Qed.

Lemma syncUp_issue_requests force dryRun repo proj remoteMap st l w e :
  e ∈ events (syncUp_issue force dryRun repo proj remoteMap st l w) ->
  match e with
  | CallListMilestones _ => False
  | CallIssuesUpdate p =>
      dryRun = false
      /\ exists remote,
           remoteMap !! number l = Some remote
           /\ p = params_of repo (number l) (updates_of l remote)
           /\ Object_keys (updates_of l remote) <> []
  | _ => True
  end.
Proof.
  destruct (remoteMap !! number l) as [remote|] eqn:Hr;
    [destruct (issues st.1 !! number l) as [syncInfo|] eqn:Hs|].
  - rewrite (syncUp_issue_run _ _ _ _ _ _ _ _ _ _ Hr Hs). cbv zeta.
    destruct (_ && _ && _); [by intros ->%list_elem_of_singleton|].
    destruct (negb _); [by intros ?%elem_of_nil|].
    intros He%syncUp_push_requests.
    destruct e as [[]| | | | | | | | | | | | |]; try done.
    destruct He as (-> & -> & Hk). split; [done|]. by exists remote.
  - unfold syncUp_issue. rewrite Hr, Hs. by intros ->%list_elem_of_singleton.
  - unfold syncUp_issue. rewrite Hr. by intros ->%list_elem_of_singleton.
Qed.

(** A push never lists the milestones of the repository, and every
    update request it sends is for a local issue that has a remote
    counterpart and carries exactly the fields, among title, body, state,
    labels and assignees, on which the two differ: at least one field,
    and never a milestone.  A dry run sends no update request. *)
Theorem push_requests fuel force dryRun syncProjects w repo ls remoteMap s proj :
  outcome (syncUp_load fuel dryRun syncProjects w) = Ok (repo, ls, remoteMap, s, proj) ->
  Forall (fun e =>
            match e with
            | CallListMilestones _ => False
            | CallIssuesUpdate p =>
                dryRun = false
                /\ exists l remote,
                     l ∈ ls /\ remoteMap !! number l = Some remote
                     /\ p = params_of repo (number l) (updates_of l remote)
                     /\ Object_keys (updates_of l remote) <> []
            | _ => True
            end)
         (events (syncUp fuel force dryRun syncProjects w)).
Proof.
  intros Hload. apply Forall_forall. intros e He.
  assert (match e with CallListMilestones _ | CallIssuesUpdate _ => True | _ => False end
          -> e ∈ events (for_of ls (syncUp_issue force dryRun repo proj remoteMap)
                           (s, 0%nat) (world (syncUp_load fuel dryRun syncProjects w))))
    as Hloop.
  { intros Hkind. apply (syncUp_loop_events _ force _ _ _ _ _ _ _ _ _ Hload); [..|done];
      destruct e as [[]| | | | | | | | | | | | |]; try done; by destruct dryRun. }
  destruct e as [[]| | | | | | | | | | | | |]; try done.
  - specialize (Hloop I).
    apply for_of_event in Hloop as (x & s1 & w1 & Hx & Hin).
    by apply syncUp_issue_requests in Hin.
  - specialize (Hloop I).
    apply for_of_event in Hloop as (x & s1 & w1 & Hx & Hin).
    apply syncUp_issue_requests in Hin as (-> & remote & Hr & -> & Hk).
    split; [done|]. by exists x, remote.
Qed.

(** ** sync.ts: the issues a push skips *)

(** Where a push that runs to its end deals with a local issue whose
    number no other local issue bears: in one run of the loop body, on
    the record and the files the push began with; the events of the push
    that are about the issue are events of that run, and the record the
    run leaves is the one the loop ends with. *)
Lemma push_at_issue fuel force dryRun syncProjects w repo ls remoteMap s proj l :
  outcome (syncUp_load fuel dryRun syncProjects w) = Ok (repo, ls, remoteMap, s, proj) ->
  outcome (syncUp fuel force dryRun syncProjects w) = Ok tt ->
  NoDup (number <$> ls) ->
  l ∈ ls ->
  exists st1 w1 st2 st',
    issues st1.1 !! number l = issues s !! number l
    /\ issue_files w1 = issue_files w
    /\ outcome (syncUp_issue force dryRun repo proj remoteMap st1 l w1) = Ok st2
    /\ outcome (for_of ls (syncUp_issue force dryRun repo proj remoteMap) (s, 0%nat)
                  (world (syncUp_load fuel dryRun syncProjects w))) = Ok st'
    /\ issues st'.1 !! number l = issues st2.1 !! number l
    /\ (forall e, e ∈ events (syncUp_issue force dryRun repo proj remoteMap st1 l w1) ->
          e ∈ events (syncUp fuel force dryRun syncProjects w))
    /\ (forall e, e ∈ events (syncUp fuel force dryRun syncProjects w) ->
          about e = Some (number l) ->
          e ∈ events (syncUp_issue force dryRun repo proj remoteMap st1 l w1)).
Proof.
  intros Hload Hok Hnd Hl.
  destruct (syncUp_loop_ok _ _ _ _ _ _ _ _ _ _ Hload Hok) as (st' & Hloop).
  destruct (syncUp_run _ force _ _ _ _ _ _ _ _ Hload) as (_ & _ & Hev).
  destruct (push_loop_at _ _ _ _ _ _ _ _ _ _ Hloop Hl Hnd)
    as (st1 & w1 & st2 & before & after & Hrec & Hfiles & _ & Hbody & Hlast
        & Hloop_ev & Hothers).
  simpl in Hrec. rewrite syncUp_load_files in Hfiles.
  exists st1, w1, st2, st'. split_and!; [done..| |].
  - intros e He. rewrite Hev. apply elem_of_app. right.
    apply events_bind_l. rewrite Hloop_ev. rewrite !elem_of_app. auto.
  - intros e He Habout. rewrite Hev in He. apply elem_of_app in He as [He|He].
    { by rewrite (syncUp_load_about _ _ _ _ _ He) in Habout. }
    apply events_bind_inv in He as [He|(st & _ & He)];
      [|by rewrite (syncUp_finish_about _ _ _ _ He) in Habout].
    rewrite Hloop_ev in He. rewrite app_assoc in He.
    apply elem_of_app in He as [He|He]; cycle 1.
    { destruct (Hothers e) as (x & s' & w' & Hx & Hin); [apply elem_of_app; by right|].
      eapply within_events in Hin; [|apply syncUp_issue_about].
      unfold about_only in Hin. rewrite Habout in Hin.
      apply bool_decide_eq_true in Hin. congruence. }
    apply elem_of_app in He as [He|He]; [|done].
    destruct (Hothers e) as (x & s' & w' & Hx & Hin); [apply elem_of_app; by left|].
    eapply within_events in Hin; [|apply syncUp_issue_about].
    unfold about_only in Hin. rewrite Habout in Hin.
    apply bool_decide_eq_true in Hin. congruence.
Qed.

(** The message with which the push passes over a local issue: it has no
    remote counterpart, or no record, or it is modified on both sides and
    the push is not forced. *)
Definition skip_line (force : bool) (files : gmap N LocalFile)
    (remoteMap : gmap N Issue) (s : SyncState) (l : Issue) : option Log :=
  match remoteMap !! number l with
  | None => Some (LNotFoundOnGithub (number l))
  | Some remote =>
      match issues s !! number l with
      | None => Some (LNoSyncHistory (number l))
      | Some syncInfo =>
          if remoteModified_of remote syncInfo
             && localModified_of (mtime <$> files !! number l) syncInfo
             && negb force
          then Some (LConflictDetected (number l))
          else None
      end
  end.

Lemma syncUp_issue_skip force dryRun repo proj remoteMap st l w line :
  skip_line force (issue_files w) remoteMap st.1 l = Some line ->
  syncUp_issue force dryRun repo proj remoteMap st l w = mkRun (Ok st) w [Console line].
Proof.
  unfold skip_line.
  destruct (remoteMap !! number l) as [remote|] eqn:Hr;
    [destruct (issues st.1 !! number l) as [syncInfo|] eqn:Hs|].
  - rewrite (syncUp_issue_run _ _ _ _ _ _ _ _ _ _ Hr Hs). cbv zeta.
    destruct (_ && _ && _); [by intros [= <-]|done].
  - unfold syncUp_issue. rewrite Hr, Hs. by intros [= <-].
  - unfold syncUp_issue. rewrite Hr. by intros [= <-].
Qed.

Lemma skip_line_ext force files files' remoteMap s s' l :
  files' = files -> issues s' !! number l = issues s !! number l ->
  skip_line force files' remoteMap s' l = skip_line force files remoteMap s l.
Proof. unfold skip_line. by intros -> ->. Qed.

(** A local issue the push passes over with a message is left alone on
    both sides: the message is the only event of the push that bears the
    number of the issue (no update request for it, no request for its
    project item, no other line about it) and the persisted record of
    the issue is the one the push found.  This is so for an issue without
    remote counterpart (the push creates no issue), for one without
    record, and for one in conflict. *)
Theorem push_skips fuel force dryRun syncProjects w repo ls remoteMap s proj l line :
  outcome (syncUp_load fuel dryRun syncProjects w) = Ok (repo, ls, remoteMap, s, proj) ->
  outcome (syncUp fuel force dryRun syncProjects w) = Ok tt ->
  NoDup (number <$> ls) ->
  l ∈ ls ->
  skip_line force (issue_files w) remoteMap s l = Some line ->
  Console line ∈ events (syncUp fuel force dryRun syncProjects w)
  /\ (forall e, e ∈ events (syncUp fuel force dryRun syncProjects w) ->
        about e = Some (number l) -> e = Console line)
  /\ (dryRun = false ->
      exists persisted,
        state_file (world (syncUp fuel force dryRun syncProjects w)) = Some persisted
        /\ issues persisted !! number l = issues s !! number l).
Proof.
  intros Hload Hok Hnd Hl Hskip.
  destruct (push_at_issue _ _ _ _ _ _ _ _ _ _ _ Hload Hok Hnd Hl)
    as (st1 & w1 & st2 & st' & Hrec & Hfiles & Hbody & Hloop & Hlast & Hin & Hout).
  rewrite <- (skip_line_ext force _ (issue_files w1) remoteMap s st1.1 l Hfiles Hrec)
    in Hskip.
  rewrite (syncUp_issue_skip _ _ _ _ _ _ _ _ _ Hskip) in Hbody, Hin, Hout.
  injection Hbody as <-. split_and!.
  - apply Hin. simpl. by left.
  - intros e He Habout. specialize (Hout e He Habout).
    by apply list_elem_of_singleton in Hout.
  - intros ->. destruct (syncUp_persists _ _ _ _ _ _ _ _ _ Hload Hok) as (st & Hst & Hfile).
    rewrite Hloop in Hst. injection Hst as <-.
    exists st'.1. split; [done|]. by rewrite Hlast.
Qed.

(** ** sync.ts: what a pull leaves *)

(** The file [saveIssue] writes for an issue. *)
Definition content_of (issue : Issue) : Text :=
  matter_stringify (body issue) {|
    fm_number := number issue;
    fm_title := title issue;
    fm_state := state issue;
    fm_labels := Some (labels issue);
    fm_assignees := Some (assignees issue);
    fm_milestone := milestone issue;
    fm_created_at := created_at issue;
    fm_updated_at := updated_at issue;
    fm_closed_at := closed_at issue;
    fm_project_fields :=
      match project_fields issue with
      | Some fields => if Nat.ltb 0 (length fields) then Some fields else None
      | None => None
      end |}.

Lemma saveIssue_run issue w :
  saveIssue issue w =
  if fs_ok env (tick w)
  then mkRun (Ok tt)
             {| tick := S (tick w);
                issue_files :=
                  <[number issue := {| text := content_of issue;
                                       mtime := now env (tick w) |}]> (issue_files w);
                state_file := state_file w; config_file := config_file w |}
             [WriteIssueFile (number issue) (content_of issue)]
  else mkRun (Throw (Rejected "file system")) (next w)
             [WriteIssueFile (number issue) (content_of issue)].
Proof.
  unfold saveIssue. cbv zeta. fold (content_of issue).
  unfold mbind at 1, M_bind at 1. cbv zeta. rewrite fs_call_run.
  by destruct (fs_ok env (tick w)).
Qed.

(** The project item the pull has for an issue, and the issue as the pull
    saves it: with the field values of that item, when there is one. *)
Definition pulled_item (projectData : option (list ProjectField * gmap N ProjectItem))
    (issue : Issue) : option ProjectItem :=
  '(_, projectItemsMap) ← projectData; projectItemsMap !! number issue.

Definition pulled (projectData : option (list ProjectField * gmap N ProjectItem))
    (issue : Issue) : Issue :=
  match projectData with
  | Some (projectFields, projectItemsMap) =>
      match projectItemsMap !! number issue with
      | Some projectItem =>
          set_project_fields (extractProjectFieldValues projectItem projectFields) issue
      | None => issue
      end
  | None => issue
  end.

(** The record the pull stores for an issue at the instant [t], given the
    record [old] it has for it by then. *)
Definition pulled_record (issue : Issue) (t : string) (old : option SyncRecord)
    : SyncRecord := {|
  github_updated_at := updated_at issue;
  local_updated_at := updated_at issue;
  last_synced_at := t;
  project_item_id := old ≫= project_item_id;
  project_fields_updated_at := old ≫= project_fields_updated_at |}.

Lemma pulled_number projectData issue : number (pulled projectData issue) = number issue.
Proof.
  unfold pulled. destruct projectData as [[fields items]|]; [|done].
  by destruct (items !! number issue).
Qed.

Lemma pulled_updated_at projectData issue :
  updated_at (pulled projectData issue) = updated_at issue.
Proof.
  unfold pulled. destruct projectData as [[fields items]|]; [|done].
  by destruct (items !! number issue).
Qed.

(** The loop body of the pull, step by step: after at most two readings
    of the clock for the project item, the file is written, the clock is
    read again and the record is stored. *)
Lemma syncDown_issue_run projectData s issue w :
  exists w0 s1,
    (tick w <= tick w0)%nat
    /\ issue_files w0 = issue_files w
    /\ state_file w0 = state_file w
    /\ config_file w0 = config_file w
    /\ (forall n, n ≠ number issue -> issues s1 !! n = issues s !! n)
    /\ issues s1 !! number issue ≫= project_item_id
       = match pulled_item projectData issue with
         | Some item => Some (item_id item)
         | None => issues s !! number issue ≫= project_item_id
         end
    /\ syncDown_issue projectData s issue w =
       (saveIssue (pulled projectData issue);;
        t ← interact (now env);
        mret {| issues :=
          <[number issue := pulled_record issue t (issues s1 !! number issue)]>
            (issues s1) |}) w0.
Proof.
  unfold syncDown_issue, pulled, pulled_item.
  destruct projectData as [[projectFields projectItemsMap]|]; simpl;
    [destruct (projectItemsMap !! number issue) as [projectItem|] eqn:Hitem|].
  - cbv zeta. destruct (issues s !! number issue) as [r|] eqn:Hr.
    + exists (next w), {| issues :=
        alter (set_project_fields_updated_at (now env (tick w))) (number issue)
          (alter (set_project_item_id (item_id projectItem)) (number issue) (issues s)) |}.
      split_and!; [simpl; lia|done..| | |].
      * intros n Hn. simpl. by rewrite !lookup_alter_ne.
      * simpl. by rewrite !lookup_alter_eq, Hr.
      * rewrite !bind_assoc, ret_bind, bind_assoc, interact_bind, ret_bind. done.
    + exists (next (next w)), {| issues :=
        alter (set_project_fields_updated_at (now env (S (tick w)))) (number issue)
          (alter (set_project_item_id (item_id projectItem)) (number issue)
             (<[number issue := {|
                  github_updated_at := updated_at issue;
                  local_updated_at := updated_at issue;
                  last_synced_at := now env (tick w);
                  project_item_id := None;
                  project_fields_updated_at := None |}]> (issues s))) |}.
      split_and!; [simpl; lia|done..| | |].
      * intros n Hn. simpl. by rewrite !lookup_alter_ne, lookup_insert_ne.
      * simpl. by rewrite !lookup_alter_eq, lookup_insert_eq.
      * rewrite !bind_assoc, interact_bind, ret_bind, bind_assoc, interact_bind, ret_bind.
        done.
  - exists w, s. split_and!; [done..|]. by rewrite ret_bind.
  - exists w, s. split_and!; [done..|]. by rewrite ret_bind.
Qed.

(** What the loop body of the pull leaves when it ends normally: the file
    of the issue, written at an instant [t1], and its record, stamped at a
    later instant [t2]; the other files and records as they were. *)
Lemma syncDown_issue_leaves projectData s issue w s' :
  outcome (syncDown_issue projectData s issue w) = Ok s' ->
  let w' := world (syncDown_issue projectData s issue w) in
  exists t1 t2 old,
    (tick w <= t1)%nat /\ (t1 < t2)%nat /\ (t2 < tick w')%nat
    /\ issue_files w'
       = <[number issue := {| text := content_of (pulled projectData issue);
                              mtime := now env t1 |}]> (issue_files w)
    /\ issues s' !! number issue = Some (pulled_record issue (now env t2) old)
    /\ old ≫= project_item_id
       = match pulled_item projectData issue with
         | Some item => Some (item_id item)
         | None => issues s !! number issue ≫= project_item_id
         end
    /\ (forall n, n ≠ number issue -> issues s' !! n = issues s !! n).
Proof.
  destruct (syncDown_issue_run projectData s issue w)
    as (w0 & s1 & Ht & Hfiles & _ & _ & Hframe & Hitem & ->).
  unfold mbind, M_bind, interact. cbv zeta. rewrite saveIssue_run.
  destruct (fs_ok env (tick w0)); [|done].
  cbn [mret M_ret outcome world events tick]. intros [= <-].
  exists (tick w0), (S (tick w0)), (issues s1 !! number issue).
  rewrite pulled_number, Hfiles. cbn [issue_files issues].
  split_and!; [done|lia|lia|done| |done|].
  - by rewrite lookup_insert_eq.
  - intros n Hn. rewrite lookup_insert_ne by done. by apply Hframe.
Qed.

Lemma pull_loop_leaves projectData ls s w s' :
  outcome (for_of ls (syncDown_issue projectData) s w) = Ok s' ->
  NoDup (number <$> ls) ->
  let w' := world (for_of ls (syncDown_issue projectData) s w) in
  (forall issue, issue ∈ ls ->
     exists t1 t2 old,
       (tick w <= t1)%nat /\ (t1 < t2)%nat /\ (t2 < tick w')%nat
       /\ issue_files w' !! number issue
          = Some {| text := content_of (pulled projectData issue); mtime := now env t1 |}
       /\ issues s' !! number issue = Some (pulled_record issue (now env t2) old)
       /\ old ≫= project_item_id
          = match pulled_item projectData issue with
            | Some item => Some (item_id item)
            | None => issues s !! number issue ≫= project_item_id
            end)
  /\ (forall n, n ∉ number <$> ls ->
        issue_files w' !! n = issue_files w !! n /\ issues s' !! n = issues s !! n)
  /\ (tick w <= tick w')%nat.
Proof.
  revert s w. induction ls as [|x ls IH]; intros s w Hok Hnd; cbv zeta.
  - injection Hok as <-. split_and!; [by intros ? ?%elem_of_nil|done|done].
  - simpl in Hok |- *. apply outcome_bind_ok in Hok as (s1 & Hx & Hok).
    rewrite (world_ok_bind _ _ _ _ Hx).
    rewrite fmap_cons in Hnd. apply NoDup_cons in Hnd as [Hx_new Hnd].
    destruct (IH _ _ Hok Hnd) as (Hin & Hout & Htick).
    destruct (syncDown_issue_leaves _ _ _ _ _ Hx)
      as (t1 & t2 & old & Ht1 & Ht12 & Ht2 & Hfiles & Hrec & Hitem & Hframe).
    cbv zeta in Hin, Hout, Htick, Ht2, Hfiles.
    split_and!.
    + intros issue [->|Hissue]%elem_of_cons.
      * destruct (Hout _ Hx_new) as [Hf Hs]. exists t1, t2, old.
        split_and!; [done|done|lia| |by rewrite Hs|done].
        by rewrite Hf, Hfiles, lookup_insert_eq.
      * destruct (Hin _ Hissue) as (t1' & t2' & old' & ? & ? & ? & Hf & Hs & Hi).
        exists t1', t2', old'. split_and!; [lia|done..|].
        rewrite Hi. rewrite Hframe; [done|].
        intros Heq. apply Hx_new. rewrite <- Heq. by apply list_elem_of_fmap_2.
    + intros n [Hn_x Hn]%not_elem_of_cons. destruct (Hout _ Hn) as [Hf Hs].
      split.
      * by rewrite Hf, Hfiles, lookup_insert_ne.
      * rewrite Hs. by apply Hframe.
    + lia.
Qed.

(** A pull that runs to its end, in its three parts. *)
Lemma syncDown_run fuel includeClosed fullSync syncProjects w s remoteIssues projectData :
  outcome (syncDown_fetch fuel includeClosed fullSync syncProjects w)
    = Ok (s, remoteIssues, projectData) ->
  outcome (syncDown fuel includeClosed fullSync syncProjects w) = Ok tt ->
  let w1 := world (syncDown_fetch fuel includeClosed fullSync syncProjects w) in
  let loop := for_of remoteIssues (syncDown_issue projectData) s w1 in
  exists s',
    outcome loop = Ok s'
    /\ state_file (world (syncDown fuel includeClosed fullSync syncProjects w)) = Some s'
    /\ issue_files (world (syncDown fuel includeClosed fullSync syncProjects w))
       = issue_files (world loop)
    /\ (tick (world loop)
        <= tick (world (syncDown fuel includeClosed fullSync syncProjects w)))%nat.
Proof.
  intros Hfetch Hok. cbv zeta. unfold syncDown in *.
  rewrite (bind_ok _ _ _ _ Hfetch) in Hok |- *. cbn [outcome world] in Hok |- *.
  generalize dependent (world (syncDown_fetch fuel includeClosed fullSync syncProjects w)).
  intros w1 Hok.
  apply outcome_bind_ok in Hok as (s' & Hloop & Hok).
  exists s'. split; [done|]. rewrite (bind_ok _ _ _ _ Hloop). cbn [outcome world].
  generalize dependent (world (for_of remoteIssues (syncDown_issue projectData) s w1)).
  intros w2 Hok.
  unfold mbind, M_bind in Hok |- *. cbv zeta in Hok |- *.
  rewrite saveSyncState_run in Hok |- *.
  destruct (fs_ok env (tick w2)); [|done]. simpl. split_and!; [done..|lia].
Qed.

(** What the pull has read before its loop: the sync state of the state
    file, or an empty one; no issue file is written by then, and every
    fetched issue is fit for the local store. *)
Lemma syncDown_fetch_reads fuel includeClosed fullSync syncProjects w s remoteIssues
    projectData :
  outcome (syncDown_fetch fuel includeClosed fullSync syncProjects w)
    = Ok (s, remoteIssues, projectData) ->
  s = default {| issues := ∅ |} (state_file w)
  /\ issue_files (world (syncDown_fetch fuel includeClosed fullSync syncProjects w))
     = issue_files w
  /\ Forall (fun issue =>
               body issue = Js.trim (body issue)
               /\ milestone issue ≠ Some "" /\ closed_at issue ≠ Some ""
               /\ project_fields issue = None)
            remoteIssues.
Proof.
  intros Hok. split_and!.
  - unfold syncDown_fetch in Hok.
    apply outcome_bind_ok in Hok as ([] & _ & Hok).
    change (world (log _ w)) with w in Hok.
    apply outcome_bind_ok in Hok as (repo & _ & Hok).
    destruct (within_await no_ev (git_remote env) w) as (_ & _ & _ & Hs1 & _).
    fold getCurrentRepo in Hs1. specialize (Hs1 (fun _ => eq_refl)).
    revert Hok Hs1. generalize (world (getCurrentRepo w)). intros w1 Hok Hs1.
    apply outcome_bind_ok in Hok as ([] & _ & Hok).
    change (world (log _ w1)) with w1 in Hok.
    apply outcome_bind_ok in Hok as ([] & _ & Hok).
    assert (within (fun e => match e with Mkdir => true | _ => false end)
                   ensureStorageDir) as Hw.
    { unfold ensureStorageDir.
      apply within_bind; [by apply within_fs_call|intros ?; apply within_ret]. }
    destruct (Hw w1) as (_ & _ & _ & Hs2 & _). specialize (Hs2 (fun _ => eq_refl)).
    revert Hok Hs2. generalize (world (ensureStorageDir w1)). intros w2 Hok Hs2.
    rewrite (bind_read _ _ _ _ (loadSyncState_run w2)) in Hok.
    cbv zeta in Hok.
    apply outcome_bind_ok in Hok as ([] & _ & Hok).
    apply outcome_bind_ok in Hok as (remoteIssues' & _ & Hok).
    apply outcome_bind_ok in Hok as ([] & _ & Hok).
    apply outcome_bind_ok in Hok as (pd & _ & Hok).
    injection Hok as <- _ _. by rewrite Hs2, Hs1.
  - destruct (syncDown_fetch_within fuel includeClosed fullSync syncProjects w)
      as (_ & _ & Hi & _).
    by apply Hi.
  - unfold syncDown_fetch in Hok.
    apply outcome_bind_ok in Hok as ([] & _ & Hok).
    apply outcome_bind_ok in Hok as (repo & _ & Hok).
    apply outcome_bind_ok in Hok as ([] & _ & Hok).
    apply outcome_bind_ok in Hok as ([] & _ & Hok).
    apply outcome_bind_ok in Hok as (s0 & _ & Hok).
    cbv zeta in Hok.
    apply outcome_bind_ok in Hok as ([] & _ & Hok).
    apply outcome_bind_ok in Hok as (remoteIssues' & Hfetch & Hok).
    apply outcome_bind_ok in Hok as ([] & _ & Hok).
    apply outcome_bind_ok in Hok as (pd & _ & Hok).
    injection Hok as _ <- _.
    unfold fetchIssues in Hfetch.
    eapply fetchIssues_from_Forall; [|done|exact Hfetch].
    intros t page data raw _ _ _. apply issue_of_raw_normal.
Qed.




Section PullRoundTrip.

Context `{!GrayMatterRoundTrip}.



End PullRoundTrip.

(** A pull that runs to its end leaves what it did not fetch as it found
    it: for a number that no fetched issue bears, the issue file is
    untouched and the persisted record is the one of the state file the
    pull started from. *)
Theorem pull_keeps_the_rest fuel includeClosed fullSync syncProjects w s remoteIssues
    projectData :
  outcome (syncDown_fetch fuel includeClosed fullSync syncProjects w)
    = Ok (s, remoteIssues, projectData) ->
  outcome (syncDown fuel includeClosed fullSync syncProjects w) = Ok tt ->
  exists persisted,
    state_file (world (syncDown fuel includeClosed fullSync syncProjects w))
      = Some persisted
    /\ forall n, n ∉ number <$> remoteIssues ->
         issue_files (world (syncDown fuel includeClosed fullSync syncProjects w)) !! n
           = issue_files w !! n
         /\ issues persisted !! n
            = issues (default {| issues := ∅ |} (state_file w)) !! n.
Proof.
  intros Hfetch Hok.
  destruct (syncDown_run _ _ _ _ _ _ _ _ Hfetch Hok) as (s' & Hloop & Hstate & Hfiles & _).
  destruct (syncDown_fetch_reads _ _ _ _ _ _ _ _ Hfetch) as (-> & Hfiles0 & _).
  exists s'. split; [done|]. intros n Hn. rewrite Hfiles, <- Hfiles0.
  clear Hstate Hfiles Hfetch Hok Hfiles0. revert Hloop.
  generalize (world (syncDown_fetch fuel includeClosed fullSync syncProjects w)).
  generalize (default {| issues := ∅ |} (state_file w)).
  induction remoteIssues as [|x ls IH]; intros s0 w1 Hloop.
  { by injection Hloop as <-. }
  simpl in Hloop |- *. apply outcome_bind_ok in Hloop as (s1 & Hx & Hloop).
  rewrite (world_ok_bind _ _ _ _ Hx).
  rewrite fmap_cons in Hn. apply not_elem_of_cons in Hn as [Hn_x Hn].
  destruct (IH Hn _ _ Hloop) as [-> ->].
  destruct (syncDown_issue_leaves _ _ _ _ _ Hx)
    as (t1 & t2 & old & _ & _ & _ & Hf & _ & _ & Hframe).
  cbv zeta in Hf. rewrite Hf, lookup_insert_ne by done. split; [done|].
  by apply Hframe.
Qed.

(** The project item id a pull records for a fetched issue: the id of
    the project item it has for the issue, and otherwise the id the
    record had before. *)
Theorem pull_item_ids fuel includeClosed fullSync syncProjects w s remoteIssues
    projectData :
  outcome (syncDown_fetch fuel includeClosed fullSync syncProjects w)
    = Ok (s, remoteIssues, projectData) ->
  outcome (syncDown fuel includeClosed fullSync syncProjects w) = Ok tt ->
  NoDup (number <$> remoteIssues) ->
  exists persisted,
    state_file (world (syncDown fuel includeClosed fullSync syncProjects w))
      = Some persisted
    /\ forall issue, issue ∈ remoteIssues ->
         exists r,
           issues persisted !! number issue = Some r
           /\ project_item_id r
              = match pulled_item projectData issue with
                | Some item => Some (item_id item)
                | None =>
                    issues (default {| issues := ∅ |} (state_file w)) !! number issue
                      ≫= project_item_id
                end.
Proof.
  intros Hfetch Hok Hnd.
  destruct (syncDown_run _ _ _ _ _ _ _ _ Hfetch Hok) as (s' & Hloop & Hstate & _).
  destruct (syncDown_fetch_reads _ _ _ _ _ _ _ _ Hfetch) as (-> & _).
  destruct (pull_loop_leaves _ _ _ _ _ Hloop Hnd) as (Hin & _).
  exists s'. split; [done|]. intros issue Hissue.
  destruct (Hin _ Hissue) as (t1 & t2 & old & _ & _ & _ & _ & Hrec & Hitem).
  eexists. split; [exact Hrec|]. exact Hitem.
Qed.

(** ** sync.ts: a pull followed by a push *)

(** An event of a push that is about an issue comes from a local issue
    with that number. *)
Lemma push_about_local fuel force dryRun syncProjects w repo ls remoteMap s proj e n :
  outcome (syncUp_load fuel dryRun syncProjects w) = Ok (repo, ls, remoteMap, s, proj) ->
  e ∈ events (syncUp fuel force dryRun syncProjects w) ->
  about e = Some n ->
  exists x, x ∈ ls /\ number x = n.
Proof.
  intros Hload He Habout.
  destruct (syncUp_run _ force _ _ _ _ _ _ _ _ Hload) as (_ & _ & Hev).
  rewrite Hev in He. apply elem_of_app in He as [He|He].
  { by rewrite (syncUp_load_about _ _ _ _ _ He) in Habout. }
  apply events_bind_inv in He as [He|(st & _ & He)];
    [|by rewrite (syncUp_finish_about _ _ _ _ He) in Habout].
  apply for_of_event in He as (x & s1 & w1 & Hx & He).
  exists x. split; [done|].
  eapply within_events in He; [|apply syncUp_issue_about].
  unfold about_only in He. rewrite Habout in He.
  by apply bool_decide_eq_true in He.
Qed.

(** A push that follows a pull does nothing about the issues the pull
    has just fetched, whatever the local files held before the pull:
    their files are not later than their records.  The only thing it may
    say about such an issue is that it is not found on GitHub.  (The
    clock is taken not to go back.) *)
Theorem pull_then_push fuel includeClosed fullSync syncProjects w s remoteIssues
    projectData fuel' force dryRun syncProjects' repo ls remoteMap s2 proj :
  outcome (syncDown_fetch fuel includeClosed fullSync syncProjects w)
    = Ok (s, remoteIssues, projectData) ->
  outcome (syncDown fuel includeClosed fullSync syncProjects w) = Ok tt ->
  NoDup (number <$> remoteIssues) ->
  (forall t t', (t <= t')%nat -> String.le (now env t) (now env t')) ->
  let w' := world (syncDown fuel includeClosed fullSync syncProjects w) in
  outcome (syncUp_load fuel' dryRun syncProjects' w') = Ok (repo, ls, remoteMap, s2, proj) ->
  outcome (syncUp fuel' force dryRun syncProjects' w') = Ok tt ->
  NoDup (number <$> ls) ->
  Forall (fun e =>
            forall issue, issue ∈ remoteIssues ->
              about e = Some (number issue) ->
              e = Console (LNotFoundOnGithub (number issue)))
         (events (syncUp fuel' force dryRun syncProjects' w')).
Proof.
  intros Hfetch Hok Hnd Hclock w' Hload Hpush Hnd'.
  apply Forall_forall. intros e He issue Hissue Habout.
  destruct (push_about_local _ _ _ _ _ _ _ _ _ _ _ _ Hload He Habout) as (x & Hx & Hnum).
  destruct (push_at_issue _ _ _ _ _ _ _ _ _ _ _ Hload Hpush Hnd' Hx)
    as (st1 & w1 & st2 & st' & Hrec & Hfiles & _ & _ & _ & _ & Hout).
  rewrite Hnum in Hout, Hrec. specialize (Hout e He Habout).
  destruct (syncDown_run _ _ _ _ _ _ _ _ Hfetch Hok) as (s' & Hloop & Hstate & Hfiles' & _).
  destruct (pull_loop_leaves _ _ _ _ _ Hloop Hnd) as (Hin & _).
  destruct (Hin _ Hissue) as (t1 & t2 & old & _ & Ht12 & _ & Hfile & Hrec' & _).
  cbv zeta in Hfile. rewrite <- Hfiles' in Hfile. fold w' in Hfile, Hstate.
  destruct (syncUp_load_reads _ _ _ _ _ _ _ _ _ Hload) as (_ & ->).
  rewrite Hstate in Hrec. simpl in Hrec. rewrite Hrec' in Hrec.
  unfold syncUp_issue in Hout. rewrite Hnum in Hout.
  destruct (remoteMap !! number issue) as [remote|].
  - rewrite Hrec in Hout.
    rewrite (bind_read _ _ _ _ (getLocalFileModTime_run _ _)) in Hout.
    rewrite Hfiles, Hfile in Hout. cbv zeta in Hout.
    rewrite localModified_of_spec in Hout. simpl in Hout.
    assert (Js.gt (now env t1) (now env t2) = false) as Hgt.
    { apply gt_false_le, Hclock. lia. }
    rewrite Hgt, andb_false_r in Hout. simpl in Hout. by apply elem_of_nil in Hout.
  - simpl in Hout. by apply list_elem_of_singleton in Hout.
Qed.

(** ** sync.ts: the conflict detector *)

(** The conflict [detectConflicts] records for a local issue, if any. *)
Definition conflict_of (remoteMap : gmap N Issue) (s : SyncState) (l : Issue)
    : option ConflictInfo :=
  remote ← remoteMap !! number l;
  syncInfo ← issues s !! number l;
  if Js.gt (updated_at l) (last_synced_at syncInfo)
     && Js.gt (updated_at remote) (github_updated_at syncInfo)
  then Some {| conflict_number := number l;
               conflict_title := title l;
               github_updated := updated_at remote;
               local_updated := updated_at l;
               last_synced := last_synced_at syncInfo |}
  else None.

Lemma detectConflicts_within fuel :
  within fetchIssues_ev (detectConflicts fuel).
Proof.
  unfold detectConflicts.
  apply within_bind; [apply within_await|intros repo].
  apply within_bind; [apply loadAllLocalIssues_within|intros localIssues].
  apply within_bind; [by apply fetchIssues_within|intros remoteIssues].
  apply within_bind; [apply loadSyncState_within|intros s].
  apply within_ret.
Qed.

(** [detectConflicts] changes nothing: its only requests list the issues
    of the repository, it writes no file and prints nothing.  It records
    one conflict per local issue that has a remote counterpart and a
    record and whose front-matter [updated_at] is later than the record's
    [last_synced_at] while the remote [updated_at] is later than the
    record's [github_updated_at], in the order of the local issues. *)
Theorem detectConflicts_spec fuel w :
  let r := detectConflicts fuel w in
  issue_files (world r) = issue_files w
  /\ state_file (world r) = state_file w
  /\ config_file (world r) = config_file w
  /\ Forall (fun e => exists p, e = CallListForRepo p) (events r)
  /\ forall conflicts,
       outcome r = Ok conflicts ->
       exists repo remoteIssues,
         outcome (getCurrentRepo w) = Ok repo
         /\ outcome (fetchIssues fuel repo true None (world (getCurrentRepo w)))
            = Ok remoteIssues
         /\ conflicts
            = omap (conflict_of (js_Map (map (fun i => (number i, i)) remoteIssues))
                                (default {| issues := ∅ |} (state_file w)))
                   (read_issues (issue_files w)).
Proof.
  intros r. destruct (detectConflicts_within fuel w) as (_ & He & Hi & Hs & Hc).
  fold r in He, Hi, Hs, Hc. split_and!; [by apply Hi|by apply Hs|by apply Hc| |].
  { eapply Forall_impl; [exact He|].
    intros [[]| | | | | | | | | | | | |]; try done. intros _. by eexists. }
  unfold r, detectConflicts. intros conflicts Hok.
  apply outcome_bind_ok in Hok as (repo & Hrepo & Hok).
  destruct (within_await no_ev (git_remote env) w) as (_ & _ & Hi1 & Hs1 & _).
  fold getCurrentRepo in Hi1, Hs1.
  specialize (Hi1 (fun _ _ => eq_refl)). specialize (Hs1 (fun _ => eq_refl)).
  exists repo. rewrite <- Hi1, <- Hs1.
  revert Hok. generalize (world (getCurrentRepo w)). intros w1 Hok.
  rewrite (bind_read _ _ _ _ (loadAllLocalIssues_run w1)) in Hok.
  apply outcome_bind_ok in Hok as (remoteIssues & Hfetch & Hok).
  destruct (fetchIssues_within fetchIssues_ev fuel repo true None (fun _ He => He) w1)
    as (_ & _ & _ & Hs2 & _).
  specialize (Hs2 (fun _ => eq_refl)). rewrite <- Hs2.
  exists remoteIssues. split_and!; [done..|].
  revert Hok. generalize (world (fetchIssues fuel repo true None w1)). intros w2 Hok.
  rewrite (bind_read _ _ _ _ (loadSyncState_run w2)) in Hok.
  cbv zeta in Hok. injection Hok as <-.
  generalize (read_issues (issue_files w1)). intros ls.
  match goal with |- foldl ?F [] ls = omap ?f ls =>
    assert (forall acc, foldl F acc ls = acc ++ omap f ls) as Hfold
  end.
  { induction ls as [|l ls IH]; intros acc; simpl; [by rewrite app_nil_r|].
    rewrite IH. unfold conflict_of at 2.
    destruct (_ !! number l) as [remote|]; simpl; [|done].
    destruct (issues _ !! number l) as [syncInfo|]; simpl; [|done].
    destruct (_ && _); simpl; [|done]. by rewrite <- app_assoc. }
  apply (Hfold []).
Qed.

(** ** storage.ts: the local issues *)

Lemma length_omap_le {A B} (f : A -> option B) l :
  (length (omap f l) <= length l)%nat.
Proof.
  induction l as [|x l IH]; [done|]. csimpl. destruct (f x); simpl in *; lia.
Qed.

Lemma elem_of_map {A B} (f : A -> B) l y : y ∈ map f l <-> exists x, y = f x /\ x ∈ l.
Proof.
  rewrite list_elem_of_In, in_map_iff. setoid_rewrite list_elem_of_In.
  split; intros (x & ? & ?); by exists x.
Qed.

(** [loadAllLocalIssues] only reads: it never throws, changes nothing and
    causes no event.  It returns one issue for each issue file that
    parses, built from the front matter and the body of the file, and
    passes over the files that do not parse. *)
Theorem loadAllLocalIssues_spec w :
  let r := loadAllLocalIssues w in
  world r = w /\ events r = []
  /\ exists localIssues,
       outcome r = Ok localIssues
       /\ (length localIssues <= size (issue_files w))%nat
       /\ forall issue,
            issue ∈ localIssues <->
            exists n file data body,
              issue_files w !! n = Some file
              /\ matter (text file) = Some (data, body)
              /\ issue = issue_of_matter data body.
Proof.
  cbv zeta. rewrite loadAllLocalIssues_run. cbn [outcome world events].
  split_and!; [done..|]. eexists. split; [done|]. split.
  - unfold read_issues. etrans; [apply length_omap_le|].
    by rewrite length_map, length_fmap, length_map_to_list.
  - intros issue. unfold read_issues. rewrite list_elem_of_omap. split.
    + intros (o & (n & -> & Hn)%elem_of_map & Ho). simpl in Ho.
      unfold read_issue in Ho.
      destruct (issue_files w !! n) as [file|] eqn:Hfile; [|done]. simpl in Ho.
      destruct (matter (text file)) as [[data body]|] eqn:Hparse; [|done].
      injection Ho as <-. by exists n, file, data, body.
    + intros (n & file & data & body & Hfile & Hparse & ->).
      exists (read_issue (issue_files w) n). split.
      * apply elem_of_map. exists n. split; [done|].
        apply list_elem_of_fmap. exists (n, file). split; [done|].
        by apply elem_of_map_to_list.
      * simpl. unfold read_issue. rewrite Hfile. simpl. by rewrite Hparse.
Qed.

(** ** sync.ts: without the projects option *)

(** The events of the custom-field synchronisation: the GraphQL requests
    and the write of the project configuration. *)
Definition project_event (e : Event) : bool :=
  match e with
  | QueryProjectItems _ _ | QueryProjectFields _ _ | QueryProjectId _ _
  | QueryProjectTitle _ _ | QueryDetectProject _ _ | MutateProjectField _
  | WriteConfigFile _ => true
  | _ => false
  end.

Definition plain_event (e : Event) : bool := negb (project_event e).

Lemma syncUp_load_plain fuel dryRun :
  within plain_event (syncUp_load fuel dryRun false).
Proof.
  unfold syncUp_load.
  apply within_bind; [destruct dryRun; by apply within_log|intros _].
  apply within_bind; [apply within_await|intros repo].
  apply within_bind; [by apply within_log|intros _].
  apply within_bind; [apply loadAllLocalIssues_within|intros localIssues].
  apply within_bind; [apply fetchIssues_within; incl|intros remoteIssues].
  apply within_bind; [apply loadSyncState_within|intros s].
  apply within_bind; [apply within_ret|intros projectConfig].
  apply within_bind; [apply within_ret|intros proj; apply within_ret].
Qed.

Lemma syncUp_load_no_project fuel dryRun w repo ls remoteMap s proj :
  outcome (syncUp_load fuel dryRun false w) = Ok (repo, ls, remoteMap, s, proj) ->
  proj = None.
Proof.
  unfold syncUp_load. intros Hok.
  apply outcome_bind_ok in Hok as ([] & _ & Hok).
  apply outcome_bind_ok in Hok as (repo0 & _ & Hok).
  apply outcome_bind_ok in Hok as ([] & _ & Hok).
  apply outcome_bind_ok in Hok as (localIssues & _ & Hok).
  apply outcome_bind_ok in Hok as (remoteIssues & _ & Hok).
  apply outcome_bind_ok in Hok as (s0 & _ & Hok).
  apply outcome_bind_ok in Hok as (projectConfig & _ & Hok).
  apply outcome_bind_ok in Hok as (proj0 & Hproj & Hok).
  injection Hok as _ _ _ _ <-. simpl in Hproj. by injection Hproj as <-.
Qed.

Lemma syncUp_issue_plain force dryRun repo remoteMap st l :
  within plain_event (syncUp_issue force dryRun repo None remoteMap st l).
Proof.
  unfold syncUp_issue.
  destruct (remoteMap !! number l) as [remote|];
    [|apply within_bind; [by apply within_log|intros _; apply within_ret]].
  destruct (issues st.1 !! number l) as [syncInfo|];
    [|apply within_bind; [by apply within_log|intros _; apply within_ret]].
  apply within_bind; [apply getLocalFileModTime_within|intros fileModTime].
  cbv zeta.
  destruct (_ && _ && _);
    [apply within_bind; [by apply within_log|intros _; apply within_ret]|].
  destruct (negb _); [apply within_ret|].
  unfold syncUp_push. cbv zeta. apply within_bind.
  - destruct (Nat.ltb _ _); [|apply within_ret].
    apply within_bind; [|intros ?; apply within_ret].
    destruct dryRun.
    + apply within_bind; [by apply within_log|intros _; apply within_ret].
    + apply within_bind; [by apply within_log|intros _].
      apply within_bind; [apply updateIssue_within; incl|intros _].
      within_go I.
  - intros st'. apply within_bind; [apply within_ret|intros ?; apply within_ret].
Qed.

Lemma syncDown_plain fuel includeClosed fullSync :
  within plain_event (syncDown fuel includeClosed fullSync false).
Proof.
  unfold syncDown. apply within_bind.
  - unfold syncDown_fetch.
    apply within_bind; [by apply within_log|intros _].
    apply within_bind; [apply within_await|intros repo].
    apply within_bind; [by apply within_log|intros _].
    apply within_bind.
    { unfold ensureStorageDir.
      apply within_bind; [by apply within_fs_call|intros ?; apply within_ret]. }
    intros _. apply within_bind; [apply loadSyncState_within|intros s].
    cbv zeta. apply within_bind.
    { destruct (lastSync_of _ _); [by apply within_log|apply within_ret]. }
    intros _. apply within_bind; [apply fetchIssues_within; incl|intros remoteIssues].
    apply within_bind; [by apply within_log|intros _].
    apply within_bind; [|intros ?; apply within_ret].
    unfold syncDown_projects.
    apply within_bind; [apply within_ret|intros projectConfig]. apply within_ret.
  - intros [[s remoteIssues] projectData].
    apply within_bind.
    { apply within_for_of. intros s' issue.
      eapply within_weaken; [apply syncDown_issue_within|]. incl. }
    intros s'. apply within_bind; [apply saveSyncState_within; incl|].
    intros _. by apply within_log.
Qed.

(** Without the projects option neither engine touches the project: no
    GraphQL request is sent, no field is changed, and the project
    configuration is neither detected nor written. *)
Theorem without_projects fuel includeClosed fullSync force dryRun w :
  Forall (fun e => project_event e = false)
         (events (syncDown fuel includeClosed fullSync false w))
  /\ config_file (world (syncDown fuel includeClosed fullSync false w)) = config_file w
  /\ Forall (fun e => project_event e = false)
            (events (syncUp fuel force dryRun false w))
  /\ config_file (world (syncUp fuel force dryRun false w)) = config_file w.
Proof.
  assert (forall evs, Forall (fun e => plain_event e = true) evs ->
                      Forall (fun e => project_event e = false) evs) as Hplain.
  { intros evs Hevs. eapply Forall_impl; [exact Hevs|]. intros e. unfold plain_event.
    by destruct (project_event e). }
  destruct (syncDown_plain fuel includeClosed fullSync w) as (_ & He & _ & _ & Hc).
  split_and!; [by apply Hplain|by apply Hc| |].
  - destruct (syncUp_load_plain fuel dryRun w) as (_ & He1 & _).
    unfold syncUp.
    destruct (outcome (syncUp_load fuel dryRun false w))
      as [[[[[repo ls] remoteMap] s] proj]| |] eqn:Hload.
    + pose proof (syncUp_load_no_project _ _ _ _ _ _ _ _ Hload) as ->.
      rewrite (events_ok_bind _ _ _ _ Hload). apply Forall_app. split; [by apply Hplain|].
      apply Hplain.
      match goal with |- Forall _ (events (?m ?w1)) =>
        assert (within plain_event m) as Hw; [|by destruct (Hw w1) as (_ & ? & _)]
      end.
      apply within_bind.
      { apply within_for_of. intros st l. apply syncUp_issue_plain. }
      intros st. eapply within_weaken; [apply syncUp_finish_within|].
      intros [[]| | | | | | | | | | | | |]; try done.
    + unfold mbind, M_bind. cbv zeta. rewrite Hload. by apply Hplain.
    + unfold mbind, M_bind. cbv zeta. rewrite Hload. by apply Hplain.
  - destruct (syncUp_within fuel force dryRun false w) as (_ & _ & _ & _ & Hc').
    destruct (syncUp_load_plain fuel dryRun w) as (_ & _ & _ & _ & Hc1).
    specialize (Hc1 (fun _ => eq_refl)).
    unfold syncUp.
    destruct (outcome (syncUp_load fuel dryRun false w))
      as [[[[[repo ls] remoteMap] s] proj]| |] eqn:Hload.
    + pose proof (syncUp_load_no_project _ _ _ _ _ _ _ _ Hload) as ->.
      rewrite (world_ok_bind _ _ _ _ Hload). rewrite <- Hc1.
      match goal with |- config_file (world (?m ?w1)) = _ =>
        assert (within plain_event m) as Hw;
          [|destruct (Hw w1) as (_ & _ & _ & _ & Hc2); by apply Hc2]
      end.
      apply within_bind.
      { apply within_for_of. intros st l. apply syncUp_issue_plain. }
      intros st. eapply within_weaken; [apply syncUp_finish_within|].
      intros [[]| | | | | | | | | | | | |]; try done.
    + unfold mbind, M_bind. cbv zeta. by rewrite Hload.
    + unfold mbind, M_bind. cbv zeta. by rewrite Hload.
Qed.

(** ** sync.ts: what a dry run foretells *)

(** The issues a push updates: those with a remote counterpart and a
    record that are modified locally, are not held back as conflicts and
    differ from the remote issue. *)
Definition pushes (force : bool) (files : gmap N LocalFile) (remoteMap : gmap N Issue)
    (o : option SyncRecord) (l : Issue) : bool :=
  match remoteMap !! number l, o with
  | Some remote, Some syncInfo =>
      let localModified := localModified_of (mtime <$> files !! number l) syncInfo in
      let remoteModified := remoteModified_of remote syncInfo in
      negb (remoteModified && localModified && negb force)
      && localModified
      && negb (bool_decide (Object_keys (updates_of l remote) = []))
  | _, _ => false
  end.

Lemma syncUp_push_quiet dryRun repo proj remote syncInfo st l :
  Object_keys (updates_of l remote) = [] ->
  within (syncUp_fields_ev dryRun) (syncUp_push dryRun repo proj remote syncInfo st l).
Proof.
  intros Hkeys. unfold syncUp_push. cbv zeta. rewrite Hkeys. simpl.
  apply within_bind; [apply within_ret|intros st'].
  apply within_bind; [apply syncUp_fields_within|intros ?; apply within_ret].
Qed.

(** The loop body reports (dry run) or sends (real run) the update of its
    issue exactly when the issue is one the push updates. *)
Lemma syncUp_issue_pushes force (dryRun : bool) repo proj remoteMap st l w remote :
  remoteMap !! number l = Some remote ->
  (if dryRun
   then Console (LWouldUpdate (number l) (title l) (Object_keys (updates_of l remote)))
   else CallIssuesUpdate (params_of repo (number l) (updates_of l remote)) : Event)
    ∈ events (syncUp_issue force dryRun repo proj remoteMap st l w)
  <-> pushes force (issue_files w) remoteMap (issues st.1 !! number l) l = true.
Proof.
  intros Hr. unfold pushes. rewrite Hr.
  destruct (issues st.1 !! number l) as [syncInfo|] eqn:Hs; cycle 1.
  { unfold syncUp_issue. rewrite Hr, Hs. simpl. split; [|done].
    intros He%list_elem_of_singleton. by destruct dryRun. }
  rewrite (syncUp_issue_run _ _ _ _ _ _ _ _ _ _ Hr Hs). cbv zeta.
  destruct (_ && _ && _); simpl.
  { split; [|done]. intros He%list_elem_of_singleton. by destruct dryRun. }
  destruct (localModified_of _ syncInfo); simpl; [|by split; [intros ?%elem_of_nil|]].
  case_bool_decide as Hkeys; simpl.
  - split; [|done]. intros He.
    eapply within_events in He; [|by apply syncUp_push_quiet]. by destruct dryRun.
  - split; [done|]. intros _. by apply syncUp_push_payload.
Qed.

(** The counter of the loop body goes up exactly for an issue the push
    updates. *)
Lemma syncUp_issue_count force dryRun repo proj remoteMap st l w st' :
  outcome (syncUp_issue force dryRun repo proj remoteMap st l w) = Ok st' ->
  st'.2 = (st.2 + if pushes force (issue_files w) remoteMap (issues st.1 !! number l) l
                  then 1 else 0)%nat.
Proof.
  unfold pushes.
  destruct (remoteMap !! number l) as [remote|] eqn:Hr;
    [destruct (issues st.1 !! number l) as [syncInfo|] eqn:Hs|].
  - rewrite (syncUp_issue_run _ _ _ _ _ _ _ _ _ _ Hr Hs). cbv zeta.
    destruct (_ && _ && _); simpl; [intros [= <-]; lia|].
    destruct (localModified_of _ syncInfo); simpl; [|intros [= <-]; lia].
    intros (s1 & Hs1 & _)%syncUp_push_state.
    destruct (decide _) as [Hk|Hk].
    + rewrite bool_decide_true by done. simpl. destruct Hs1 as [_ ->]. lia.
    + rewrite bool_decide_false by done. simpl. destruct Hs1 as [-> _]. lia.
  - unfold syncUp_issue. rewrite Hr, Hs. simpl. intros [= <-]. lia.
  - unfold syncUp_issue. rewrite Hr. simpl. intros [= <-]. lia.
Qed.

Lemma filter_ext_elem {A} (P Q : A -> Prop) `{!forall x, Decision (P x)}
    `{!forall x, Decision (Q x)} (l : list A) :
  (forall x, x ∈ l -> P x <-> Q x) -> filter P l = filter Q l.
Proof.
  induction l as [|x l IH]; intros Hl; [done|].
  rewrite !filter_cons. rewrite IH by (intros y Hy; apply Hl; by right).
  destruct (decide (P x)) as [HP|HP], (decide (Q x)) as [HQ|HQ]; try done.
  - destruct HQ. by apply (Hl x); [left|].
  - destruct HP. by apply (Hl x); [left|].
Qed.

Lemma push_loop_count force dryRun repo proj remoteMap ls st w st' :
  outcome (for_of ls (syncUp_issue force dryRun repo proj remoteMap) st w) = Ok st' ->
  NoDup (number <$> ls) ->
  st'.2 = (st.2 + length (filter
             (fun l => pushes force (issue_files w) remoteMap
                              (issues st.1 !! number l) l = true) ls))%nat.
Proof.
  revert st w. induction ls as [|x ls IH]; intros st w Hok Hnd.
  - injection Hok as <-. simpl. lia.
  - simpl in Hok. apply outcome_bind_ok in Hok as (st1 & Hx & Hok).
    rewrite fmap_cons in Hnd. apply NoDup_cons in Hnd as [Hx_new Hnd].
    rewrite (IH _ _ Hok Hnd), (syncUp_issue_count _ _ _ _ _ _ _ _ _ Hx).
    rewrite filter_cons.
    rewrite (filter_ext_elem
               (fun l => pushes force
                  (issue_files (world (syncUp_issue force dryRun repo proj remoteMap st x w)))
                  remoteMap (issues st1.1 !! number l) l = true)
               (fun l => pushes force (issue_files w) remoteMap
                                (issues st.1 !! number l) l = true)).
    + destruct (pushes force (issue_files w) remoteMap (issues st.1 !! number x) x);
        [rewrite decide_True by done|rewrite decide_False by done]; simpl; lia.
    + intros l Hl.
      destruct (syncUp_issue_within force dryRun repo proj remoteMap st x w)
        as (_ & _ & Hi & _).
      rewrite Hi by (intros ? ?; by destruct dryRun).
      rewrite (syncUp_issue_frame _ _ _ _ _ _ _ _ _ (number l) Hx); [done|].
      intros Heq. apply Hx_new. rewrite <- Heq. by apply list_elem_of_fmap_2.
Qed.

(** The loading of a push does not depend on the dry-run option, but for
    its first message. *)
Lemma syncUp_load_dry fuel syncProjects w :
  outcome (syncUp_load fuel true syncProjects w)
    = outcome (syncUp_load fuel false syncProjects w)
  /\ world (syncUp_load fuel true syncProjects w)
     = world (syncUp_load fuel false syncProjects w).
Proof. unfold syncUp_load, log. by rewrite !emit_bind. Qed.

(** The number of updates a push that runs to its end reports. *)
Lemma push_reports_count fuel force (dryRun : bool) syncProjects w repo ls remoteMap s proj k :
  outcome (syncUp_load fuel dryRun syncProjects w) = Ok (repo, ls, remoteMap, s, proj) ->
  NoDup (number <$> ls) ->
  outcome (syncUp fuel force dryRun syncProjects w) = Ok tt ->
  Console (if dryRun then LFoundWithLocalChanges k else LSyncCompleteUpdated k)
    ∈ events (syncUp fuel force dryRun syncProjects w)
  <-> k = length (filter
            (fun l => pushes force (issue_files w) remoteMap
                             (issues s !! number l) l = true) ls).
Proof.
  intros Hload Hnd Hok.
  destruct (syncUp_loop_ok _ _ _ _ _ _ _ _ _ _ Hload Hok) as (st' & Hloop).
  destruct (syncUp_run _ force _ _ _ _ _ _ _ _ Hload) as (_ & _ & Hev).
  pose proof (push_loop_count _ _ _ _ _ _ _ _ _ Hloop Hnd) as Hcount.
  rewrite syncUp_load_files in Hcount. simpl in Hcount.
  rewrite Hev, (events_ok_bind _ _ _ _ Hloop), !elem_of_app.
  assert (events (syncUp_finish dryRun st'
            (world (for_of ls (syncUp_issue force dryRun repo proj remoteMap) (s, 0%nat)
                      (world (syncUp_load fuel dryRun syncProjects w)))))
          = (if dryRun then [] else [WriteStateFile st'.1])
            ++ [Console (if dryRun then LFoundWithLocalChanges st'.2
                         else LSyncCompleteUpdated st'.2)]) as ->.
  { unfold syncUp_finish. destruct dryRun; [done|].
    unfold mbind, M_bind. cbv zeta. rewrite saveSyncState_run.
    destruct (syncUp_run _ force _ _ _ _ _ _ _ _ Hload) as (Hout & _).
    rewrite Hout, (bind_ok _ _ _ _ Hloop) in Hok. cbn [outcome] in Hok.
    unfold syncUp_finish, mbind, M_bind in Hok. cbv zeta in Hok.
    rewrite saveSyncState_run in Hok.
    by destruct (fs_ok env _). }
  split.
  - intros [He|[He|He]].
    + eapply within_events in He; [|apply syncUp_load_within]. by destruct dryRun.
    + eapply within_events in He; [|apply push_loop_within]. by destruct dryRun.
    + rewrite <- Hcount. destruct dryRun; simpl in He.
      * by apply list_elem_of_singleton in He as [= ->].
      * apply elem_of_cons in He as [[=]|He].
        by apply list_elem_of_singleton in He as [= ->].
  - intros ->. right. right. rewrite Hcount. apply elem_of_app. right.
    by apply list_elem_of_singleton.
Qed.

(** A dry run foretells the real run.  When both a dry run and a real
    run of the push, started in the same world with the same options, run
    to their end, the dry run reports the update of a local issue exactly
    when the real run sends it, with the changed keys of the payload, and
    the number of issues with local changes the dry run finds is the
    number of issues the real run reports as updated. *)
Theorem dry_run_foretells fuel force syncProjects w repo ls remoteMap s proj :
  outcome (syncUp_load fuel true syncProjects w) = Ok (repo, ls, remoteMap, s, proj) ->
  NoDup (number <$> ls) ->
  outcome (syncUp fuel force true syncProjects w) = Ok tt ->
  outcome (syncUp fuel force false syncProjects w) = Ok tt ->
  (forall k,
     Console (LFoundWithLocalChanges k) ∈ events (syncUp fuel force true syncProjects w)
     <-> Console (LSyncCompleteUpdated k)
           ∈ events (syncUp fuel force false syncProjects w))
  /\ (forall l remote,
        l ∈ ls -> remoteMap !! number l = Some remote ->
        Console (LWouldUpdate (number l) (title l) (Object_keys (updates_of l remote)))
          ∈ events (syncUp fuel force true syncProjects w)
        <-> CallIssuesUpdate (params_of repo (number l) (updates_of l remote))
              ∈ events (syncUp fuel force false syncProjects w)).
Proof.
  intros Hdry Hnd Hok_dry Hok_real.
  assert (outcome (syncUp_load fuel false syncProjects w)
          = Ok (repo, ls, remoteMap, s, proj)) as Hreal.
  { destruct (syncUp_load_dry fuel syncProjects w) as [<- _]. exact Hdry. }
  split.
  - intros k.
    rewrite (push_reports_count _ _ true _ _ _ _ _ _ _ k Hdry Hnd Hok_dry).
    by rewrite (push_reports_count _ _ false _ _ _ _ _ _ _ k Hreal Hnd Hok_real).
  - intros l remote Hl Hr.
    destruct (push_at_issue _ _ _ _ _ _ _ _ _ _ _ Hdry Hok_dry Hnd Hl)
      as (st1 & w1 & _ & _ & Hrec1 & Hfiles1 & _ & _ & _ & Hin1 & Hout1).
    destruct (push_at_issue _ _ _ _ _ _ _ _ _ _ _ Hreal Hok_real Hnd Hl)
      as (st2 & w2 & _ & _ & Hrec2 & Hfiles2 & _ & _ & _ & Hin2 & Hout2).
    pose proof (syncUp_issue_pushes force true repo proj remoteMap st1 l w1 remote Hr)
      as Hp1.
    pose proof (syncUp_issue_pushes force false repo proj remoteMap st2 l w2 remote Hr)
      as Hp2.
    rewrite Hrec1, Hfiles1 in Hp1. rewrite Hrec2, Hfiles2 in Hp2.
    split.
    + intros He. apply Hin2, Hp2, Hp1. by apply Hout1.
    + intros He. apply Hin1, Hp1, Hp2. by apply Hout2.
Qed.

(** ** client.ts: the repository of the git remote *)

(** [getCurrentRepo] reads the URL of the remote [origin] from git, trims
    it, searches it for [/github\.com[:/]([^/]+\/[^/.]+)/] and returns
    the group, less a final ".git".  The search is written out below: at
    the leftmost position where it succeeds, the literal "github.com",
    then a colon or a slash, then the longest run of characters other
    than a slash, which must not be empty and must be followed by a
    slash, then the longest run of characters other than a slash and a
    dot, which must not be empty.  (A shorter run for the first class
    cannot be followed by a slash, so the greedy choice is the only
    one.) *)

(** The longest prefix of [s] whose characters satisfy [p], and the rest. *)
Fixpoint span (p : ascii -> bool) (s : string) : string * string :=
  match s with
  | EmptyString => (EmptyString, EmptyString)
  | String c s' =>
      if p c then let '(a, b) := span p s' in (String c a, b)
      else (EmptyString, s)
  end.

(** [s] without its prefix [p], when it has it. *)
Fixpoint strip_prefix (p s : string) : option string :=
  match p, s with
  | EmptyString, _ => Some s
  | String c p', String d s' => if Ascii.eqb c d then strip_prefix p' s' else None
  | String _ _, EmptyString => None
  end.

Definition not_slash (c : ascii) : bool := negb (Ascii.eqb c "/").

Definition not_slash_dot (c : ascii) : bool :=
  negb (Ascii.eqb c "/" || Ascii.eqb c ".").

(** The match of the pattern at the start of [s]: the two parts of the
    group, before and after its slash. *)
Definition match_here (s : string) : option (string * string) :=
  rest ← strip_prefix "github.com" s;
  match rest with
  | String c rest1 =>
      if Ascii.eqb c ":" || Ascii.eqb c "/" then
        match span not_slash rest1 with
        | (String a owner', String _ rest2) =>
            match span not_slash_dot rest2 with
            | (String b name', _) => Some (String a owner', String b name')
            | (EmptyString, _) => None
            end
        | _ => None
        end
      else None
  | EmptyString => None
  end.

(** The leftmost match. *)
Fixpoint regex_match (s : string) : option (string * string) :=
  match match_here s with
  | Some m => Some m
  | None =>
      match s with
      | EmptyString => None
      | String _ s' => regex_match s'
      end
  end.

(** [x.replace(/\.git$/, '')]. *)
Fixpoint remove_dot_git (x : string) : string :=
  match x with
  | EmptyString => EmptyString
  | String c x' =>
      if String.eqb x ".git" then EmptyString else String c (remove_dot_git x')
  end.

(** The string [getCurrentRepo] returns for the output [stdout] of git:
    [None] when the pattern does not match, which the function throws as
    a failure to get the current repository. *)
Definition getCurrentRepo_of (stdout : string) : option string :=
  '(owner, name) ← regex_match (Js.trim stdout);
  Some (remove_dot_git (String.append owner (String "/" name))).

Definition has (c : ascii) (s : string) : Prop := In c (list_ascii_of_string s).

Lemma span_spec p s a b :
  span p s = (a, b) ->
  s = String.append a b
  /\ (forall c, has c a -> p c = true)
  /\ match b with String c _ => p c = false | EmptyString => True end.
Proof.
  revert a b. induction s as [|c s IH]; intros a b; simpl.
  - intros [= <- <-]. by split_and!; [|intros ? []|].
  - destruct (p c) eqn:Hc.
    + destruct (span p s) as [a' b'] eqn:E. intros [= <- <-].
      destruct (IH _ _ eq_refl) as (-> & Ha & Hb). split_and!; [done| |done].
      intros d [<-|Hd]; [done|by apply Ha].
    + intros [= <- <-]. by split_and!; [|intros ? []|].
Qed.

Lemma span_all p s b :
  (forall c, has c s -> p c = true) ->
  match b with String c _ => p c = false | EmptyString => True end ->
  span p (String.append s b) = (s, b).
Proof.
  intros Hs Hb. induction s as [|c s IH]; simpl.
  - destruct b as [|d b]; [done|]. simpl. by rewrite Hb.
  - rewrite Hs by by left. rewrite IH; [done|]. intros d Hd. apply Hs. by right.
Qed.

Lemma has_append c a b : has c (String.append a b) <-> has c a \/ has c b.
Proof.
  unfold has. induction a as [|d a IH]; simpl; [tauto|]. rewrite IH. tauto.
Qed.

Lemma remove_dot_git_id x :
  (forall y, x ≠ String.append y ".git") -> remove_dot_git x = x.
Proof.
  induction x as [|c x IH]; intros Hx; [done|].
  cbn [remove_dot_git]. destruct (String.eqb_spec (String c x) ".git") as [E|E].
  - destruct (Hx ""). by rewrite E.
  - f_equal. apply IH. intros y ->. by apply (Hx (String c y)).
Qed.

Lemma no_dot_git_suffix owner name y :
  name ≠ EmptyString ->
  (forall c, has c name -> not_slash_dot c = true) ->
  String.append owner (String "/" name) ≠ String.append y ".git".
Proof.
  intros Hne Hname Heq.
  assert (forall a b, String.append a (String "/" b) = String.append y ".git" ->
            b ≠ EmptyString -> (forall c, has c b -> not_slash_dot c = true) -> False)
    as Hgen; [|by eapply Hgen].
  clear. induction y as [|d y IH]; intros a b Heq Hb Hdot.
  - destruct a as [|a0 a]; simpl in Heq.
    + done.
    + injection Heq as -> Heq. destruct a as [|a1 a]; simpl in Heq; [done|].
      injection Heq as -> Heq. destruct a as [|a2 a]; simpl in Heq; [done|].
      injection Heq as -> Heq. destruct a as [|a3 a]; simpl in Heq; [done|].
      injection Heq as -> Heq. by destruct a.
  - destruct a as [|a0 a]; simpl in Heq.
    + injection Heq as <- Heq. clear IH.
      assert (has "." b) as Hhas.
      { rewrite Heq. apply has_append. right. by left. }
      by apply Hdot in Hhas.
    + injection Heq as -> Heq. by eapply IH.
Qed.

(** What [match_here] returns, and hence [regex_match], has the shape of
    the group. *)
Lemma match_here_shape s owner name :
  match_here s = Some (owner, name) ->
  owner ≠ EmptyString /\ name ≠ EmptyString
  /\ (forall c, has c owner -> not_slash c = true)
  /\ (forall c, has c name -> not_slash_dot c = true).
Proof.
  unfold match_here. destruct (strip_prefix _ s) as [rest|]; simpl; [|done].
  destruct rest as [|c rest1]; [done|].
  destruct (_ || _); [|done].
  destruct (span not_slash rest1) as [[|a owner'] [|d rest2]] eqn:E1; try done.
  destruct (span not_slash_dot rest2) as [[|b name'] rest3] eqn:E2; [done|].
  intros [= <- <-].
  destruct (span_spec _ _ _ _ E1) as (_ & Ho & _).
  destruct (span_spec _ _ _ _ E2) as (_ & Hn & _).
  by split_and!.
Qed.

Lemma regex_match_shape s owner name :
  regex_match s = Some (owner, name) ->
  owner ≠ EmptyString /\ name ≠ EmptyString
  /\ (forall c, has c owner -> not_slash c = true)
  /\ (forall c, has c name -> not_slash_dot c = true).
Proof.
  induction s as [|c s IH]; cbn [regex_match].
  - done.
  - destruct (match_here (String c s)) as [m|] eqn:E; [|exact IH]. intros [= ->].
    by apply match_here_shape in E.
Qed.

(** The repository [getCurrentRepo] returns is always of the form
    owner/name, with an owner that is not empty and has no slash and a
    name that is not empty and has neither slash nor dot.  The removal of
    a final ".git" never applies: the name has ended at the dot before
    it. *)
Theorem getCurrentRepo_shape stdout repo :
  getCurrentRepo_of stdout = Some repo ->
  exists owner name,
    repo = String.append owner (String "/" name)
    /\ owner ≠ EmptyString /\ name ≠ EmptyString
    /\ (forall c, has c owner -> c ≠ "/"%char)
    /\ (forall c, has c name -> c ≠ "/"%char /\ c ≠ "."%char).
Proof.
  unfold getCurrentRepo_of.
  destruct (regex_match (Js.trim stdout)) as [[owner name]|] eqn:E; simpl; [|done].
  intros [= <-]. destruct (regex_match_shape _ _ _ E) as (Ho & Hn & Hoc & Hnc).
  exists owner, name. split_and!; [|done..| |].
  - apply remove_dot_git_id. intros y. by apply no_dot_git_suffix.
  - intros c Hc%Hoc ->. done.
  - intros c Hc%Hnc. unfold not_slash_dot in Hc. split; intros ->; done.
Qed.

Lemma regex_match_here s m : match_here s = Some m -> regex_match s = Some m.
Proof. intros Hm. destruct s; cbn [regex_match]; by rewrite Hm. Qed.

Lemma match_here_url sep owner name rest :
  sep = ":"%char \/ sep = "/"%char ->
  owner ≠ EmptyString -> name ≠ EmptyString ->
  (forall c, has c owner -> not_slash c = true) ->
  (forall c, has c name -> not_slash_dot c = true) ->
  match rest with String c _ => not_slash_dot c = false | EmptyString => True end ->
  match_here (String.append "github.com"
                (String sep (String.append owner (String "/" (String.append name rest)))))
  = Some (owner, name).
Proof.
  intros Hsep Ho Hn Hoc Hnc Hrest. unfold match_here. simpl.
  assert (Ascii.eqb sep ":" || Ascii.eqb sep "/" = true) as ->.
  { by destruct Hsep as [-> | ->]. }
  rewrite (span_all not_slash owner (String "/" (String.append name rest))) by done.
  destruct owner as [|a owner']; [done|].
  rewrite (span_all not_slash_dot name rest) by done.
  by destruct name.
Qed.

Lemma append_cons c a b : String.append (String c a) b = String c (String.append a b).
Proof. done. Qed.

Lemma append_nil b : String.append EmptyString b = b.
Proof. done. Qed.

Lemma regex_match_skip c s :
  match_here (String c s) = None -> regex_match (String c s) = regex_match s.
Proof. intros Hm. cbn [regex_match]. by rewrite Hm. Qed.

Lemma trimEnd_id s : (forall c, has c s -> Js.is_ws c = false) -> Js.trimEnd s = s.
Proof.
  induction s as [|c s IH]; intros Hs; [done|].
  cbn [Js.trimEnd]. rewrite IH by (intros d Hd; apply Hs; by right).
  destruct s; [|done]. by rewrite Hs by by left.
Qed.

Lemma trim_id s : (forall c, has c s -> Js.is_ws c = false) -> Js.trim s = s.
Proof.
  intros Hs. unfold Js.trim.
  assert (Js.trimStart s = s) as ->; [|by apply trimEnd_id].
  destruct s as [|c s]; [done|]. simpl. by rewrite Hs by by left.
Qed.

(** The usual remote URLs are read as they should be, with or without a
    final ".git", when the name of the repository has no dot; a name with
    a dot is cut at its first dot. *)
Theorem getCurrentRepo_urls owner name rest :
  owner ≠ EmptyString -> name ≠ EmptyString ->
  (forall c, has c owner -> c ≠ "/"%char /\ Js.is_ws c = false) ->
  (forall c, has c name -> c ≠ "/"%char /\ c ≠ "."%char /\ Js.is_ws c = false) ->
  rest = EmptyString
  \/ (exists rest', rest = String "." rest'
                    /\ forall c, has c rest' -> Js.is_ws c = false) ->
  getCurrentRepo_of
    (String.append "https://github.com/"
       (String.append owner (String "/" (String.append name rest))))
    = Some (String.append owner (String "/" name))
  /\ getCurrentRepo_of
       (String.append "git@github.com:"
          (String.append owner (String "/" (String.append name rest))))
     = Some (String.append owner (String "/" name)).
Proof.
  intros Ho Hn Hoc Hnc Hrest.
  assert (match rest with String c _ => not_slash_dot c = false | EmptyString => True end)
    as Hrest_head.
  { by destruct Hrest as [->|(rest' & -> & _)]. }
  assert (forall c, has c owner -> not_slash c = true) as Hoc'.
  { intros c [Hc _]%Hoc. unfold not_slash.
    destruct (Ascii.eqb_spec c "/"); [done|done]. }
  assert (forall c, has c name -> not_slash_dot c = true) as Hnc'.
  { intros c (Hc1 & Hc2 & _)%Hnc. unfold not_slash_dot.
    destruct (Ascii.eqb_spec c "/"); [done|]. by destruct (Ascii.eqb_spec c "."). }
  assert (forall c, has c (String.append owner (String "/" (String.append name rest))) ->
                    Js.is_ws c = false) as Hws.
  { intros c [Hc|[<-|[Hc|Hc]%has_append]]%has_append; [by apply Hoc|done|by apply Hnc|].
    destruct Hrest as [->|(rest' & -> & Hr)]; [done|].
    destruct Hc as [<-|Hc]; [done|by apply Hr]. }
  assert (remove_dot_git (String.append owner (String "/" name))
          = String.append owner (String "/" name)) as Hkeep.
  { apply remove_dot_git_id. intros y. by apply no_dot_git_suffix. }
  pose proof (match_here_url "/" owner name rest (or_intror eq_refl)
                Ho Hn Hoc' Hnc' Hrest_head) as Hslash.
  pose proof (match_here_url ":" owner name rest (or_introl eq_refl)
                Ho Hn Hoc' Hnc' Hrest_head) as Hcolon.
  rewrite !append_cons, append_nil in Hslash, Hcolon.
  apply regex_match_here in Hslash, Hcolon.
  split.
  - unfold getCurrentRepo_of. rewrite trim_id.
    + rewrite !append_cons, append_nil. rewrite !regex_match_skip by reflexivity.
      rewrite Hslash. simpl. by rewrite Hkeep.
    + intros c Hc. rewrite !append_cons, append_nil in Hc.
      repeat (destruct Hc as [<-|Hc]; [done|]). by apply Hws.
  - unfold getCurrentRepo_of. rewrite trim_id.
    + rewrite !append_cons, append_nil. rewrite !regex_match_skip by reflexivity.
      rewrite Hcolon. simpl. by rewrite Hkeep.
    + intros c Hc. rewrite !append_cons, append_nil in Hc.
      repeat (destruct Hc as [<-|Hc]; [done|]). by apply Hws.
Qed.

End Issync.

(** * A repository with one issue *)

(** The theorems above hold for every front-matter library, every script
    of the environment and every world.  Here they are run on a small
    repository: issue #3 of [o/r], on project #7 with one single-select
    field. *)

(** A front-matter library that keeps the data as they are and ends the
    body with a line feed. *)
Definition newline : string := String "010"%char EmptyString.

#[local] Instance plain_matter : GrayMatter := {|
  Text := FrontMatter * string;
  matter_stringify b fm := (fm, String.append b newline);
  matter t := Some t |}.

Lemma trimEnd_newline s : Js.trimEnd (String.append s newline) = Js.trimEnd s.
Proof.
  induction s as [|a s IH]; [done|].
  change (String.append (String a s) newline) with (String a (String.append s newline)).
  cbn [Js.trimEnd]. by rewrite IH.
Qed.

Lemma trim_newline s : Js.trim (String.append s newline) = Js.trim s.
Proof.
  unfold Js.trim. induction s as [|a s IH]; [done|].
  change (String.append (String a s) newline) with (String a (String.append s newline)).
  cbn [Js.trimStart]. destruct (Js.is_ws a); [done|].
  apply (trimEnd_newline (String a s)).
Qed.

#[local] Instance plain_matter_round_trip : GrayMatterRoundTrip.
Proof.
  split. intros b fm. exists (String.append b newline).
  split; [done|apply trim_newline].
Qed.

Definition jan1 := "2024-01-01T00:00:00.000Z".
Definition jan2 := "2024-01-02T00:00:00.000Z".
Definition jan3 := "2024-01-03T00:00:00.000Z".
Definition jan4 := "2024-01-04T00:00:00.000Z".
Definition feb1 := "2024-02-01T00:00:00.000Z".
Definition feb1_later := "2024-02-01T00:00:01.000Z".

Definition repo_or : Repo := {| repo_owner := "o"; repo_name := "r" |}.

(** Issue #3 as the REST API lists it. *)
Definition raw3 (title updated : string) : RawIssue := {|
  raw_number := 3; raw_title := title; raw_body := Some "text";
  raw_state := open; raw_labels := []; raw_assignees := Some [];
  raw_milestone := None; raw_created_at := jan1; raw_updated_at := updated;
  raw_closed_at := None; raw_pull_request := false |}.

Definition fieldPriority : ProjectField := {|
  field_id := "F1"; field_name := "Priority"; dataType := SINGLE_SELECT;
  options := Some [{| option_id := "o-low"; option_name := "Low" |};
                   {| option_id := "o-high"; option_name := "High" |}] |}.

(** The project item of issue #3 as GraphQL answers: Priority is Low. *)
Definition item3 : RawIssueData := {|
  rid_projectItems := Some [
    {| rpi_id := "ITEM3"; rpi_project_number := Some 7;
       rpi_fieldValues := Some [
         {| fv_field_name := Some "Priority"; fv_name := Some "Low";
            fv_text := None; fv_date := None; fv_number := None;
            fv_title := None |} ] |} ] |}.

(** The environment.  The clock shows [feb1] for the first eight
    interactions and [feb1_later] afterwards.  The remote issue #3 has the
    title "remote title" and was updated at [remote_updated]; from the
    eighth interaction on it is listed as an accepted update leaves it,
    with the local title.  Every write and every call succeeds. *)
Definition env_of (remote_updated : string) : Env := {|
  now t := if Nat.ltb t 8 then feb1 else feb1_later;
  fs_ok _ := true;
  git_remote _ := Resolve repo_or;
  rest_listForRepo t p :=
    Resolve (if Nat.eqb (lp_page p) 1
             then [if Nat.ltb t 8 then raw3 "remote title" remote_updated
                   else raw3 "local title" feb1]
             else []);
  rest_listMilestones _ := Resolve [];
  rest_update _ _ := Resolve tt;
  gql_projectItems _ _ _ := Resolve [Some item3];
  gql_projectFields _ _ _ := Resolve [fieldPriority];
  gql_projectId _ _ _ := Resolve (Some "PROJ");
  gql_projectTitle _ _ _ := Resolve None;
  gql_detectProject _ _ _ := None;
  gql_mutate _ _ := Resolve tt;
  cache_is_fresh _ _ := false |}.

(** The local file of issue #3: another title, Priority High. *)
Definition local3 : FrontMatter := {|
  fm_number := 3; fm_title := "local title"; fm_state := open;
  fm_labels := Some []; fm_assignees := Some []; fm_milestone := None;
  fm_created_at := jan1; fm_updated_at := jan1; fm_closed_at := None;
  fm_project_fields := Some [("Priority", PFString "High")] |}.

Definition local_issue3 : Issue := {|
  number := 3; title := "local title"; body := "text"; state := open;
  labels := []; assignees := []; milestone := None;
  created_at := jan1; updated_at := jan1; closed_at := None;
  project_fields := Some [("Priority", PFString "High")] |}.

Definition remote_issue3 (t updated : string) : Issue := {|
  number := 3; title := t; body := "text"; state := open;
  labels := []; assignees := []; milestone := None;
  created_at := jan1; updated_at := updated; closed_at := None;
  project_fields := None |}.

(** The record of the last synchronisation, on the 2nd of January. *)
Definition rec3 : SyncRecord := {|
  github_updated_at := jan1; local_updated_at := jan1; last_synced_at := jan2;
  project_item_id := Some "ITEM3"; project_fields_updated_at := Some jan2 |}.

Definition state3 : SyncState := {| issues := {[ 3 := rec3 ]} |}.

Definition cfg : Config := {|
  project := Some {| project_number := Some 7; owner := Some "o"; enabled := true;
                     cached_fields := None; fields_cached_at := None |} |}.

Definition project7 : Project := ([fieldPriority], "PROJ", 7, "o").

Definition project_item3 : ProjectItem := {|
  item_id := "ITEM3"; item_number := 3;
  item_fields := [("Priority", PFString "Low")] |}.

(** The world: the file of issue #3, last written at [mt], the sync state
    and the project configuration. *)
Definition world_of (mt : string) : World := {|
  tick := 0;
  issue_files := {[ 3 := {| text := (local3, "text"); mtime := mt |} ]};
  state_file := Some state3;
  config_file := Some cfg |}.

Definition request_all : ListParams := {|
  lp_owner := "o"; lp_repo := "r"; lp_state := "all"; lp_per_page := 100;
  lp_page := 1; lp_sort := "updated"; lp_direction := "desc"; lp_since := None |}.

Definition request_since (since : option string) : ListParams := {|
  lp_owner := "o"; lp_repo := "r"; lp_state := "open"; lp_per_page := 100;
  lp_page := 1; lp_sort := "updated"; lp_direction := "desc"; lp_since := since |}.

(** The record of issue #3 after a push that sent its update and its
    field. *)
Definition pushed3 : SyncRecord := {|
  github_updated_at := feb1; local_updated_at := jan1; last_synced_at := feb1;
  project_item_id := None; project_fields_updated_at := Some feb1_later |}.



Lemma env_clock r t t' :
  (t <= t')%nat -> String.le (now (env_of r) t) (now (env_of r) t').
Proof.
  intros Hle. simpl.
  destruct (Nat.ltb_spec t 8), (Nat.ltb_spec t' 8); try lia;
    by apply gt_false_le.
Qed.

(** ** Push: conflicts *)


(** C5. On the same world the conflict detector misses the conflict the
    push reports.  The file of issue #3 was written after the last
    synchronisation and the remote issue was updated after it was last
    seen: the push reports the conflict and sends no update, and
    [detectConflicts] returns no conflict, because it compares the
    [updated_at] of the front matter, not the modification time of the
    file, with [last_synced_at]. *)
Theorem detectConflicts_misses_push_conflict :
  outcome (syncUp_load (env_of jan4) 5 false false (world_of jan3))
    = Ok (repo_or, [local_issue3], {[ 3 := remote_issue3 "remote title" jan4 ]},
          state3, None)
  /\ localModified_of (Some jan3) rec3 = true
  /\ remoteModified_of (remote_issue3 "remote title" jan4) rec3 = true
  /\ events (syncUp (env_of jan4) 5 false false false (world_of jan3))
     = [Console LSyncingUp; Console (LRepository repo_or);
        CallListForRepo request_all;
        Console (LConflictDetected 3);
        WriteStateFile state3;
        Console (LSyncCompleteUpdated 0)]
  /\ outcome (detectConflicts (env_of jan4) 5 (world_of jan3)) = Ok [].
Proof. repeat split. Qed.

(** ** Push: an issue whose file is not modified *)



(** ** Push: the record of an updated issue *)



(** ** Push, twice *)

(** The first push updates issue #3; the remote then lists it with the
    local title.  The second push updates nothing. *)
Lemma push_twice_witness :
  let first := syncUp (env_of jan1) 5 false false true (world_of jan3) in
  let second := syncUp (env_of jan1) 5 false false true (world first) in
  Console (LSyncCompleteUpdated 1) ∈ events first
  /\ (forall p, CallIssuesUpdate p ∉ events second)
  /\ (forall k, Console (LSyncCompleteUpdated k) ∈ events second -> k = 0%nat).
Proof.
  intros first second. split.
  { apply list_elem_of_lookup. exists 11%nat. vm_compute. reflexivity. }
  apply (push_twice (env_of jan1) 5 5 true true (world_of jan3)
           repo_or [local_issue3] {[ 3 := remote_issue3 "remote title" jan1 ]} state3
           (Some project7)
           repo_or [local_issue3] {[ 3 := remote_issue3 "local title" feb1 ]}
           {| issues := {[ 3 := pushed3 ]} |} (Some project7)).
  - vm_compute. reflexivity.
  - vm_compute. reflexivity.
  - vm_compute. reflexivity.
  - intros n Hn. destruct (decide (n = 3)) as [->|Hne].
    + exfalso.
      apply (Hn (params_of repo_or 3
                   (updates_of local_issue3 (remote_issue3 "remote title" jan1))));
        [|reflexivity].
      apply list_elem_of_lookup. exists 6%nat. vm_compute. reflexivity.
    + by rewrite !lookup_singleton_ne.
  - intros n file t Hfile _. simpl in Hfile.
    apply lookup_singleton_Some in Hfile as [_ <-]. simpl.
    destruct (Nat.ltb t 8); by apply gt_false_le.
Defined.

(** ** Pull *)

(** The pull asks for the issues updated since the 2nd of January, the
    time of the only record. *)
Lemma pull_requests_since_cutoff_witness :
  CallListForRepo (request_since (Some jan2))
    ∈ events (syncDown (env_of jan4) 5 false false true (world_of jan3))
  /\ lp_since (request_since (Some jan2)) = Some (last_synced_at rec3).
Proof.
  assert (CallListForRepo (request_since (Some jan2))
            ∈ events (syncDown (env_of jan4) 5 false false true (world_of jan3))) as Hin.
  { apply list_elem_of_lookup. exists 4%nat. vm_compute. reflexivity. }
  split; [exact Hin|].
  destruct (pull_requests_since_cutoff (env_of jan4) 5 false false true (world_of jan3)
              (request_since (Some jan2)) Hin) as [_ Hcut].
  apply (Hcut eq_refl (last_synced_at rec3)).
  - exists 3, rec3. split; [vm_compute|]; reflexivity.
  - intros n r Hr. simpl in Hr. apply lookup_singleton_Some in Hr as [_ <-].
    by apply gt_false_le.
Defined.

(** The pull fetches issue #3, updated on the 4th of January, and
    persists its record. *)
Lemma pull_records_witness :
  exists persisted r,
    state_file (world (syncDown (env_of jan4) 5 false false true (world_of jan3)))
      = Some persisted
    /\ issues persisted !! 3 = Some r
    /\ github_updated_at r = jan4
    /\ local_updated_at r = jan4
    /\ String.le feb1 (last_synced_at r)
    /\ exists before,
         events (syncDown (env_of jan4) 5 false false true (world_of jan3))
           = before ++ [WriteStateFile persisted; Console LSyncComplete].
Proof.
  destruct (pull_records (env_of jan4) 5 false false true (world_of jan3)
              state3 [remote_issue3 "remote title" jan4]
              (Some ([fieldPriority], {[ 3 := project_item3 ]})))
    as (persisted & before & Hstate & Hrecords & Hevents & _).
  - vm_compute. reflexivity.
  - vm_compute. reflexivity.
  - repeat constructor. intros Hin. inversion Hin.
  - apply env_clock.
  - destruct (Hrecords (remote_issue3 "remote title" jan4)) as (r & Hr & Hg & Hl & Hs).
    { constructor. }
    exists persisted, r. repeat split; try done. by exists before.
Defined.

(** ** The local store *)



(** * Further runs on the repository with one issue *)

(** ** The project items *)


(** ** The project configuration *)

(** An environment in which project #7 of [o] is detected for every
    repository, and a world without configuration. *)
Definition detected7 : ProjectConfig := {|
  project_number := Some 7; owner := Some "o"; enabled := true;
  cached_fields := None; fields_cached_at := None |}.

Definition env_detecting : Env := {|
  now := now (env_of jan1);
  fs_ok := fs_ok (env_of jan1);
  git_remote := git_remote (env_of jan1);
  rest_listForRepo := rest_listForRepo (env_of jan1);
  rest_listMilestones := rest_listMilestones (env_of jan1);
  rest_update := rest_update (env_of jan1);
  gql_projectItems := gql_projectItems (env_of jan1);
  gql_projectFields := gql_projectFields (env_of jan1);
  gql_projectId := gql_projectId (env_of jan1);
  gql_projectTitle := gql_projectTitle (env_of jan1);
  gql_detectProject _ _ _ := Some detected7;
  gql_mutate := gql_mutate (env_of jan1);
  cache_is_fresh := cache_is_fresh (env_of jan1) |}.

Definition world_new : World := {|
  tick := 0; issue_files := ∅; state_file := None; config_file := None |}.

Definition repo_other : Repo := {| repo_owner := "p"; repo_name := "q" |}.

(** The first call detects and saves project #7; the second call, for
    another repository, returns it from the configuration. *)
Lemma getOrCreateProjectConfig_saved_witness :
  let first := getOrCreateProjectConfig env_detecting "o" repo_or world_new in
  Console LSavedConfig ∈ events first
  /\ outcome first = Ok (Some detected7)
  /\ getOrCreateProjectConfig env_detecting "p" repo_other (world first)
     = mkRun (Ok (Some detected7)) (world first) [].
Proof.
  intros first.
  assert (Console LSavedConfig ∈ events first) as Hin.
  { apply list_elem_of_lookup. exists 4%nat. vm_compute. reflexivity. }
  split; [exact Hin|].
  destruct (getOrCreateProjectConfig_saved env_detecting "o" repo_or world_new
              "p" repo_other Hin) as (d & Hd & Hsecond).
  assert (d = detected7) as ->.
  { assert (Ok (Some d) = Ok (Some detected7)) as Heq; [|by injection Heq].
    rewrite <- Hd. vm_compute. reflexivity. }
  split; [exact Hd|exact Hsecond].
Defined.

(** ** The pages of the remote issues *)

(** A pull request as the REST API lists it among the issues. *)
Definition raw_pull4 : RawIssue := {|
  raw_number := 4; raw_title := "a pull request"; raw_body := None;
  raw_state := open; raw_labels := []; raw_assignees := None;
  raw_milestone := None; raw_created_at := jan1; raw_updated_at := jan2;
  raw_closed_at := None; raw_pull_request := true |}.

(** An environment whose first page of issues is full, with a hundred
    items, and whose later pages are answered by [second]. *)
Definition env_pages (second : Answer (list RawIssue)) : Env := {|
  now := now (env_of jan1);
  fs_ok := fs_ok (env_of jan1);
  git_remote := git_remote (env_of jan1);
  rest_listForRepo _ p :=
    if Nat.eqb (lp_page p) 1
    then Resolve (replicate 100 (raw3 "remote title" jan1))
    else second;
  rest_listMilestones := rest_listMilestones (env_of jan1);
  rest_update := rest_update (env_of jan1);
  gql_projectItems := gql_projectItems (env_of jan1);
  gql_projectFields := gql_projectFields (env_of jan1);
  gql_projectId := gql_projectId (env_of jan1);
  gql_projectTitle := gql_projectTitle (env_of jan1);
  gql_detectProject := gql_detectProject (env_of jan1);
  gql_mutate := gql_mutate (env_of jan1);
  cache_is_fresh := cache_is_fresh (env_of jan1) |}.

(** The issue the pull of the world of the 3rd of January fetches is the
    conversion of the listed item. *)
Lemma fetchIssues_issues_witness :
  outcome (fetchIssues (env_of jan4) 5 repo_or false (Some jan2) (world_of jan3))
    = Ok [remote_issue3 "remote title" jan4]
  /\ (exists t page data raw,
        rest_listForRepo (env_of jan4) t (list_params repo_or false (Some jan2) page)
          = Resolve data
        /\ raw ∈ data /\ raw_pull_request raw = false
        /\ remote_issue3 "remote title" jan4 = issue_of_raw raw)
  /\ project_fields (remote_issue3 "remote title" jan4) = None.
Proof.
  assert (outcome (fetchIssues (env_of jan4) 5 repo_or false (Some jan2) (world_of jan3))
          = Ok [remote_issue3 "remote title" jan4]) as Hok.
  { vm_compute. reflexivity. }
  split; [exact Hok|].
  destruct (fetchIssues_issues (env_of jan4) 5 repo_or false (Some jan2) (world_of jan3)
              [remote_issue3 "remote title" jan4] Hok
              (remote_issue3 "remote title" jan4))
    as (Hraw & _ & _ & _ & Hfields).
  - constructor.
  - split; [exact Hraw|exact Hfields].
Defined.

(** A full first page and a second page with one issue and one pull
    request: two requests, and a hundred and one issues. *)
Lemma fetchIssues_pages_witness :
  let r := fetchIssues (env_pages (Resolve [raw3 "last" jan2; raw_pull4])) 5
             repo_or true None (world_of jan1) in
  outcome r
    = Ok (replicate 100 (remote_issue3 "remote title" jan1) ++ [remote_issue3 "last" jan2])
  /\ length (events r) = 2%nat
  /\ tick (world r) = 2%nat.
Proof.
  intros r.
  destruct (fetchIssues_pages (env_pages (Resolve [raw3 "last" jan2; raw_pull4])) 5
              repo_or true None (world_of jan1)
              [replicate 100 (raw3 "remote title" jan1)] [raw3 "last" jan2; raw_pull4])
    as (Hok & Hev & Htick).
  - intros [|[|i]] data; simpl; intros [= <-]; reflexivity.
  - apply Forall_cons. split; [rewrite length_replicate; lia|constructor].
  - simpl. lia.
  - simpl. lia.
  - fold r in Hok, Hev, Htick. split_and!.
    + rewrite Hok. vm_compute. reflexivity.
    + rewrite Hev. reflexivity.
    + exact Htick.
Defined.

(** A full first page and a second request that is rejected: the pull
    of the issues throws the rejection. *)
Lemma fetchIssues_rejected_witness :
  outcome (fetchIssues (env_pages (Reject "rate limit")) 5 repo_or true None
             (world_of jan1))
    = Throw (Rejected "rate limit").
Proof.
  apply (fetchIssues_rejected (env_pages (Reject "rate limit")) 5 repo_or true None
           (world_of jan1) [replicate 100 (raw3 "remote title" jan1)] "rate limit").
  - intros [|i] data; simpl; intros [= <-]; reflexivity.
  - apply Forall_cons. split; [rewrite length_replicate; lia|constructor].
  - reflexivity.
  - simpl. lia.
Defined.

(** ** Push: the requests *)

(** The forced push of the world of the 3rd of January sends one update,
    for issue #3, with the fields on which the file and the remote issue
    differ. *)
Lemma push_requests_witness :
  CallIssuesUpdate
    (params_of repo_or 3 (updates_of local_issue3 (remote_issue3 "remote title" jan4)))
    ∈ events (syncUp (env_of jan4) 5 true false true (world_of jan3))
  /\ Forall (fun e =>
               match e with
               | CallListMilestones _ => False
               | CallIssuesUpdate p =>
                   false = false
                   /\ exists l remote,
                        l ∈ [local_issue3]
                        /\ ({[ 3 := remote_issue3 "remote title" jan4 ]} : gmap N Issue)
                             !! number l = Some remote
                        /\ p = params_of repo_or (number l) (updates_of l remote)
                        /\ Object_keys (updates_of l remote) <> []
               | _ => True
               end)
            (events (syncUp (env_of jan4) 5 true false true (world_of jan3))).
Proof.
  split.
  - apply list_elem_of_lookup. exists 6%nat. vm_compute. reflexivity.
  - apply (push_requests (env_of jan4) 5 true false true (world_of jan3)
             repo_or [local_issue3] {[ 3 := remote_issue3 "remote title" jan4 ]} state3
             (Some project7)).
    vm_compute. reflexivity.
Defined.

(** ** Push: an issue in conflict *)

(** The push of the world of the 3rd of January finds issue #3 modified
    on both sides: the conflict line is all it says about the issue, and
    the record stays. *)
Lemma push_skips_witness :
  skip_line false (issue_files (world_of jan3))
    {[ 3 := remote_issue3 "remote title" jan4 ]} state3 local_issue3
    = Some (LConflictDetected 3)
  /\ Console (LConflictDetected 3)
       ∈ events (syncUp (env_of jan4) 5 false false true (world_of jan3))
  /\ (forall p, CallIssuesUpdate p
                  ∈ events (syncUp (env_of jan4) 5 false false true (world_of jan3)) ->
                up_issue_number p <> 3)
  /\ exists persisted,
       state_file (world (syncUp (env_of jan4) 5 false false true (world_of jan3)))
         = Some persisted
       /\ issues persisted !! 3 = Some rec3.
Proof.
  assert (skip_line false (issue_files (world_of jan3))
            {[ 3 := remote_issue3 "remote title" jan4 ]} state3 local_issue3
          = Some (LConflictDetected 3)) as Hskip.
  { vm_compute. reflexivity. }
  split; [exact Hskip|].
  destruct (push_skips (env_of jan4) 5 false false true (world_of jan3)
              repo_or [local_issue3] {[ 3 := remote_issue3 "remote title" jan4 ]} state3
              (Some project7) local_issue3 (LConflictDetected 3))
    as (Hline & Honly & Hrec).
  - vm_compute. reflexivity.
  - vm_compute. reflexivity.
  - repeat constructor. intros Hin. inversion Hin.
  - constructor.
  - exact Hskip.
  - split; [exact Hline|]. split.
    + intros p Hp Hn. specialize (Honly _ Hp). simpl in Honly.
      rewrite Hn in Honly. by specialize (Honly eq_refl).
    + destruct (Hrec eq_refl) as (persisted & Hstate & Hr).
      exists persisted. split; [exact Hstate|]. exact Hr.
Defined.

(** ** Pull: what the local store holds afterwards *)



(** A world with a second issue, #5, which the remote does not list. *)
Definition local5 : FrontMatter := {|
  fm_number := 5; fm_title := "five"; fm_state := closed;
  fm_labels := Some ["bug"]; fm_assignees := Some []; fm_milestone := None;
  fm_created_at := jan1; fm_updated_at := jan1; fm_closed_at := Some jan2;
  fm_project_fields := None |}.

Definition rec5 : SyncRecord := {|
  github_updated_at := jan1; local_updated_at := jan1; last_synced_at := jan1;
  project_item_id := None; project_fields_updated_at := None |}.

Definition state35 : SyncState := {| issues := {[ 3 := rec3; 5 := rec5 ]} |}.

Definition world_two : World := {|
  tick := 0;
  issue_files := {[ 3 := {| text := (local3, "text"); mtime := jan3 |};
                    5 := {| text := (local5, "done"); mtime := jan1 |} ]};
  state_file := Some state35;
  config_file := Some cfg |}.

(** The pull fetches issue #3 alone: the file and the record of issue #5
    are as before. *)
Lemma pull_keeps_the_rest_witness :
  exists persisted,
    state_file (world (syncDown (env_of jan4) 5 false false true world_two))
      = Some persisted
    /\ issue_files (world (syncDown (env_of jan4) 5 false false true world_two)) !! 5
       = Some {| text := (local5, "done"); mtime := jan1 |}
    /\ issues persisted !! 5 = Some rec5.
Proof.
  destruct (pull_keeps_the_rest (env_of jan4) 5 false false true world_two
              state35 [remote_issue3 "remote title" jan4]
              (Some ([fieldPriority], {[ 3 := project_item3 ]})))
    as (persisted & Hstate & Hrest).
  - vm_compute. reflexivity.
  - vm_compute. reflexivity.
  - exists persisted. split; [exact Hstate|].
    destruct (Hrest 5) as [Hfile Hrec].
    + intros Hin. apply list_elem_of_singleton in Hin. discriminate Hin.
    + split; [rewrite Hfile|rewrite Hrec]; vm_compute; reflexivity.
Defined.

(** The record the pull persists for issue #3 bears the id of its
    project item. *)
Lemma pull_item_ids_witness :
  exists persisted r,
    state_file (world (syncDown (env_of jan4) 5 false false true (world_of jan3)))
      = Some persisted
    /\ issues persisted !! 3 = Some r
    /\ project_item_id r = Some "ITEM3".
Proof.
  destruct (pull_item_ids (env_of jan4) 5 false false true (world_of jan3)
              state3 [remote_issue3 "remote title" jan4]
              (Some ([fieldPriority], {[ 3 := project_item3 ]})))
    as (persisted & Hstate & Hids).
  - vm_compute. reflexivity.
  - vm_compute. reflexivity.
  - repeat constructor. intros Hin. inversion Hin.
  - destruct (Hids (remote_issue3 "remote title" jan4)) as (r & Hr & Hid).
    { constructor. }
    exists persisted, r. split; [exact Hstate|]. split; [exact Hr|].
    rewrite Hid. vm_compute. reflexivity.
Defined.

(** ** Pull, then push *)

(** The file of issue #3 is modified, with a title of its own.  The pull
    overwrites it, and the push that follows sends nothing about the
    issue. *)
Lemma pull_then_push_witness :
  let w' := world (syncDown (env_of jan4) 5 false false true (world_of jan3)) in
  outcome (syncUp (env_of jan4) 5 false false true w') = Ok tt
  /\ Forall (fun e =>
               forall issue, issue ∈ [remote_issue3 "remote title" jan4] ->
                 about e = Some (number issue) ->
                 e = Console (LNotFoundOnGithub (number issue)))
            (events (syncUp (env_of jan4) 5 false false true w')).
Proof.
  intros w'. split; [vm_compute; reflexivity|].
  eapply (pull_then_push (env_of jan4) 5 false false true (world_of jan3)
            state3 [remote_issue3 "remote title" jan4]
            (Some ([fieldPriority], {[ 3 := project_item3 ]}))
            5 false false true).
  - vm_compute. reflexivity.
  - vm_compute. reflexivity.
  - repeat constructor. intros Hin. inversion Hin.
  - apply env_clock.
  - vm_compute. reflexivity.
  - vm_compute. reflexivity.
  - repeat constructor. intros Hin. inversion Hin.
Defined.

(** ** Push: the dry run and the real run *)

(** The file of issue #3 is modified and the remote issue is not: the
    dry run reports the update the real run sends, and both count one
    issue. *)
Lemma dry_run_foretells_witness :
  Console (LFoundWithLocalChanges 1)
    ∈ events (syncUp (env_of jan1) 5 false true true (world_of jan3))
  /\ Console (LSyncCompleteUpdated 1)
       ∈ events (syncUp (env_of jan1) 5 false false true (world_of jan3))
  /\ Console (LWouldUpdate 3 "local title"
                (Object_keys (updates_of local_issue3 (remote_issue3 "remote title" jan1))))
       ∈ events (syncUp (env_of jan1) 5 false true true (world_of jan3))
  /\ CallIssuesUpdate
       (params_of repo_or 3 (updates_of local_issue3 (remote_issue3 "remote title" jan1)))
       ∈ events (syncUp (env_of jan1) 5 false false true (world_of jan3)).
Proof.
  destruct (dry_run_foretells (env_of jan1) 5 false true (world_of jan3)
              repo_or [local_issue3] {[ 3 := remote_issue3 "remote title" jan1 ]} state3
              (Some project7))
    as (Hcount & Hupdate).
  - vm_compute. reflexivity.
  - repeat constructor. intros Hin. inversion Hin.
  - vm_compute. reflexivity.
  - vm_compute. reflexivity.
  - assert (Console (LSyncCompleteUpdated 1)
              ∈ events (syncUp (env_of jan1) 5 false false true (world_of jan3))) as Hc.
    { apply list_elem_of_lookup. exists 11%nat. vm_compute. reflexivity. }
    assert (CallIssuesUpdate
              (params_of repo_or 3
                 (updates_of local_issue3 (remote_issue3 "remote title" jan1)))
              ∈ events (syncUp (env_of jan1) 5 false false true (world_of jan3))) as Hu.
    { apply list_elem_of_lookup. exists 6%nat. vm_compute. reflexivity. }
    split_and!; [by apply Hcount|exact Hc| |exact Hu].
    apply (Hupdate local_issue3 (remote_issue3 "remote title" jan1));
      [constructor|vm_compute; reflexivity|exact Hu].
Defined.

(** ** The repository of the git remote *)

(** The repository of an https remote, as git prints it. *)
Lemma getCurrentRepo_shape_witness :
  getCurrentRepo_of (String.append "https://github.com/jasonmadigan/issync.git" newline)
    = Some "jasonmadigan/issync"
  /\ exists owner name,
       "jasonmadigan/issync" = String.append owner (String "/" name)
       /\ owner ≠ EmptyString /\ name ≠ EmptyString
       /\ (forall c, has c owner -> c ≠ "/"%char)
       /\ (forall c, has c name -> c ≠ "/"%char /\ c ≠ "."%char).
Proof.
  assert (getCurrentRepo_of
            (String.append "https://github.com/jasonmadigan/issync.git" newline)
          = Some "jasonmadigan/issync") as Hrepo.
  { vm_compute. reflexivity. }
  split; [exact Hrepo|].
  exact (getCurrentRepo_shape _ _ Hrepo).
Defined.

(** The https and the ssh remote of a repository, with ".git". *)
Lemma getCurrentRepo_urls_witness :
  getCurrentRepo_of "https://github.com/jasonmadigan/issync.git"
    = Some "jasonmadigan/issync"
  /\ getCurrentRepo_of "git@github.com:jasonmadigan/issync.git"
     = Some "jasonmadigan/issync".
Proof.
  apply (getCurrentRepo_urls "jasonmadigan" "issync" ".git").
  - discriminate.
  - discriminate.
  - intros c Hc. simpl in Hc.
    repeat (destruct Hc as [<-|Hc]; [split; [discriminate|reflexivity]|]).
    destruct Hc.
  - intros c Hc. simpl in Hc.
    repeat (destruct Hc as [<-|Hc];
            [split; [discriminate|split; [discriminate|reflexivity]]|]).
    destruct Hc.
  - right. exists "git". split; [reflexivity|].
    intros c Hc. simpl in Hc.
    repeat (destruct Hc as [<-|Hc]; [reflexivity|]). destruct Hc.
Defined.
